(** * paddleocr: a supervisor for the PaddleOCR-json worker process

    A shallow embedding of the Go package [paddleocr] (the latest copy of
    the module: [OcrArgs.CmdString], [NewPpocr], [initPpocr], [Close],
    [close], [restartTimer], [OcrFile], [ocr], [Ocr], [ParseResult] and
    [fileIsExist]) together with the parts of the Go standard library the
    package leans on ([strings.TrimSpace], [encoding/json], [fmt], base64,
    UTF-8), and the properties of the package established on it.

    Go strings and byte slices are byte sequences: they are Rocq [string]s
    (lists of 8-bit [ascii]).  Go [error] values are the [error] type below;
    a run-time panic is an outcome of its own, never confused with an
    [error] return. *)

From Stdlib Require Import ZArith NArith String Ascii List Bool Lia.
From Stdlib Require Import DecimalString DecimalFacts DecimalPos SpecFloat.
From stdpp Require Import base list.
From Equations Require Import Equations.
Import ListNotations.

Set Warnings "-register-all".

Open Scope string_scope.
Open Scope list_scope.
Open Scope nat_scope.

Abbreviation length := List.length.
Notation "a +++ b" := (String.append a b) (at level 60, right associativity).

(* ================================================================== *)
(** * Bytes, UTF-8 and Go strings                                       *)
(* ================================================================== *)

Definition bytes := list ascii.

Definition b2n (c : ascii) : N := N_of_ascii c.
Definition n2b (n : N) : ascii := ascii_of_N n.

Definition str (l : bytes) : string := string_of_list_ascii l.
Definition unstr (s : string) : bytes := list_ascii_of_string s.

(** [utf8.EncodeRune]: the UTF-8 bytes of a rune; surrogates and runes
    above U+10FFFF are written as U+FFFD. *)
Definition RuneError : N := 65533.

Definition encodeRune (r : N) : bytes :=
  let r := if ((55296 <=? r) && (r <=? 57343) || (1114111 <? r))%N
           then RuneError else r in
  if (r <? 128)%N then [n2b r]
  else if (r <? 2048)%N then
    [n2b (192 + r / 64); n2b (128 + r mod 64)]
  else if (r <? 65536)%N then
    [n2b (224 + r / 4096); n2b (128 + (r / 64) mod 64); n2b (128 + r mod 64)]
  else
    [n2b (240 + r / 262144); n2b (128 + (r / 4096) mod 64);
     n2b (128 + (r / 64) mod 64); n2b (128 + r mod 64)].

Definition isCont (c : ascii) : bool := ((128 <=? b2n c) && (b2n c <=? 191))%N.

(** [utf8.DecodeRune]: the first rune of a byte sequence and its width.
    An ill-formed or truncated sequence decodes as ([RuneError], 1); the
    empty sequence as ([RuneError], 0). *)
Definition decodeRune (l : bytes) : N * nat :=
  match l with
  | [] => (RuneError, 0)
  | c0 :: t0 =>
    let b0 := b2n c0 in
    if (b0 <? 128)%N then (b0, 1)
    else if ((194 <=? b0) && (b0 <=? 223))%N then
      match t0 with
      | c1 :: _ =>
        if isCont c1 then (((b0 - 192) * 64 + (b2n c1 - 128))%N, 2)
        else (RuneError, 1)
      | _ => (RuneError, 1)
      end
    else if ((224 <=? b0) && (b0 <=? 239))%N then
      match t0 with
      | c1 :: c2 :: _ =>
        let b1 := b2n c1 in
        let lo := if (b0 =? 224)%N then 160%N else 128%N in
        let hi := if (b0 =? 237)%N then 159%N else 191%N in
        if ((lo <=? b1) && (b1 <=? hi))%N && isCont c2 then
          (((b0 - 224) * 4096 + (b1 - 128) * 64 + (b2n c2 - 128))%N, 3)
        else (RuneError, 1)
      | _ => (RuneError, 1)
      end
    else if ((240 <=? b0) && (b0 <=? 244))%N then
      match t0 with
      | c1 :: c2 :: c3 :: _ =>
        let b1 := b2n c1 in
        let lo := if (b0 =? 240)%N then 144%N else 128%N in
        let hi := if (b0 =? 244)%N then 143%N else 191%N in
        if ((lo <=? b1) && (b1 <=? hi))%N && isCont c2 && isCont c3 then
          (((b0 - 240) * 262144 + (b1 - 128) * 4096
            + (b2n c2 - 128) * 64 + (b2n c3 - 128))%N, 4)
        else (RuneError, 1)
      | _ => (RuneError, 1)
      end
    else (RuneError, 1)
  end.

(** [strings.asciiSpace]. *)
Definition asciiSpace (c : ascii) : bool :=
  existsb (N.eqb (b2n c)) [9; 10; 11; 12; 13; 32]%N.

(** The white space runes of [unicode.IsSpace] outside ASCII. *)
Definition unicodeSpaceRunes : list N :=
  [133; 160; 5760; 8192; 8193; 8194; 8195; 8196; 8197; 8198; 8199; 8200;
   8201; 8202; 8232; 8233; 8239; 8287; 12288]%N.

(** [unicode.IsSpace]. *)
Definition isSpaceRune (r : N) : bool :=
  existsb (N.eqb r) [9; 10; 11; 12; 13; 32]%N
  || existsb (N.eqb r) unicodeSpaceRunes.

(** [strings.TrimLeftFunc(s, unicode.IsSpace)]: runes are decoded from the
    front and dropped while they are white space. *)
Fixpoint trimLeftSpace (l : bytes) : bytes :=
  match l with
  | [] => []
  | c0 :: l1 =>
    if (b2n c0 <? 128)%N then
      if asciiSpace c0 then trimLeftSpace l1 else l
    else
      match l1 with
      | c1 :: l2 =>
        match decodeRune l with
        | (r, 2) => if isSpaceRune r then trimLeftSpace l2 else l
        | (r, 3) =>
          match l2 with
          | c2 :: l3 => if isSpaceRune r then trimLeftSpace l3 else l
          | [] => l
          end
        | _ => l
        end
      | [] => l
      end
  end.

(** [utf8.RuneStart]: the byte is not a continuation byte. *)
Definition RuneStart (c : ascii) : bool := negb (isCont c).

(** [utf8.DecodeLastRune]: the last rune of a byte sequence and its width.
    From the byte before the last it steps back, over at most
    [utf8.UTFMax] = 4 bytes in all, to a byte that can start a rune,
    decodes there, and gives ([RuneError], 1) unless that rune ends exactly
    at the end.  The argument is the sequence REVERSED. *)
Definition decodeLastRune (r : bytes) : N * nat :=
  let try (window : bytes) :=
    match decodeRune (rev window) with
    | (x, sz) => if Nat.eqb sz (length window) then (x, sz) else (RuneError, 1)
    end in
  match r with
  | [] => (RuneError, 0)
  | c0 :: t0 =>
    if (b2n c0 <? 128)%N then (b2n c0, 1)
    else match t0 with
    | [] => try [c0]
    | c1 :: t1 =>
      if RuneStart c1 then try [c0; c1]
      else match t1 with
      | [] => try [c0; c1]
      | c2 :: t2 =>
        if RuneStart c2 then try [c0; c1; c2]
        else match t2 with
        | [] => try [c0; c1; c2]
        | c3 :: t3 =>
          if RuneStart c3 then try [c0; c1; c2; c3]
          else match t3 with
          | [] => try [c0; c1; c2; c3]
          | c4 :: _ => try [c0; c1; c2; c3; c4]
          end
        end
      end
    end
  end.

(** [strings.TrimRightFunc(s, unicode.IsSpace)] on the REVERSED sequence:
    runes are decoded from the back and dropped while they are white
    space. *)
Fixpoint trimRightSpaceRev (r : bytes) : bytes :=
  match r with
  | [] => []
  | c0 :: r1 =>
    match decodeLastRune r with
    | (x, 1) => if isSpaceRune x then trimRightSpaceRev r1 else r
    | (x, 2) =>
      match r1 with
      | _ :: r2 => if isSpaceRune x then trimRightSpaceRev r2 else r
      | [] => r
      end
    | (x, 3) =>
      match r1 with
      | _ :: _ :: r3 => if isSpaceRune x then trimRightSpaceRev r3 else r
      | _ => r
      end
    | _ => r
    end
  end.

(** [strings.TrimSpace]: leading and trailing white space removed. *)
Definition TrimSpace (s : string) : string :=
  str (rev (trimRightSpaceRev (rev (trimLeftSpace (unstr s))))).

(* ================================================================== *)
(** * Worker arguments: [OcrArgs] and [CmdString]                       *)
(* ================================================================== *)

(** The struct [OcrArgs].  A pointer field is [None] when nil; [int32] is
    an integer (no arithmetic is done on it, it is only printed). *)
Record OcrArgs := {
  Cls : option bool;
  EnableMkldnn : option bool;
  LimitSideLen : option Z;
  UseAngleCls : option bool;
  ConfigPath : string
}.

Definition ConfigChinese : string := "models/config_chinese.txt".
Definition ConfigEn : string := "models/config_en.txt".
Definition clipboardImagePath : string := "clipboard".

(** What [reflect] sees of a field: its dynamic type and value. *)
Inductive fieldValue :=
| PtrBool (p : option bool)
| PtrInt32 (p : option Z)
| StringV (s : string).

(** [reflect.Value.IsZero]: a nil pointer, or the empty string. *)
Definition IsZero (v : fieldValue) : bool :=
  match v with
  | PtrBool None | PtrInt32 None => true
  | StringV s => (s =? "")%string
  | _ => false
  end.

(** The fields of [OcrArgs] in declaration order, each with the value of
    its [paddleocr] struct tag. *)
Definition structFields (o : OcrArgs) : list (string * fieldValue) :=
  [ ("cls", PtrBool (Cls o));
    ("enable_mkldnn", PtrBool (EnableMkldnn o));
    ("limit_side_len", PtrInt32 (LimitSideLen o));
    ("use_angle_cls", PtrBool (UseAngleCls o));
    ("config_path", StringV (ConfigPath o)) ].

(** [%v] of an integer: its decimal digits, with [-] when negative. *)
Definition formatInt (z : Z) : string := NilZero.string_of_int (Z.to_int z).

(** One turn of the loop of [CmdString]: [s] is the string built so far. *)
Definition CmdString_field (s : string) (f : string * fieldValue) : string :=
  let (tag, v) := f in
  if IsZero v then s
  else if (tag =? "")%string then s
  else match v with
       | PtrBool (Some true) => s +++ tag +++ "=1 "
       | PtrBool (Some false) => s +++ tag +++ "=0 "
       | PtrInt32 (Some n) => s +++ tag +++ "=" +++ formatInt n +++ " "
       | StringV x => s +++ tag +++ "=" +++ x +++ " "
       | PtrBool None | PtrInt32 None => s
       end.

Definition CmdString (o : OcrArgs) : string :=
  TrimSpace (fold_left CmdString_field (structFields o) "").

(** The claim's words, for comparison with [CmdString]: the non-default
    fields, each as [name=value] with booleans as 1 or 0, in declaration
    order, joined by single spaces. *)
Definition renderBool (name : string) (p : option bool) : list string :=
  match p with
  | Some true => [name +++ "=1"]
  | Some false => [name +++ "=0"]
  | None => []
  end.

Definition renderedFields (o : OcrArgs) : list string :=
  renderBool "cls" (Cls o)
  ++ renderBool "enable_mkldnn" (EnableMkldnn o)
  ++ match LimitSideLen o with
     | Some n => ["limit_side_len=" +++ formatInt n]
     | None => []
     end
  ++ renderBool "use_angle_cls" (UseAngleCls o)
  ++ (if (ConfigPath o =? "")%string then []
      else ["config_path=" +++ ConfigPath o]).

Definition CmdString_spec (o : OcrArgs) : string :=
  String.concat " " (renderedFields o).

(** The first and the last rune of a string are white space. *)
Definition startsInSpace (s : string) : bool :=
  isSpaceRune (fst (decodeRune (unstr s))).

Definition endsInSpace (s : string) : bool :=
  isSpaceRune (fst (decodeLastRune (rev (unstr s)))).

(* ================================================================== *)
(** * The worker's argument list: [strings.Fields]                      *)
(* ================================================================== *)

(** The loop of [strings.FieldsFunc(s, unicode.IsSpace)], to which
    [strings.Fields] comes down (its ASCII fast path finds the same
    fields): runes are decoded from the front, as [range] does, and the
    fields are the longest runs of runes that are not white space.  [cur]
    is the field being read, if any; [skip] counts the bytes of the rune in
    hand still to pass. *)
Fixpoint fieldsLoop (skip : nat) (cur : option bytes) (l : bytes)
  : list bytes :=
  match l with
  | [] => match cur with
          | Some f => [f]
          | None => []
          end
  | c :: t =>
    match skip with
    | S k => fieldsLoop k (option_map (fun f => f ++ [c]) cur) t
    | 0 =>
      match decodeRune l with
      | (r, sz) =>
        if isSpaceRune r then
          match cur with
          | Some f => f :: fieldsLoop (sz - 1) None t
          | None => fieldsLoop (sz - 1) None t
          end
        else
          fieldsLoop (sz - 1)
            (Some (match cur with
                   | Some f => f ++ [c]
                   | None => [c]
                   end)) t
      end
    end
  end.

(** [strings.Fields]. *)
Definition Fields (s : string) : list string :=
  map str (fieldsLoop 0 None (unstr s)).

(** The arguments [initPpocr] gives to [exec.Command]:
    [strings.Fields(args.CmdString())]. *)
Definition workerArgs (a : OcrArgs) : list string := Fields (CmdString a).

(* ================================================================== *)
(** * Errors                                                            *)
(* ================================================================== *)

(** Go [error] values, by origin.  [Errorf] is an error built by
    [fmt.Errorf] with the given text. *)
Inductive error :=
| Errorf (msg : string)
| EOF
| OsError (msg : string)
| JsonSyntaxError (msg : string)
| JsonTypeError (msg : string).

(** The [Error()] text of an error, as [%v] prints it. *)
Definition errorString (e : error) : string :=
  match e with
  | Errorf m => m
  | EOF => "EOF"
  | OsError m => m
  | JsonSyntaxError m => m
  | JsonTypeError m => m
  end.

(* ================================================================== *)
(** * The worker's output pipe                                          *)
(* ================================================================== *)

(** What the worker still has to say on its standard output: the chunks in
    which the pipe will deliver it, and what a read finds after the last
    chunk: an error ([EOF] when the worker closed its output), or nothing,
    ever ([None]: the read never returns). *)
Record stream := { chunks : list bytes; ending : option error }.

Inductive readResult :=
| ReadOk (data : bytes) (rest : stream)
| ReadErr (e : error)
| ReadBlock.

(** [Read(p)] on the pipe with [cap = len(p)]: at most [cap] bytes of the
    next chunk (a short read when the chunk is shorter), the remainder of a
    longer chunk stays in the pipe; a read into an empty slice returns 0
    bytes and no error. *)
Definition Read (cap : nat) (s : stream) : readResult :=
  match cap with
  | 0 => ReadOk [] s
  | _ =>
    match chunks s with
    | [] => match ending s with
            | Some e => ReadErr e
            | None => ReadBlock
            end
    | c :: rest =>
      if length c <=? cap
      then ReadOk c {| chunks := rest; ending := ending s |}
      else ReadOk (take cap c) {| chunks := drop cap c :: rest; ending := ending s |}
    end
  end.

(** All the bytes still to come. *)
Definition flat (s : stream) : bytes := concat (chunks s).

Definition streamSize (s : stream) : nat := length (flat s) + length (chunks s).

(** [copy(buf[start:], data)]: [data] written into [buf] from offset
    [start]; the bytes before [start] and after the data stay. *)
Definition writeAt (buf : bytes) (start : nat) (data : bytes) : bytes :=
  take start buf ++ data ++ drop (start + length data) buf.

Definition zeroByte : ascii := n2b 0.
Definition newline : ascii := n2b 10.

(** [make([]byte, n)]. *)
Definition makeBytes (n : nat) : bytes := replicate n zeroByte.

Fixpoint hasPrefix (l pre : bytes) : bool :=
  match pre, l with
  | [], _ => true
  | p :: pre', c :: l' => Ascii.eqb p c && hasPrefix l' pre'
  | _ :: _, [] => false
  end.

(** [bytes.Contains]. *)
Fixpoint Contains (l sub : bytes) : bool :=
  hasPrefix l sub ||
  match l with
  | [] => false
  | _ :: l' => Contains l' sub
  end.

(* ================================================================== *)
(** * The two read loops                                                *)
(* ================================================================== *)

Definition initMarker : bytes := unstr "OCR init completed.".
Definition initBufSize : nat := Z.to_nat 4096.
Definition recvBufSize : nat := Z.to_nat 10240.

(** A value together with the equation that it is what was inspected, for
    the termination proofs of the loops. *)
Definition inspect {A : Type} (x : A) : {y : A | x = y} := exist _ x eq_refl.

(** How the handshake loop of [initPpocr] ends. *)
Inductive handshakeResult :=
| HsReady (seen : bytes) (rest : stream)
| HsReadErr (e : error) (seen : bytes) (rest : stream)
| HsTooLong (rest : stream)
| HsBlock
| HsPanic.

Lemma length_writeAt buf start data :
  start + length data <= length buf ->
  length (writeAt buf start data) = length buf.
Proof.
  intros H. unfold writeAt.
  rewrite !length_app, length_take, length_drop. lia.
Qed.

Lemma recvBufSize_pos : 0 < recvBufSize.
Proof. unfold recvBufSize. lia. Qed.

Lemma Read_progress cap s data s' :
  cap <> 0 -> Read cap s = ReadOk data s' -> streamSize s' < streamSize s.
Proof.
  unfold Read, streamSize, flat. destruct cap as [|cap]; [congruence|]. intros _.
  destruct s as [[|c rest] e]; simpl.
  - destruct e; discriminate.
  - destruct (length c <=? S cap) eqn:E; intros [= <- <-]; simpl.
    + rewrite length_app. lia.
    + apply Nat.leb_gt in E. rewrite !length_app, length_drop. lia.
Qed.

(** The loop of [initPpocr]:
    [for { n, err := rc.Read(buf[start:]); if err != nil {fail};
           start += n; if start >= len(buf) {fail: too long};
           if bytes.Contains(buf[:start], marker) {break} }]. *)
Equations? handshakeLoop (buf : bytes) (start : nat) (s : stream)
  : handshakeResult by wf (streamSize s) lt :=
  handshakeLoop buf start s with inspect (length buf <? start) := {
    | exist _ (true) Hq1 => HsPanic
    | exist _ (false) Hs with inspect (Read (length buf - start) s) := {
      | exist _ (ReadErr e) Hq2 => HsReadErr e (take start buf) s
      | exist _ (ReadBlock) Hq3 => HsBlock
      | exist _ (ReadOk data s') Hr with inspect (length buf <=? start + length data) := {
        | exist _ (true) Hq4 => HsTooLong s'
        | exist _ (false) Hl =>
          if Contains (take (start + length data) (writeAt buf start data)) initMarker
          then HsReady (take (start + length data) (writeAt buf start data)) s'
          else handshakeLoop (writeAt buf start data) (start + length data) s' } } }.
Proof.
  apply Nat.leb_gt in Hl. apply Nat.ltb_ge in Hs.
  eapply Read_progress; [|exact Hr]. lia.
Qed.

(** How the receive loop of [ocr] ends. *)
Inductive recvResult :=
| RecvOk (line : bytes) (rest : stream)
| RecvErr (e : error) (rest : stream)
| RecvBlock
| RecvPanic.

(** The loop of [ocr]:
    [for { n, err := Read(content[start:]); if err != nil {fail};
           start += n;
           if start >= len(content) {content = append(content, make(10240)...)};
           if content[start-1] == '\n' {break} }; return content[:start]]. *)
Equations? recvLoop (content : bytes) (start : nat) (s : stream)
  : recvResult
  by wf (2 * streamSize s + (if length content <=? start then 1 else 0)) lt :=
  recvLoop content start s with inspect (length content <? start) := {
    | exist _ (true) Hq5 => RecvPanic
    | exist _ (false) Hs with inspect (Read (length content - start) s) := {
      | exist _ (ReadErr e) Hq6 => RecvErr e s
      | exist _ (ReadBlock) Hq7 => RecvBlock
      | exist _ (ReadOk data s') Hr with
          inspect (if length content <=? start + length data
                   then writeAt content start data ++ makeBytes recvBufSize
                   else writeAt content start data) := {
        | exist _ content' Hc with inspect (start + length data) := {
          | exist _ (0) Hq8 => RecvPanic
          | exist _ (S i) Hi with inspect (content' !! i) := {
            | exist _ (None) Hq9 => RecvPanic
            | exist _ (Some c) Hq10 =>
              if Ascii.eqb c newline
              then RecvOk (take (S i) content') s'
              else recvLoop content' (S i) s' } } } } }.
Proof.
  apply Nat.ltb_ge in Hs. pose proof recvBufSize_pos as Hpos.
  destruct (Nat.eq_dec (length content - start) 0) as [Hz|Hz].
  - rewrite Hz in Hr. simpl in Hr. injection Hr as <- <-.
    assert (start = length content) by lia. subst start.
    simpl length. rewrite !Nat.add_0_r, !Nat.leb_refl.
    rewrite length_app, length_writeAt by (simpl; lia).
    unfold makeBytes. rewrite length_replicate.
    destruct (length content + recvBufSize <=? length content) eqn:E;
      [apply Nat.leb_le in E|]; lia.
  - pose proof (Read_progress _ _ _ _ Hz Hr).
    match goal with
    | |- _ + (if ?b then 1 else 0) < _ + (if ?c then 1 else 0) =>
      destruct b, c; lia
    end.
Qed.

(** The handshake of [initPpocr] on a fresh 4096-byte buffer, and the
    receive loop of [ocr] on a fresh 10240-byte buffer. *)
Definition handshake (s : stream) : handshakeResult :=
  handshakeLoop (makeBytes initBufSize) 0 s.

Definition receive (s : stream) : recvResult :=
  recvLoop (makeBytes recvBufSize) 0 s.

(* ================================================================== *)
(** * Requests: [imageData] and its JSON encoding                       *)
(* ================================================================== *)

Definition hexDigit (n : N) : ascii :=
  nth (N.to_nat n) (unstr "0123456789abcdef") "0"%char.

Definition dquote : ascii := n2b 34.
Definition backslash : ascii := n2b 92.

(** [htmlSafeSet] of encoding/json: the ASCII bytes written as they are. *)
Definition htmlSafe (c : ascii) : bool :=
  let b := b2n c in
  ((32 <=? b) && (b <? 128))%N
  && negb (existsb (N.eqb b) [34; 92; 60; 62; 38]%N).

(** The escape of an ASCII byte that is not [htmlSafe]. *)
Definition escapeByte (c : ascii) : bytes :=
  let b := b2n c in
  if (b =? 92)%N || (b =? 34)%N then [backslash; c]
  else if (b =? 8)%N then [backslash; "b"%char]
  else if (b =? 12)%N then [backslash; "f"%char]
  else if (b =? 10)%N then [backslash; "n"%char]
  else if (b =? 13)%N then [backslash; "r"%char]
  else if (b =? 9)%N then [backslash; "t"%char]
  else [backslash; "u"%char; "0"%char; "0"%char;
        hexDigit (b / 16); hexDigit (b mod 16)].

(** The body of [appendString] of encoding/json (HTML escaping on), the
    quotes apart.  [copy] and [skip] count the bytes of the rune in hand
    still to be copied, or passed over. *)
Fixpoint encodeStringBody (copy skip : nat) (l : bytes) : bytes :=
  match l with
  | [] => []
  | c :: t =>
    match copy, skip with
    | S k, _ => c :: encodeStringBody k skip t
    | 0, S k => encodeStringBody 0 k t
    | 0, 0 =>
      if (b2n c <? 128)%N then
        (if htmlSafe c then [c] else escapeByte c) ++ encodeStringBody 0 0 t
      else
        match decodeRune l with
        | (r, sz) =>
          if (r =? RuneError)%N && Nat.eqb sz 1 then
            backslash :: unstr "ufffd" ++ encodeStringBody 0 0 t
          else if (r =? 8232)%N || (r =? 8233)%N then
            backslash :: unstr "u202" ++ [hexDigit (r mod 16)]
            ++ encodeStringBody 0 (sz - 1) t
          else c :: encodeStringBody (sz - 1) 0 t
        end
    end
  end.

(** A Go string as a JSON string. *)
Definition encodeString (s : string) : bytes :=
  [dquote] ++ encodeStringBody 0 0 (unstr s) ++ [dquote].

(** [base64.StdEncoding]: the alphabet, and the encoding with padding. *)
Definition b64Alphabet : bytes :=
  unstr "ABCDEFGHIJKLMNOPQRSTUVWXYZabcdefghijklmnopqrstuvwxyz0123456789+/".

Definition b64Char (n : N) : ascii := nth (N.to_nat n) b64Alphabet "A"%char.

Fixpoint base64 (l : bytes) : bytes :=
  match l with
  | [] => []
  | [a] =>
    let x := b2n a in
    [b64Char (x / 4); b64Char ((x mod 4) * 16); "="%char; "="%char]
  | [a; b] =>
    let x := b2n a in let y := b2n b in
    [b64Char (x / 4); b64Char ((x mod 4) * 16 + y / 16);
     b64Char ((y mod 16) * 4); "="%char]
  | a :: b :: c :: t =>
    let x := b2n a in let y := b2n b in let z := b2n c in
    [b64Char (x / 4); b64Char ((x mod 4) * 16 + y / 16);
     b64Char ((y mod 16) * 4 + z / 64); b64Char (z mod 64)] ++ base64 t
  end.

(** The struct [imageData]; both fields are tagged [omitempty]. *)
Record imageData := { Path : string; ContentB64 : bytes }.

Definition joinBytes (sep : bytes) (l : list bytes) : bytes :=
  match l with
  | [] => []
  | x :: t => x ++ concat (map (fun y => sep ++ y) t)
  end.

(** The members [json.Marshal] writes for an [imageData], in field
    order: an empty string and an empty slice are left out. *)
Definition imageDataMembers (d : imageData) : list bytes :=
  (if (Path d =? "")%string then []
   else [encodeString "image_path" ++ unstr ":" ++ encodeString (Path d)])
  ++ (match ContentB64 d with
      | [] => []
      | _ => [encodeString "image_base64" ++ unstr ":"
              ++ [dquote] ++ base64 (ContentB64 d) ++ [dquote]]
      end).

(** [json.Marshal] of an [imageData]; it has no error case. *)
Definition marshalImageData (d : imageData) : bytes :=
  unstr "{" ++ joinBytes (unstr ",") (imageDataMembers d) ++ unstr "}".

(* ================================================================== *)
(** * The file system, as [fileIsExist] sees it                         *)
(* ================================================================== *)

(** The errors [os.Stat] can report, as far as [os.IsExist] tells them
    apart: [ENOENT] is "the path does not exist". *)
Inductive errno := ENOENT | EACCES | ENOTDIR | EEXIST | ENOTEMPTY | EIO.

Inductive statResult :=
| StatOk (isDir : bool)
| StatErr (e : errno).

(** [os.IsExist]: the error says that a file already exists. *)
Definition IsExist (e : errno) : bool :=
  match e with
  | EEXIST | ENOTEMPTY => true
  | _ => false
  end.

(** [fileIsExist], on a file system given by its [os.Stat]. *)
Definition fileIsExist (stat : string -> statResult) (path : string) : bool :=
  match stat path with
  | StatErr err => IsExist err
  | StatOk isDir => if isDir then false else true
  end.

(* ================================================================== *)
(** * The supervisor [Ppocr]                                            *)
(* ================================================================== *)

(** What the supervisor does to the worker's process and input pipe. *)
Inductive event :=
| EvSpawn (exe : string) (cmdline : string)
| EvWrite (data : bytes)
| EvCloseStdin
| EvKill.

(** [p.cmd]: nil; created by [exec.Command] but not started ([Process] is
    nil); started and running (the waiter goroutine sits in [Wait]);
    waited for ([ProcessState] is set, [normal] is its [Exited()]). *)
Inductive cmdState :=
| CmdNil
| CmdNew
| CmdRunning
| CmdDone (normal : bool).

Inductive pipeState := PipeNil | PipeOpen | PipeClosed.

(** How a process ended: [Exited()] of its state, and what [Wait]
    returned. *)
Record exitStatus := { exitedNormally : bool; waitErr : option error }.

(** What the outside world decides about one launch of the worker: whether
    the pipes and [Start] fail, everything the worker will write to its
    standard output and error, whether it ends while the handshake is being
    read (the waiter goroutine has then seen it by the time the loop is
    over), and what [Wait] returns once it is killed. *)
Record Launch := {
  stdinPipeErr : option error;
  stdoutPipeErr : option error;
  startErr : option error;
  output : stream;
  stderrText : string;
  exitInInit : option exitStatus;
  killedWaitErr : option error
}.

(** The struct [Ppocr].  [ppLock] tells whether the mutex is held: calls
    are taken one at a time, so that it is held between two of them only
    by a call that never returned.  [restartExitChanClosed] is the
    state of the channel [restartExitChan]; [exitSignal] holds while the
    waiter goroutine has finished and stands ready to send on
    [runGoroutineExitedChan]; [killWait] is what [Wait] returns when the
    running process is killed; [timerStarted] whether [restartTimer]
    was launched; [log] is the history of [event]s. *)
Record Ppocr := {
  exePath : string;
  args : OcrArgs;
  ppLock : bool;
  restartExitChanClosed : bool;
  internalErr : option error;
  cmdStdout : option stream;
  cmdStdin : pipeState;
  cmd : cmdState;
  exitSignal : bool;
  killWait : option error;
  timerStarted : bool;
  log : list event
}.

Definition setPpLock (b : bool) (p : Ppocr) : Ppocr :=
  {| exePath := exePath p; args := args p; ppLock := b;
     restartExitChanClosed := restartExitChanClosed p;
     internalErr := internalErr p;
     cmdStdout := cmdStdout p; cmdStdin := cmdStdin p; cmd := cmd p;
     exitSignal := exitSignal p; killWait := killWait p;
     timerStarted := timerStarted p; log := log p |}.

Definition setInternalErr (e : option error) (p : Ppocr) : Ppocr :=
  {| exePath := exePath p; args := args p; ppLock := ppLock p;
     restartExitChanClosed := restartExitChanClosed p;
     internalErr := e;
     cmdStdout := cmdStdout p; cmdStdin := cmdStdin p; cmd := cmd p;
     exitSignal := exitSignal p; killWait := killWait p;
     timerStarted := timerStarted p; log := log p |}.

Definition setRestartExitChanClosed (b : bool) (p : Ppocr) : Ppocr :=
  {| exePath := exePath p; args := args p; ppLock := ppLock p;
     restartExitChanClosed := b;
     internalErr := internalErr p;
     cmdStdout := cmdStdout p; cmdStdin := cmdStdin p; cmd := cmd p;
     exitSignal := exitSignal p; killWait := killWait p;
     timerStarted := timerStarted p; log := log p |}.

Definition setCmdStdout (s : option stream) (p : Ppocr) : Ppocr :=
  {| exePath := exePath p; args := args p; ppLock := ppLock p;
     restartExitChanClosed := restartExitChanClosed p;
     internalErr := internalErr p;
     cmdStdout := s; cmdStdin := cmdStdin p; cmd := cmd p;
     exitSignal := exitSignal p; killWait := killWait p;
     timerStarted := timerStarted p; log := log p |}.

Definition setCmdStdin (s : pipeState) (p : Ppocr) : Ppocr :=
  {| exePath := exePath p; args := args p; ppLock := ppLock p;
     restartExitChanClosed := restartExitChanClosed p;
     internalErr := internalErr p;
     cmdStdout := cmdStdout p; cmdStdin := s; cmd := cmd p;
     exitSignal := exitSignal p; killWait := killWait p;
     timerStarted := timerStarted p; log := log p |}.

Definition setCmd (c : cmdState) (p : Ppocr) : Ppocr :=
  {| exePath := exePath p; args := args p; ppLock := ppLock p;
     restartExitChanClosed := restartExitChanClosed p;
     internalErr := internalErr p;
     cmdStdout := cmdStdout p; cmdStdin := cmdStdin p; cmd := c;
     exitSignal := exitSignal p; killWait := killWait p;
     timerStarted := timerStarted p; log := log p |}.

Definition setExitSignal (b : bool) (p : Ppocr) : Ppocr :=
  {| exePath := exePath p; args := args p; ppLock := ppLock p;
     restartExitChanClosed := restartExitChanClosed p;
     internalErr := internalErr p;
     cmdStdout := cmdStdout p; cmdStdin := cmdStdin p; cmd := cmd p;
     exitSignal := b; killWait := killWait p;
     timerStarted := timerStarted p; log := log p |}.

Definition setKillWait (e : option error) (p : Ppocr) : Ppocr :=
  {| exePath := exePath p; args := args p; ppLock := ppLock p;
     restartExitChanClosed := restartExitChanClosed p;
     internalErr := internalErr p;
     cmdStdout := cmdStdout p; cmdStdin := cmdStdin p; cmd := cmd p;
     exitSignal := exitSignal p; killWait := e;
     timerStarted := timerStarted p; log := log p |}.

Definition setTimerStarted (b : bool) (p : Ppocr) : Ppocr :=
  {| exePath := exePath p; args := args p; ppLock := ppLock p;
     restartExitChanClosed := restartExitChanClosed p;
     internalErr := internalErr p;
     cmdStdout := cmdStdout p; cmdStdin := cmdStdin p; cmd := cmd p;
     exitSignal := exitSignal p; killWait := killWait p;
     timerStarted := b; log := log p |}.

Definition logEvent (ev : event) (p : Ppocr) : Ppocr :=
  {| exePath := exePath p; args := args p; ppLock := ppLock p;
     restartExitChanClosed := restartExitChanClosed p;
     internalErr := internalErr p;
     cmdStdout := cmdStdout p; cmdStdin := cmdStdin p; cmd := cmd p;
     exitSignal := exitSignal p; killWait := killWait p;
     timerStarted := timerStarted p; log := log p ++ [ev] |}.

(** How a call on the supervisor ends: it returns [a] and leaves the
    supervisor in state [p]; it never returns ([Block]: the goroutine
    waits for ever, in state [p]); it panics. *)
Inductive outcome (A : Type) :=
| Ret (a : A) (p : Ppocr)
| Block (p : Ppocr)
| Panic (msg : string) (p : Ppocr).
Arguments Ret {A} a p.
Arguments Block {A} p.
Arguments Panic {A} msg p.

Definition M (A : Type) : Type := Ppocr -> outcome A.

Definition ret {A} (a : A) : M A := fun p => Ret a p.

Definition bind {A B} (m : M A) (k : A -> M B) : M B :=
  fun p => match m p with
           | Ret a p' => k a p'
           | Block p' => Block p'
           | Panic msg p' => Panic msg p'
           end.

Definition modify (f : Ppocr -> Ppocr) : M unit := fun p => Ret tt (f p).
Definition get {A} (f : Ppocr -> A) : M A := fun p => Ret (f p) p.
Definition block {A} : M A := fun p => Block p.
Definition panic {A} (msg : string) : M A := fun p => Panic msg p.

Notation "x <- m ;; k" := (bind m (fun x => k))
  (at level 100, m at next level, right associativity).
Notation "m ;;; k" := (bind m (fun _ => k))
  (at level 100, right associativity).

(** [p.ppLock.Lock()]: a call that finds the mutex held waits for the call
    that holds it, which never returned. *)
Definition Lock : M unit := fun p =>
  if ppLock p then Block p else Ret tt (setPpLock true p).

Definition Unlock : M unit := modify (setPpLock false).

(** [p.ppLock.Lock(); defer p.ppLock.Unlock()] around [m]: the mutex is
    released when [m] returns or panics, and stays held when [m] never
    returns. *)
Definition withLock {A} (m : M A) : M A :=
  Lock ;;;
  fun p => match m p with
           | Ret a p' => Ret a (setPpLock false p')
           | Block p' => Block p'
           | Panic msg p' => Panic msg (setPpLock false p')
           end.

Definition errClosed : error := Errorf "OCR process has been closed".
Definition errFileClosed : error := OsError "file already closed".
Definition errBrokenPipe : error := OsError "broken pipe".
Definition nilDeref : string :=
  "runtime error: invalid memory address or nil pointer dereference".

(** The standard output of a process that has been waited for: [Wait]
    closed the pipe. *)
Definition closedStream : stream := {| chunks := []; ending := Some errFileClosed |}.

(** The waiter goroutine after [Wait] has returned [st]: [Wait] has closed
    the two pipes; the goroutine records the error, if any, and stands
    ready to signal. *)
Definition waiterSees (st : exitStatus) (p : Ppocr) : Ppocr :=
  let p := setCmd (CmdDone (exitedNormally st)) p in
  let p := setCmdStdin PipeClosed (setCmdStdout (Some closedStream) p) in
  let p := setExitSignal true p in
  match waitErr st with
  | Some e => setInternalErr (Some e) p
  | None => p
  end.

(** The handshake has read up to [rest] of the worker's output: that is
    what is left in the pipe, unless [Wait] has closed it. *)
Definition leaveStdout (rest : stream) (p : Ppocr) : Ppocr :=
  match cmd p with
  | CmdDone _ => p
  | _ => setCmdStdout (Some rest) p
  end.

(** [&Ppocr{exePath: ..., args: ..., ppLock: ..., restartExitChan: ...,
    runGoroutineExitedChan: ...}]: every other field is zero. *)
Definition newPpocrStruct (exe : string) (a : OcrArgs) : Ppocr :=
  {| exePath := exe; args := a; ppLock := false;
     restartExitChanClosed := false; internalErr := None;
     cmdStdout := None; cmdStdin := PipeNil; cmd := CmdNil;
     exitSignal := false; killWait := None;
     timerStarted := false; log := [] |}.

(** [initPpocr], called with the lock held.  The first statement of the
    waiter goroutine, [p.internalErr = nil], is taken to run as soon as the
    goroutine is started; when the launch says that the process ends
    during the handshake, the waiter has recorded it when the loop is
    over. *)
Definition initPpocr (l : Launch) (exe : string) (a : OcrArgs)
  : M (option error) :=
  modify (setCmd CmdNew) ;;;
  match stdinPipeErr l with
  | Some e => ret (Some e)
  | None =>
    match stdoutPipeErr l with
    | Some e => ret (Some e)
    | None =>
      modify (fun p => setCmdStdout (Some (output l)) (setCmdStdin PipeOpen p)) ;;;
      match startErr l with
      | Some e =>
        ret (Some (Errorf ("OCR process start failed: " +++ errorString e)))
      | None =>
        modify (fun p =>
          setInternalErr None
            (setKillWait (killedWaitErr l)
               (setCmd CmdRunning (logEvent (EvSpawn exe (CmdString a)) p)))) ;;;
        match exitInInit l with
        | Some st => modify (waiterSees st)
        | None => ret tt
        end ;;;
        match handshake (output l) with
        | HsPanic => panic "slice bounds out of range"
        | HsBlock => block
        | HsReadErr e seen rest =>
          modify (leaveStdout rest) ;;;
          ie <- get internalErr ;;
          match ie with
          | Some r =>
            ret (Some (Errorf ("OCR init failed: " +++ errorString e
                               +++ ",run error: " +++ errorString r)))
          | None =>
            ret (Some (Errorf ("OCR init failed, error: " +++ errorString e
                               +++ ", output: " +++ str seen +++ " "
                               +++ stderrText l)))
          end
        | HsTooLong rest =>
          modify (leaveStdout rest) ;;;
          ret (Some (Errorf "OCR init failed: output too long"))
        | HsReady seen rest =>
          modify (leaveStdout rest) ;;;
          get internalErr
        end
      end
    end
  end.

(** [p.cmdStdin.Close()] inside [close]: an open pipe is closed; closing a
    closed one only prints an error. *)
Definition closeStdin (p : Ppocr) : Ppocr :=
  match cmdStdin p with
  | PipeOpen => logEvent EvCloseStdin (setCmdStdin PipeClosed p)
  | _ => p
  end.

(** [close], called with the lock held.  When the waiter stands ready to
    signal, the signal is taken and nothing else is done.  Otherwise the
    deferred function receives from [runGoroutineExitedChan] whatever the
    body did: with a running process the body closes the input pipe and
    kills it, the waiter records what [Wait] returned and signals; in any
    other state no goroutine is left to send, and the call never
    returns. *)
Definition close : M (option error) := fun p =>
  if exitSignal p then Ret None (setExitSignal false p)
  else
    match cmd p with
    | CmdNil => Block p
    | CmdDone true => Block p
    | CmdDone false => Block (closeStdin p)
    | CmdNew => Block (closeStdin p)
    | CmdRunning =>
      match cmdStdin p with
      | PipeNil => Block p
      | _ =>
        let p := logEvent EvKill (closeStdin p) in
        let p := waiterSees {| exitedNormally := false; waitErr := killWait p |} p in
        Ret None (setExitSignal false p)
      end
    end.

(** [Close]. *)
Definition Close : M (option error) :=
  withLock
    (closed <- get restartExitChanClosed ;;
     if closed : bool then ret (Some errClosed)
     else
       modify (setRestartExitChanClosed true) ;;;
       modify (setInternalErr (Some errClosed)) ;;;
       close).

(** One firing of the ticker in [restartTimer]:
    [p.ppLock.Lock(); _ = p.close();
     p.internalErr = p.initPpocr(p.exePath, p.args); p.ppLock.Unlock()].
    The value returned is the error of the [initPpocr]. *)
Definition restartTick (l : Launch) : M (option error) :=
  Lock ;;;
  _ <- close ;;
  exe <- get exePath ;;
  a <- get args ;;
  e <- initPpocr l exe a ;;
  modify (setInternalErr e) ;;;
  Unlock ;;;
  ret e.

(** [NewPpocr], on a file system [stat] and with the world's choices [l]
    for the launch.  The boolean returned tells whether the pointer
    returned is non-nil; when it is nil no struct was made, and the state
    given is the untouched zero struct. *)
Definition NewPpocr (stat : string -> statResult) (l : Launch)
    (exe : string) (a : OcrArgs) : outcome (bool * option error) :=
  if negb (fileIsExist stat exe)
  then Ret (false, Some (Errorf ("executable file " +++ exe +++ " not found")))
           (newPpocrStruct exe a)
  else
    withLock
      (err <- initPpocr l exe a ;;
       match err with
       | None => modify (setTimerStarted true)
       | Some _ => (_ <- close ;; ret tt)
       end ;;;
       ret (true, err)) (newPpocrStruct exe a).

(** [p.cmdStdin.Write(data)]: the bytes reach a running worker through an
    open pipe. *)
Definition writeStdin (data : bytes) : M (option error) := fun p =>
  match cmdStdin p with
  | PipeNil => Panic nilDeref p
  | PipeClosed => Ret (Some errFileClosed) p
  | PipeOpen =>
    match cmd p with
    | CmdRunning => Ret None (logEvent (EvWrite data) p)
    | _ => Ret (Some errBrokenPipe) p
    end
  end.

(** [ocr]: the request, a newline, then the receive loop. *)
Definition ocr (dataJson : bytes) : M (option bytes * option error) :=
  err <- writeStdin dataJson ;;
  match err with
  | Some e => ret (None, Some e)
  | None =>
    err <- writeStdin [newline] ;;
    match err with
    | Some e => ret (None, Some e)
    | None =>
      fun p =>
        match cmdStdout p with
        | None => Panic nilDeref p
        | Some s =>
          match receive s with
          | RecvOk line rest => Ret (Some line, None) (setCmdStdout (Some rest) p)
          | RecvErr e rest => Ret (None, Some e) (setCmdStdout (Some rest) p)
          | RecvBlock => Block p
          | RecvPanic => Panic "runtime error: index out of range [-1]" p
          end
        end
    end
  end.

(** [OcrFile]: the sticky error is looked at with the lock held. *)
Definition OcrFile (imagePath : string) : M (option bytes * option error) :=
  let dataJson := marshalImageData {| Path := imagePath; ContentB64 := [] |} in
  withLock
    (ie <- get internalErr ;;
     match ie with
     | Some e => ret (None, Some e)
     | None => ocr dataJson
     end).

(** [Ocr]: the sticky error is looked at before the request is encoded
    and before the lock is taken. *)
Definition Ocr (image : bytes) : M (option bytes * option error) :=
  ie <- get internalErr ;;
  match ie with
  | Some e => ret (None, Some e)
  | None =>
    withLock (ocr (marshalImageData {| Path := ""; ContentB64 := image |}))
  end.

Definition OcrClipboard : M (option bytes * option error) :=
  OcrFile clipboardImagePath.

(** The worker ends by itself: the waiter goroutine sees it. *)
Definition workerExit (st : exitStatus) : M unit := fun p =>
  match cmd p with
  | CmdRunning => Ret tt (waiterSees st p)
  | _ => Ret tt p
  end.

(** What can happen to a supervisor, one at a time. *)
Inductive op :=
| OpClose
| OpOcrFile (imagePath : string)
| OpOcr (image : bytes)
| OpRestart (l : Launch)
| OpWorkerExit (st : exitStatus).

Definition forget {A} (m : M A) : M unit := _ <- m ;; ret tt.

Definition runOp (o : op) : M unit :=
  match o with
  | OpClose => forget Close
  | OpOcrFile path => forget (OcrFile path)
  | OpOcr image => forget (Ocr image)
  | OpRestart l => forget (restartTick l)
  | OpWorkerExit st => workerExit st
  end.

(** The state an outcome leaves, and the log in it. *)
Definition stateOf {A} (o : outcome A) : Ppocr :=
  match o with
  | Ret _ p => p
  | Block p => p
  | Panic _ p => p
  end.

(* ================================================================== *)
(** * encoding/json: reading a JSON text                                *)
(* ================================================================== *)

(** A JSON text as its tree: number literals are kept as written, strings
    are unquoted, the members of an object stay in the order of the text,
    repeated keys included. *)
Inductive json :=
| JNull
| JBool (b : bool)
| JNumber (lit : bytes)
| JString (s : string)
| JArray (elems : list json)
| JObject (members : list (string * json)).

Inductive token :=
| TLBrace | TRBrace | TLBrack | TRBrack | TColon | TComma
| TString (raw : bytes)
| TNumber (lit : bytes)
| TTrue | TFalse | TNull.

Definition isChar (c : ascii) (s : string) : bool := existsb (Ascii.eqb c) (unstr s).

Definition isDigit (c : ascii) : bool := ((48 <=? b2n c) && (b2n c <=? 57))%N.

Definition hexVal (c : ascii) : option N :=
  let b := b2n c in
  if ((48 <=? b) && (b <=? 57))%N then Some (b - 48)%N
  else if ((97 <=? b) && (b <=? 102))%N then Some (b - 87)%N
  else if ((65 <=? b) && (b <=? 70))%N then Some (b - 55)%N
  else None.

(** The scanner inside a string: plain, after a backslash, or with [k] hex
    digits of a [\u] escape to come. *)
Inductive strState := SNormal | SEsc | SHex (k : nat).

(** The length of the body of a string whose opening quote was just read
    (the index of its closing quote); [None] when the string is not
    closed, has a control character or a bad escape. *)
Fixpoint scanString (st : strState) (l : bytes) : option nat :=
  match l with
  | [] => None
  | c :: t =>
    match st with
    | SNormal =>
      if Ascii.eqb c dquote then Some 0
      else if Ascii.eqb c backslash then option_map S (scanString SEsc t)
      else if (b2n c <? 32)%N then None
      else option_map S (scanString SNormal t)
    | SEsc =>
      if Ascii.eqb c dquote || Ascii.eqb c backslash || isChar c "/bfnrt"
      then option_map S (scanString SNormal t)
      else if Ascii.eqb c "u" then option_map S (scanString (SHex 4) t)
      else None
    | SHex k =>
      match hexVal c with
      | None => None
      | Some _ =>
        option_map S (scanString (match k with
                                  | 0 | 1 => SNormal
                                  | S k' => SHex k'
                                  end) t)
      end
    end
  end.

(** The scanner inside a number. *)
Inductive numState :=
| NStart | NNeg | NZero | NInt | NDot | NFrac | NE | NESign | NExp.

Definition numAccepting (st : numState) : bool :=
  match st with
  | NZero | NInt | NFrac | NExp => true
  | _ => false
  end.

Definition numStep (st : numState) (c : ascii) : option numState :=
  let exp := isChar c "eE" in
  match st with
  | NStart =>
    if Ascii.eqb c "-" then Some NNeg
    else if Ascii.eqb c "0" then Some NZero
    else if isDigit c then Some NInt else None
  | NNeg =>
    if Ascii.eqb c "0" then Some NZero
    else if isDigit c then Some NInt else None
  | NZero =>
    if Ascii.eqb c "." then Some NDot else if exp then Some NE else None
  | NInt =>
    if isDigit c then Some NInt
    else if Ascii.eqb c "." then Some NDot else if exp then Some NE else None
  | NDot => if isDigit c then Some NFrac else None
  | NFrac => if isDigit c then Some NFrac else if exp then Some NE else None
  | NE => if isChar c "+-" then Some NESign else if isDigit c then Some NExp else None
  | NESign => if isDigit c then Some NExp else None
  | NExp => if isDigit c then Some NExp else None
  end.

(** The length of the longest number literal at the head of [l]; [None]
    when the text stops being a number before it is one. *)
Fixpoint scanNumber (st : numState) (l : bytes) : option nat :=
  match l with
  | [] => if numAccepting st then Some 0 else None
  | c :: t =>
    match numStep st c with
    | Some st' => option_map S (scanNumber st' t)
    | None => if numAccepting st then Some 0 else None
    end
  end.

Definition isJsonSpace (c : ascii) : bool :=
  existsb (N.eqb (b2n c)) [32; 9; 13; 10]%N.

(** The tokens of a text; [skip] counts the bytes still to pass over of the
    token just read. *)
Fixpoint tokenize (skip : nat) (l : bytes) : option (list token) :=
  match l with
  | [] => Some []
  | c :: t =>
    match skip with
    | S k => tokenize k t
    | 0 =>
      let one (tk : token) (k : nat) := option_map (cons tk) (tokenize k t) in
      if isJsonSpace c then tokenize 0 t
      else if Ascii.eqb c "{" then one TLBrace 0
      else if Ascii.eqb c "}" then one TRBrace 0
      else if Ascii.eqb c "[" then one TLBrack 0
      else if Ascii.eqb c "]" then one TRBrack 0
      else if Ascii.eqb c ":" then one TColon 0
      else if Ascii.eqb c "," then one TComma 0
      else if Ascii.eqb c dquote then
        match scanString SNormal t with
        | Some n => one (TString (take n t)) (S n)
        | None => None
        end
      else if Ascii.eqb c "-" || isDigit c then
        match scanNumber NStart l with
        | Some (S n) => one (TNumber (take (S n) l)) n
        | _ => None
        end
      else if hasPrefix l (unstr "true") then one TTrue 3
      else if hasPrefix l (unstr "false") then one TFalse 4
      else if hasPrefix l (unstr "null") then one TNull 3
      else None
    end
  end.

(** The four hex digits of a [\uXXXX] at the head of [l], as [getu4]. *)
Definition getu4 (l : bytes) : option N :=
  match l with
  | b :: u :: h1 :: h2 :: h3 :: h4 :: _ =>
    if Ascii.eqb b backslash && Ascii.eqb u "u" then
      match hexVal h1, hexVal h2, hexVal h3, hexVal h4 with
      | Some a, Some b, Some c, Some d => Some (a * 4096 + b * 256 + c * 16 + d)%N
      | _, _, _, _ => None
      end
    else None
  | _ => None
  end.

Definition isSurrogate (r : N) : bool := ((55296 <=? r) && (r <? 57344))%N.

(** [utf16.DecodeRune]; the second half may be missing. *)
Definition utf16Decode (r1 : N) (r2 : option N) : N :=
  match r2 with
  | Some r2 =>
    if ((55296 <=? r1) && (r1 <? 56320) && (56320 <=? r2) && (r2 <? 57344))%N
    then ((r1 - 55296) * 1024 + (r2 - 56320) + 65536)%N
    else RuneError
  | None => RuneError
  end.

Definition escapeValue (c : ascii) : ascii :=
  if Ascii.eqb c "b" then n2b 8
  else if Ascii.eqb c "f" then n2b 12
  else if Ascii.eqb c "n" then n2b 10
  else if Ascii.eqb c "r" then n2b 13
  else if Ascii.eqb c "t" then n2b 9
  else c.

(** [unquote] of encoding/json on the body of a scanned string: escapes
    are resolved, a surrogate pair becomes one rune, a lone surrogate and
    every byte that is not UTF-8 become U+FFFD. *)
Fixpoint unquoteBody (skip : nat) (l : bytes) : bytes :=
  match l with
  | [] => []
  | c :: t =>
    match skip with
    | S k => unquoteBody k t
    | 0 =>
      if Ascii.eqb c backslash then
        match t with
        | [] => []
        | e :: _ =>
          if Ascii.eqb e "u" then
            match getu4 l with
            | None => []
            | Some rr =>
              if isSurrogate rr then
                let dec := utf16Decode rr (getu4 (drop 6 l)) in
                if (dec =? RuneError)%N
                then encodeRune RuneError ++ unquoteBody 5 t
                else encodeRune dec ++ unquoteBody 11 t
              else encodeRune rr ++ unquoteBody 5 t
            end
          else escapeValue e :: unquoteBody 1 t
        end
      else if (b2n c <? 128)%N then c :: unquoteBody 0 t
      else
        match decodeRune l with
        | (r, sz) => encodeRune r ++ unquoteBody (sz - 1) t
        end
    end
  end.

Definition unquote (raw : bytes) : string := str (unquoteBody 0 raw).

(** The value under construction: an array with the elements read so far
    (last first), or an object with its members so far (last first) and
    the key whose value is awaited. *)
Inductive frame :=
| FArr (acc : list json)
| FObj (acc : list (string * json)) (key : option string).

(** What the parser expects next. *)
Inductive expect :=
| XValue | XArrFirst | XArrNext
| XObjFirst | XObjKey | XObjColon | XObjNext
| XDone (v : json).

Definition maxNestingDepth : nat := Z.to_nat 10000.

(** A value is complete: it goes into the innermost open array or object,
    or is the text's value. *)
Definition complete (v : json) (stack : list frame)
  : option (list frame * expect) :=
  match stack with
  | [] => Some ([], XDone v)
  | FArr acc :: st => Some (FArr (v :: acc) :: st, XArrNext)
  | FObj acc (Some k) :: st => Some (FObj ((k, v) :: acc) None :: st, XObjNext)
  | FObj _ None :: _ => None
  end.

Definition push (f : frame) (x : expect) (stack : list frame)
  : option (list frame * expect) :=
  if length stack <? maxNestingDepth then Some (f :: stack, x) else None.

Definition startValue (tk : token) (stack : list frame)
  : option (list frame * expect) :=
  match tk with
  | TNull => complete JNull stack
  | TTrue => complete (JBool true) stack
  | TFalse => complete (JBool false) stack
  | TNumber lit => complete (JNumber lit) stack
  | TString raw => complete (JString (unquote raw)) stack
  | TLBrack => push (FArr []) XArrFirst stack
  | TLBrace => push (FObj [] None) XObjFirst stack
  | _ => None
  end.

Definition closeArray (stack : list frame) : option (list frame * expect) :=
  match stack with
  | FArr acc :: st => complete (JArray (rev acc)) st
  | _ => None
  end.

Definition closeObject (stack : list frame) : option (list frame * expect) :=
  match stack with
  | FObj acc None :: st => complete (JObject (rev acc)) st
  | _ => None
  end.

Definition setKey (raw : bytes) (stack : list frame)
  : option (list frame * expect) :=
  match stack with
  | FObj acc None :: st => Some (FObj acc (Some (unquote raw)) :: st, XObjColon)
  | _ => None
  end.

(** One token, by what is expected. *)
Definition parseStep (tk : token) (stack : list frame) (x : expect)
  : option (list frame * expect) :=
  match x, tk with
  | XValue, _ => startValue tk stack
  | XArrFirst, TRBrack => closeArray stack
  | XArrFirst, _ => startValue tk stack
  | XArrNext, TComma => Some (stack, XValue)
  | XArrNext, TRBrack => closeArray stack
  | XObjFirst, TRBrace => closeObject stack
  | XObjFirst, TString raw => setKey raw stack
  | XObjKey, TString raw => setKey raw stack
  | XObjColon, TColon => Some (stack, XValue)
  | XObjNext, TComma => Some (stack, XObjKey)
  | XObjNext, TRBrace => closeObject stack
  | _, _ => None
  end.

Fixpoint parseTokens (tks : list token) (stack : list frame) (x : expect)
  : option json :=
  match tks with
  | [] => match x with
          | XDone v => Some v
          | _ => None
          end
  | tk :: rest =>
    match parseStep tk stack x with
    | Some (stack', x') => parseTokens rest stack' x'
    | None => None
    end
  end.

(** The tree of a JSON text: one value, white space around it allowed;
    [None] is a syntax error. *)
Definition parseJSON (data : bytes) : option json :=
  match tokenize 0 data with
  | Some tks => parseTokens tks [] XValue
  | None => None
  end.

(* ================================================================== *)
(** * Floating point: [float64], [float32], strconv                     *)
(* ================================================================== *)

(** IEEE 754 binary64 and binary32 values, as the [spec_float]s that are
    canonical for (53, 1024) and (24, 128).  Rounding is to nearest, ties
    to even, by the Standard Library's [SpecFloat]. *)
Definition float64 : Type := spec_float.
Definition float32 : Type := spec_float.

(** A decimal number [(-1)^dneg * dmant * 10^dexp]. *)
Record decimal := { dneg : bool; dmant : N; dexp : Z }.

Definition digitVal (c : ascii) : N := (b2n c - 48)%N.

(** Reading a number literal of the JSON grammar: [phase] is 0 in the
    integer part, 1 in the fraction, 2 in the exponent. *)
Fixpoint readDecimal (l : bytes) (phase : nat) (neg : bool) (mant : N)
    (frac : Z) (eneg : bool) (e : Z) : decimal :=
  match l with
  | [] => {| dneg := neg; dmant := mant;
             dexp := ((if eneg then - e else e) - frac)%Z |}
  | c :: t =>
    if isDigit c then
      match phase with
      | 0 => readDecimal t 0 neg (mant * 10 + digitVal c)%N frac eneg e
      | 1 => readDecimal t 1 neg (mant * 10 + digitVal c)%N (frac + 1)%Z eneg e
      | _ => readDecimal t 2 neg mant frac eneg (e * 10 + Z.of_N (digitVal c))%Z
      end
    else if Ascii.eqb c "." then readDecimal t 1 neg mant frac eneg e
    else if isChar c "eE" then readDecimal t 2 neg mant frac eneg e
    else if Ascii.eqb c "-" then
      match phase with
      | 2 => readDecimal t 2 neg mant frac true e
      | _ => readDecimal t phase true mant frac eneg e
      end
    else readDecimal t phase neg mant frac eneg e
  end.

Definition parseDecimal (lit : bytes) : decimal :=
  readDecimal lit 0 false 0%N 0%Z false 0%Z.

(** The nearest float of precision [prec] and exponent bound [emax] to a
    decimal number; an infinity when it is out of range. *)
Definition roundDecimal (prec emax : Z) (d : decimal) : spec_float :=
  match dmant d with
  | N0 => S754_zero (dneg d)
  | Npos m =>
    match dexp d with
    | Zneg k =>
      SFdiv prec emax (S754_finite (dneg d) m 0)
                      (S754_finite false (Pos.pow 10 k) 0)
    | Z0 =>
      binary_normalize prec emax (if dneg d then Zneg m else Zpos m) 0 (dneg d)
    | Zpos k =>
      let n := (m * Pos.pow 10 k)%positive in
      binary_normalize prec emax (if dneg d then Zneg n else Zpos n) 0 (dneg d)
    end
  end.

Definition isFinite (f : spec_float) : bool :=
  match f with
  | S754_zero _ | S754_finite _ _ _ => true
  | _ => false
  end.

(** [strconv.ParseFloat(lit, 64)] and [(lit, 32)] on a literal of the JSON
    grammar: [None] is the range error. *)
Definition ParseFloat64 (lit : bytes) : option float64 :=
  let f := roundDecimal 53 1024 (parseDecimal lit) in
  if isFinite f then Some f else None.

Definition ParseFloat32 (lit : bytes) : option float32 :=
  let f := roundDecimal 24 128 (parseDecimal lit) in
  if isFinite f then Some f else None.

(** [strconv.ParseInt(lit, 10, 64)] on a literal of the JSON grammar: digits
    with an optional sign, and the value within [int64]. *)
Definition ParseInt64 (lit : bytes) : option Z :=
  let body := match lit with
              | c :: t => if Ascii.eqb c "-" then t else lit
              | [] => []
              end in
  if forallb isDigit body && negb (Nat.eqb (length body) 0) then
    let d := parseDecimal lit in
    let v := (if dneg d then - Z.of_N (dmant d) else Z.of_N (dmant d))%Z in
    if ((- 2 ^ 63 <=? v) && (v <? 2 ^ 63))%Z then Some v else None
  else None.

Definition f64 (z : Z) : float64 := binary_normalize 53 1024 z 0 false.

(** [a == b] and [a < b] on floats. *)
Definition feq (a b : spec_float) : bool := SFeqb a b.
Definition flt (a b : spec_float) : bool := SFltb a b.

(** [int(f)] for a [float64]: the value truncated toward zero.  Outside
    [int64] Go leaves the result to the platform; it is the amd64 one here,
    the smallest [int64]. *)
Definition floatToInt (f : float64) : Z :=
  match f with
  | S754_zero _ => 0
  | S754_finite s m e =>
    let a := match e with
             | Zneg k => Z.shiftr (Zpos m) (Zpos k)
             | _ => Z.shiftl (Zpos m) e
             end in
    let v := if s then (- a)%Z else a in
    if ((- 2 ^ 63 <=? v) && (v <? 2 ^ 63))%Z then v else (- 2 ^ 63)%Z
  | _ => (- 2 ^ 63)%Z
  end.

(** The decimal digits of a positive integer, and their number. *)
Definition digitsOf (n : N) : bytes := unstr (NilZero.string_of_uint (N.to_uint n)).

(** [floor (log10 (p / q))] for positive [p] and [q], by search from an
    estimate; [fuel] bounds the search and is never used up on floats. *)
Fixpoint log10Down (fuel : nat) (p q : Z) (k : Z) : Z :=
  match fuel with
  | 0 => k
  | S fuel' =>
    (* is 10^k <= p/q ? *)
    let le := if (0 <=? k)%Z then (10 ^ k * q <=? p)%Z
              else (q <=? p * 10 ^ (- k))%Z in
    if le then
      (* is p/q < 10^(k+1) ? *)
      let lt := if (0 <=? k + 1)%Z then (p <? 10 ^ (k + 1) * q)%Z
                else (p * 10 ^ (- (k + 1)) <? q)%Z in
      if lt then k else log10Down fuel' p q (k + 1)
    else log10Down fuel' p q (k - 1)
  end.

(** The shortest decimal that reads back as [x], nearest to [x] among the
    shortest, ties to the even digit: its digits as a number and the power
    of ten of its last digit.  [x] is [m * 2^e]; [n] digits are tried for
    [n = 1 .. ] while [fuel] lasts. *)
Fixpoint shortestFrom (prec emax : Z) (x : spec_float) (p q : Z) (k : Z)
    (fuel : nat) (n : Z) : N * Z :=
  let u := (k + 1 - n)%Z in
  let lo := if (0 <=? u)%Z then (p / (q * 10 ^ u))%Z
            else (p * 10 ^ (- u) / q)%Z in
  let hi := (lo + 1)%Z in
  let back (d : Z) :=
    match roundDecimal prec emax
            {| dneg := false; dmant := Z.to_N d; dexp := u |}, x with
    | S754_finite _ m1 e1, S754_finite _ m2 e2 =>
      Pos.eqb m1 m2 && Z.eqb e1 e2
    | _, _ => false
    end in
  (* twice x against lo + hi, both in units of 10^u *)
  let side := if (0 <=? u)%Z then (2 * p ?= (lo + hi) * (q * 10 ^ u))%Z
              else (2 * p * 10 ^ (- u) ?= (lo + hi) * q)%Z in
  let pick :=
    match back lo, back hi with
    | true, true =>
      match side with
      | Lt => Some lo
      | Gt => Some hi
      | Eq => Some (if Z.even lo then lo else hi)
      end
    | true, false => Some lo
    | false, true => Some hi
    | false, false => None
    end in
  match pick, fuel with
  | Some d, _ => (Z.to_N d, u)
  | None, 0 => (Z.to_N lo, u)
  | None, S fuel' => shortestFrom prec emax x p q k fuel' (n + 1)%Z
  end.

Fixpoint stripZeros (fuel : nat) (d : N) (u : Z) : N * Z :=
  match fuel with
  | 0 => (d, u)
  | S fuel' =>
    if ((d mod 10 =? 0) && negb (d =? 0))%N
    then stripZeros fuel' (d / 10)%N (u + 1)%Z
    else (d, u)
  end.

(** [decimalSlice] of strconv for the shortest formatting: the digits
    (none for zero), and [dp], the place of the decimal point: the value
    is [0.d1d2... * 10^dp]. *)
Definition shortestDigits (prec emax : Z) (x : spec_float) : bytes * Z :=
  match x with
  | S754_finite _ m e =>
    let p := match e with
             | Zneg _ => Zpos m
             | _ => Z.shiftl (Zpos m) e
             end in
    let q := match e with
             | Zneg k => Z.shiftl 1 (Zpos k)
             | _ => 1%Z
             end in
    let k := log10Down (Z.to_nat 800) p q
               ((Z.log2 p - Z.log2 q) * 3 / 10)%Z in
    let '(d, u) := shortestFrom prec emax x p q k 20 1 in
    let '(d, u) := stripZeros 40 d u in
    let ds := digitsOf d in
    (ds, (u + Z.of_nat (length ds))%Z)
  | _ => ([], 0%Z)
  end.

Definition digitAt (ds : bytes) (i : Z) : ascii :=
  if (i <? 0)%Z then "0"%char else nth (Z.to_nat i) ds "0"%char.

Definition zseq (n : Z) : list Z := map Z.of_nat (seq 0 (Z.to_nat n)).

(** [fmtF] of strconv: [%f] with [prec] digits after the point. *)
Definition fmtF (neg : bool) (ds : bytes) (dp : Z) (prec : Z) : bytes :=
  (if neg then ["-"%char] else [])
  ++ (if (0 <? dp)%Z then map (digitAt ds) (zseq dp) else ["0"%char])
  ++ (if (0 <? prec)%Z
      then "."%char :: map (fun i => digitAt ds (dp + i)%Z) (zseq prec)
      else []).

(** [fmtE] of strconv: [%e] with [prec] digits after the point; the
    exponent has two digits at least when [pad] holds. *)
Definition fmtE (neg : bool) (ds : bytes) (dp : Z) (prec : Z) (pad : bool)
  : bytes :=
  let ex := match ds with
            | [] => 0%Z
            | _ => (dp - 1)%Z
            end in
  (if neg then ["-"%char] else [])
  ++ [digitAt ds 0]
  ++ (if (0 <? prec)%Z
      then "."%char :: map (fun i => digitAt ds (1 + i)%Z) (zseq prec)
      else [])
  ++ ["e"%char; if (ex <? 0)%Z then "-"%char else "+"%char]
  ++ (if pad && (Z.abs ex <? 10)%Z then ["0"%char] else [])
  ++ digitsOf (Z.to_N (Z.abs ex)).

Definition signOf (f : spec_float) : bool :=
  match f with
  | S754_zero s | S754_infinity s | S754_finite s _ _ => s
  | S754_nan => false
  end.

(** [%v] of a [float64]: [strconv.FormatFloat(f, 'g', -1, 64)]. *)
Definition formatG (f : float64) : bytes :=
  match f with
  | S754_nan => unstr "NaN"
  | S754_infinity s => unstr (if s then "-Inf" else "+Inf")
  | _ =>
    let '(ds, dp) := shortestDigits 53 1024 f in
    let nd := Z.of_nat (length ds) in
    let ex := (dp - 1)%Z in
    if ((ex <? -4) || (6 <=? ex))%Z
    then fmtE (signOf f) ds dp (nd - 1) true
    else fmtF (signOf f) ds dp (Z.max (nd - dp) 0)
  end.

(** A [float64] as encoding/json writes it: [%f], or [%e] with the
    exponent unpadded when the value is below 1e-6 or at least 1e21;
    [None] for what is not a number of JSON. *)
Definition marshalFloat (f : float64) : option bytes :=
  match f with
  | S754_nan | S754_infinity _ => None
  | _ =>
    let '(ds, dp) := shortestDigits 53 1024 f in
    let nd := Z.of_nat (length ds) in
    let a := SFabs f in
    let small := roundDecimal 53 1024 {| dneg := false; dmant := 1; dexp := -6 |} in
    let large := roundDecimal 53 1024 {| dneg := false; dmant := 1; dexp := 21 |} in
    if negb (feq a (S754_zero false)) && (flt a small || negb (flt a large))
    then Some (fmtE (signOf f) ds dp (nd - 1) false)
    else Some (fmtF (signOf f) ds dp (Z.max (nd - dp) 0))
  end.

(* ================================================================== *)
(** * encoding/json: Go values                                          *)
(* ================================================================== *)

(** What [json.Unmarshal] stores in an [any]: nil, [bool], [float64],
    [string], [[]any] or [map[string]any].  A map is the list of its
    entries, keys distinct. *)
Inductive any :=
| ANil
| ABool (b : bool)
| AFloat (f : float64)
| AString (s : string)
| ASlice (l : list any)
| AMap (m : list (string * any)).

Inductive res (A : Type) :=
| Ok (a : A)
| Err (e : error).
Arguments Ok {A} a.
Arguments Err {A} e.

(** [m[k] = v]. *)
Fixpoint mapSet (k : string) (v : any) (m : list (string * any))
  : list (string * any) :=
  match m with
  | [] => [(k, v)]
  | (k', v') :: t =>
    if (k =? k')%string then (k, v) :: t else (k', v') :: mapSet k v t
  end.

(** [m[k]]: nil when the key is absent, and on the nil map. *)
Fixpoint mapGet (k : string) (m : list (string * any)) : any :=
  match m with
  | [] => ANil
  | (k', v) :: t => if (k =? k')%string then v else mapGet k t
  end.

Definition numberError (lit : bytes) : error :=
  JsonTypeError ("json: cannot unmarshal number " +++ str lit
                 +++ " into Go value of type float64").

(** The value stored for a JSON tree in an [any]: numbers become
    [float64], objects maps (a repeated key keeps its last value).  A
    number out of the range of [float64] is the error of the whole. *)
Fixpoint toAny (j : json) : res any :=
  match j with
  | JNull => Ok ANil
  | JBool b => Ok (ABool b)
  | JNumber lit =>
    match ParseFloat64 lit with
    | Some f => Ok (AFloat f)
    | None => Err (numberError lit)
    end
  | JString s => Ok (AString s)
  | JArray elems =>
    (fix each (l : list json) (acc : list any) : res any :=
       match l with
       | [] => Ok (ASlice (rev acc))
       | x :: t =>
         match toAny x with
         | Ok a => each t (a :: acc)
         | Err e => Err e
         end
       end) elems []
  | JObject members =>
    (fix each (l : list (string * json)) (m : list (string * any)) : res any :=
       match l with
       | [] => Ok (AMap m)
       | (k, x) :: t =>
         match toAny x with
         | Ok a => each t (mapSet k a m)
         | Err e => Err e
         end
       end) members []
  end.

Definition syntaxError : error := JsonSyntaxError "json: syntax error".

Definition kindName (j : json) : string :=
  match j with
  | JNull => "null"
  | JBool _ => "bool"
  | JNumber _ => "number"
  | JString _ => "string"
  | JArray _ => "array"
  | JObject _ => "object"
  end.

(** [json.Unmarshal(data, &resp)] for [var resp map[string]any]: the map,
    nil ([[]]) when the text is [null].  The text of a syntax error is not
    told apart. *)
Definition UnmarshalMap (data : bytes) : res (list (string * any)) :=
  match parseJSON data with
  | None => Err syntaxError
  | Some JNull => Ok []
  | Some (JObject members) =>
    match toAny (JObject members) with
    | Ok (AMap m) => Ok m
    | Ok _ => Ok []
    | Err e => Err e
    end
  | Some j =>
    Err (JsonTypeError ("json: cannot unmarshal " +++ kindName j
                        +++ " into Go value of type map[string]interface {}"))
  end.

(** Entries in the order of their keys, byte by byte. *)
Fixpoint insertByKey {A} (kv : string * A) (l : list (string * A))
  : list (string * A) :=
  match l with
  | [] => [kv]
  | kv' :: t =>
    if String.leb (fst kv) (fst kv') then kv :: l
    else kv' :: insertByKey kv t
  end.

Definition sortByKey {A} (l : list (string * A)) : list (string * A) :=
  fold_right insertByKey [] l.

(** [json.Marshal] of an [any]. *)
Fixpoint Marshal (v : any) : res bytes :=
  match v with
  | ANil => Ok (unstr "null")
  | ABool b => Ok (unstr (if b then "true" else "false"))
  | AFloat f =>
    match marshalFloat f with
    | Some b => Ok b
    | None => Err (Errorf "json: unsupported value")
    end
  | AString s => Ok (encodeString s)
  | ASlice l =>
    (fix each (l : list any) (acc : list bytes) : res bytes :=
       match l with
       | [] => Ok (unstr "[" ++ joinBytes (unstr ",") (rev acc) ++ unstr "]")
       | x :: t =>
         match Marshal x with
         | Ok b => each t (b :: acc)
         | Err e => Err e
         end
       end) l []
  | AMap m =>
    (fix each (l : list (string * any)) (acc : list (string * bytes))
       : res bytes :=
       match l with
       | [] =>
         Ok (unstr "{"
             ++ joinBytes (unstr ",")
                  (map (fun kb => encodeString (fst kb) ++ unstr ":" ++ snd kb)
                       (sortByKey acc))
             ++ unstr "}")
       | (k, x) :: t =>
         match Marshal x with
         | Ok b => each t ((k, b) :: acc)
         | Err e => Err e
         end
       end) m []
  end.

(** [fmt.Sprintf("%v", v)] of an [any]. *)
Fixpoint Sprint (v : any) : string :=
  match v with
  | ANil => "<nil>"
  | ABool b => if b then "true" else "false"
  | AFloat f => str (formatG f)
  | AString s => s
  | ASlice l => "[" +++ String.concat " " (map Sprint l) +++ "]"
  | AMap m =>
    "map["
    +++ String.concat " "
          (map (fun kv => fst kv +++ ":" +++ snd kv)
               (sortByKey
                  ((fix each (l : list (string * any)) : list (string * string) :=
                      match l with
                      | [] => []
                      | (k, x) :: t => (k, Sprint x) :: each t
                      end) m)))
    +++ "]"
  end.

(* ================================================================== *)
(** * encoding/json: reading into the struct [Data]                     *)
(* ================================================================== *)

(** The struct [Data], and [Result].  A slice is the list of its elements:
    the nil slice and the empty one are not told apart.  The field [Data]
    of [Result] is [Items] here, the name [Data] being the struct's. *)
Record Data := { Rect : list (list Z); Score : float32; Text : string }.

Record Result := { Code : Z; Msg : string; Items : list Data }.

Definition CodeSuccess : Z := 100.
Definition CodeNoText : Z := 101.

(** A slice while it is decoded into: its elements, and what its array
    holds behind them.  Decoding an array into a slice writes over the
    array from the start, so that an element [null] keeps what an earlier
    decoding left in its place. *)
Definition mem (A : Type) : Type := (list A * list A)%type.

Definition visible {A} (s : mem A) : list A := fst s.
Definition backing {A} (s : mem A) : list A := fst s ++ snd s.

Record DataMem := { rectM : mem (mem Z); scoreM : float32; textM : string }.

Definition zeroDataMem : DataMem :=
  {| rectM := ([], []); scoreM := S754_zero false; textM := "" |}.

Definition dataOf (r : DataMem) : Data :=
  {| Rect := map visible (visible (rectM r));
     Score := scoreM r; Text := textM r |}.

(** The text of a [json.UnmarshalTypeError]: what was read, the field of
    [Data] it was read for, if any, and the type it does not fit. *)
Definition typeError (value : string) (fld : option string) (ty : string)
  : error :=
  JsonTypeError ("json: cannot unmarshal " +++ value
                 +++ match fld with
                     | Some f => " into Go struct field Data." +++ f
                     | None => " into Go value"
                     end
                 +++ " of type " +++ ty).

(** A JSON value into an [int]: [null] leaves it as it is. *)
Definition storeInt (fld : option string) (old : Z) (j : json) : res Z :=
  match j with
  | JNull => Ok old
  | JNumber lit =>
    match ParseInt64 lit with
    | Some z => Ok z
    | None => Err (typeError ("number " +++ str lit) fld "int")
    end
  | _ => Err (typeError (kindName j) fld "int")
  end.

(** The elements of a JSON array into the places of a backing array, from
    the first on; places beyond it are fresh ([zero]). *)
Fixpoint storeElems {A} (store : A -> json -> res A) (zero : A)
    (old : list A) (l : list json) : res (list A) :=
  match l with
  | [] => Ok []
  | j :: t =>
    match store (hd zero old) j with
    | Ok a =>
      match storeElems store zero (tl old) t with
      | Ok r => Ok (a :: r)
      | Err e => Err e
      end
    | Err e => Err e
    end
  end.

(** A JSON value into a slice: [null] makes it nil, an empty array makes
    it a fresh empty slice, an array writes over its array and sets its
    length. *)
Definition storeSlice {A} (store : A -> json -> res A) (zero : A)
    (ty : string) (fld : option string) (old : mem A) (j : json)
  : res (mem A) :=
  match j with
  | JNull => Ok ([], [])
  | JArray [] => Ok ([], [])
  | JArray l =>
    match storeElems store zero (backing old) l with
    | Ok elems => Ok (elems, drop (length l) (backing old))
    | Err e => Err e
    end
  | _ => Err (typeError (kindName j) fld ty)
  end.

Definition storeFloat32 (fld : option string) (old : float32) (j : json)
  : res float32 :=
  match j with
  | JNull => Ok old
  | JNumber lit =>
    match ParseFloat32 lit with
    | Some f => Ok f
    | None => Err (typeError ("number " +++ str lit) fld "float32")
    end
  | _ => Err (typeError (kindName j) fld "float32")
  end.

Definition storeString (fld : option string) (old : string) (j : json)
  : res string :=
  match j with
  | JNull => Ok old
  | JString s => Ok s
  | _ => Err (typeError (kindName j) fld "string")
  end.

Definition upper (c : ascii) : ascii :=
  if ((97 <=? b2n c) && (b2n c <=? 122))%N then n2b (b2n c - 32) else c.

(** A key names the field of ASCII name [name]: the two are equal under
    simple case folding, in which U+017F folds to S and U+212A to K. *)
Fixpoint foldsTo (skip : nat) (key name : bytes) : bool :=
  match key with
  | [] => match name with
          | [] => true
          | _ => false
          end
  | c :: t =>
    match skip with
    | S k => foldsTo k t name
    | 0 =>
      match name with
      | [] => false
      | n :: name' =>
        if (b2n c <? 128)%N then Ascii.eqb (upper c) (upper n) && foldsTo 0 t name'
        else
          match decodeRune key with
          | (r, sz) =>
            let folded := if (r =? 383)%N then Some "S"%char
                          else if (r =? 8490)%N then Some "K"%char
                          else None in
            match folded with
            | Some f => Ascii.eqb f (upper n) && foldsTo (sz - 1) t name'
            | None => false
            end
          end
      end
    end
  end.

Inductive field := FBox | FScore | FText.

(** The field of [Data] a key names, by its [json] tag. *)
Definition fieldOf (key : string) : option field :=
  if foldsTo 0 (unstr key) (unstr "box") then Some FBox
  else if foldsTo 0 (unstr key) (unstr "score") then Some FScore
  else if foldsTo 0 (unstr key) (unstr "text") then Some FText
  else None.

Definition storeMember (r : DataMem) (kv : string * json) : res DataMem :=
  match fieldOf (fst kv) with
  | None => Ok r
  | Some FBox =>
    match storeSlice (storeSlice (storeInt (Some "box")) 0%Z "[]int" (Some "box"))
            ([], []) "[][]int" (Some "box") (rectM r) (snd kv) with
    | Ok v => Ok {| rectM := v; scoreM := scoreM r; textM := textM r |}
    | Err e => Err e
    end
  | Some FScore =>
    match storeFloat32 (Some "score") (scoreM r) (snd kv) with
    | Ok v => Ok {| rectM := rectM r; scoreM := v; textM := textM r |}
    | Err e => Err e
    end
  | Some FText =>
    match storeString (Some "text") (textM r) (snd kv) with
    | Ok v => Ok {| rectM := rectM r; scoreM := scoreM r; textM := v |}
    | Err e => Err e
    end
  end.

Fixpoint storeMembers (r : DataMem) (l : list (string * json)) : res DataMem :=
  match l with
  | [] => Ok r
  | kv :: t =>
    match storeMember r kv with
    | Ok r' => storeMembers r' t
    | Err e => Err e
    end
  end.

(** [json.Unmarshal(str, &r)] for [var r Data]. *)
Definition UnmarshalData (data : bytes) : res Data :=
  match parseJSON data with
  | None => Err syntaxError
  | Some JNull => Ok (dataOf zeroDataMem)
  | Some (JObject members) =>
    match storeMembers zeroDataMem members with
    | Ok r => Ok (dataOf r)
    | Err e => Err e
    end
  | Some j => Err (typeError (kindName j) None "paddleocr.Data")
  end.

(* ================================================================== *)
(** * [ParseResult]                                                     *)
(* ================================================================== *)

(** How a function returning [(A, error)] ends: it returns, or panics. *)
Inductive returns (A : Type) :=
| Return (a : A) (err : option error)
| Panicked (msg : string).
Arguments Return {A} a err.
Arguments Panicked {A} msg.

Definition zeroResult : Result := {| Code := 0; Msg := ""; Items := [] |}.

(** The dynamic type of an [any], as a failed type assertion names it. *)
Definition typeName (v : any) : string :=
  match v with
  | ANil => "nil"
  | ABool _ => "bool"
  | AFloat _ => "float64"
  | AString _ => "string"
  | ASlice _ => "[]interface {}"
  | AMap _ => "map[string]interface {}"
  end.

(** One turn of the loop of [ParseResult]: the element is encoded again and
    read into a [Data]. *)
Definition decodeItem (v : any) : res Data :=
  match Marshal v with
  | Err e => Err e
  | Ok text => UnmarshalData text
  end.

(** The loop of [ParseResult]: [resData] holds the items so far. *)
Fixpoint decodeItems (data : list any) (resData : list Data) : res (list Data) :=
  match data with
  | [] => Ok resData
  | v :: rest =>
    match decodeItem v with
    | Err e => Err e
    | Ok r => decodeItems rest (resData ++ [r])
    end
  end.

Definition ParseResult (rawData : bytes) : returns Result :=
  match UnmarshalMap rawData with
  | Err e => Return zeroResult (Some e)
  | Ok resp =>
    match mapGet "code" resp with
    | ANil => Return zeroResult (Some (Errorf "no code in response"))
    | AFloat code =>
      if negb (feq code (f64 100)) then
        Return {| Code := floatToInt code;
                  Msg := Sprint (mapGet "data" resp);
                  Items := [] |} None
      else
        match mapGet "data" resp with
        | ANil => Return zeroResult (Some (Errorf "no data in response"))
        | ASlice data =>
          match decodeItems data [] with
          | Err e =>
            Return {| Code := CodeSuccess; Msg := "parse success"; Items := [] |}
                   (Some e)
          | Ok resData =>
            Return {| Code := CodeSuccess; Msg := "parse success";
                      Items := resData |} None
          end
        | _ =>
          Return {| Code := CodeSuccess; Msg := "parse success"; Items := [] |}
                 (Some (Errorf "data is not array"))
        end
    | v =>
      Panicked ("interface conversion: interface {} is " +++ typeName v
                +++ ", not float64")
    end
  end.

(** [OcrFileAndParse] and [OcrAndParse] of a supervisor. *)
Definition thenParse (r : option bytes * option error) : returns Result :=
  match r with
  | (_, Some e) => Return zeroResult (Some e)
  | (Some b, None) => ParseResult b
  | (None, None) => ParseResult []
  end.

Definition OcrFileAndParse (imagePath : string) : M (returns Result) :=
  r <- OcrFile imagePath ;; ret (thenParse r).

Definition OcrAndParse (image : bytes) : M (returns Result) :=
  r <- Ocr image ;; ret (thenParse r).

(** [OcrClipboardAndParse]. *)
Definition OcrClipboardAndParse : M (returns Result) :=
  OcrFileAndParse clipboardImagePath.

(* ================================================================== *)
(** * The functions of the package: one request, one worker             *)
(* ================================================================== *)

(** [defer p.Close()]: when the function returns, or panics, [Close] runs
    on the supervisor as it then is; what [Close] returns is dropped. *)
Definition deferClose {A} (o : outcome A) : outcome A :=
  match o with
  | Ret a p =>
    match Close p with
    | Ret _ p' => Ret a p'
    | Block p' => Block p'
    | Panic msg p' => Panic msg p'
    end
  | Block p => Block p
  | Panic msg p =>
    match Close p with
    | Ret _ p' => Panic msg p'
    | Block p' => Block p'
    | Panic msg' p' => Panic msg' p'
    end
  end.

Module paddleocr.

(** The function [OcrFile(exePath, imagePath, argsCnf)], on a file system
    [stat] and with the world's choices [l] for the launch. *)
Definition OcrFile (stat : string -> statResult) (l : Launch)
    (exePath imagePath : string) (argsCnf : OcrArgs)
  : outcome (option bytes * option error) :=
  match NewPpocr stat l exePath argsCnf with
  | Ret (_, Some err) p => Ret (None, Some err) p
  | Ret (_, None) p =>
    deferClose
      (match OcrFile imagePath p with
       | Ret (_, Some err) p' => Ret (None, Some err) p'
       | Ret (b, None) p' => Ret (b, None) p'
       | Block p' => Block p'
       | Panic msg p' => Panic msg p'
       end)
  | Block p => Block p
  | Panic msg p => Panic msg p
  end.

(** The function [OcrFileAndParse(exePath, imagePath, argsCnf)]. *)
Definition OcrFileAndParse (stat : string -> statResult) (l : Launch)
    (exePath imagePath : string) (argsCnf : OcrArgs)
  : outcome (returns Result) :=
  match OcrFile stat l exePath imagePath argsCnf with
  | Ret r p => Ret (thenParse r) p
  | Block p => Block p
  | Panic msg p => Panic msg p
  end.

End paddleocr.

(** Equality of byte sequences, as a test. *)
Fixpoint bytes_eqb (a b : bytes) : bool :=
  match a, b with
  | [], [] => true
  | x :: a', y :: b' => Ascii.eqb x y && bytes_eqb a' b'
  | _, _ => false
  end.

(* ================================================================== *)
(** * Notions used in the statements                                    *)
(* ================================================================== *)

(** A string that starts with an ASCII byte that is not white space. *)
Definition okStart (p : string) : Prop :=
  exists c t, p = String c t /\ (b2n c <? 128)%N = true /\ asciiSpace c = false.

(** A string that does not end in white space, whatever stands before. *)
Definition okEnd (p : string) : Prop :=
  forall x, endsInSpace (x +++ p) = false.

(** What the loop of [CmdString] appends: every piece and a space. *)
Definition spaced (ps : list string) : string :=
  String.concat "" (map (fun p => p +++ " ") ps).

(** The pieces a field gives: none when it is zero. *)
Definition renderField (f : string * fieldValue) : list string :=
  match snd f with
  | PtrBool p => renderBool (fst f) p
  | PtrInt32 (Some n) => [fst f +++ "=" +++ formatInt n]
  | PtrInt32 None => []
  | StringV x => if (x =? "")%string then [] else [fst f +++ "=" +++ x]
  end.

(** The marker shows after [n] chunks: what was read through them holds
    it, and is less than the buffer. *)
Definition seenAfter (s : stream) (n : nat) : Prop :=
  n <= length (chunks s)
  /\ length (concat (take n (chunks s))) < initBufSize
  /\ Contains (concat (take n (chunks s))) initMarker = true.

Definition markerSeen (s : stream) : Prop := exists n, seenAfter s n.

(** The supervisor once the worker is started: pipes made, process
    running, waiter goroutine launched. *)
Definition started (l : Launch) (exe : string) (a : OcrArgs) (p : Ppocr) : Ppocr :=
  setInternalErr None
    (setKillWait (killedWaitErr l)
       (setCmd CmdRunning
          (logEvent (EvSpawn exe (CmdString a))
             (setCmdStdout (Some (output l))
                (setCmdStdin PipeOpen (setCmd CmdNew p)))))).

(** The receive loop as the contract has it, without a buffer: what is
    read is added to what was read before, the loop stops exactly when
    the last byte of it all is a newline and returns it all, and a read
    error ends it.  Each read asks for the room left up to the next
    multiple of the buffer size. *)
Definition endsInNewline (l : bytes) : bool :=
  match last l with
  | Some c => Ascii.eqb c newline
  | None => false
  end.

Definition room (acc : bytes) : nat :=
  recvBufSize - length acc mod recvBufSize.

Definition nonempty (c : bytes) : Prop := c <> [].

(** The buffer of the loop holds what was read: [acc], in its first
    [start] bytes, and ends at the next multiple of the buffer size. *)
Definition holds (content : bytes) (start : nat) (acc : bytes) : Prop :=
  take start content = acc /\ length acc = start
  /\ exists q, length content = recvBufSize * (q + 1)
               /\ recvBufSize * q <= start < recvBufSize * (q + 1).

(** A worker that says hello, reports readiness, and goes on working. *)
Definition helloLaunch : Launch :=
  {| stdinPipeErr := None; stdoutPipeErr := None; startErr := None;
     output := {| chunks := [unstr "PaddleOCR-json v1.3.1"; unstr "OCR init";
                             unstr " completed."];
                  ending := None |};
     stderrText := ""; exitInInit := None;
     killedWaitErr := Some (OsError "signal: killed") |}.

Definition noArgs : OcrArgs :=
  {| Cls := None; EnableMkldnn := None; LimitSideLen := None;
     UseAngleCls := None; ConfigPath := "" |}.

(** A supervisor whose worker runs and has not been reported ended. *)
Definition running (p : Ppocr) : Prop :=
  cmd p = CmdRunning /\ cmdStdin p = PipeOpen /\ exitSignal p = false.

(** A waiter goroutine is there to signal on [runGoroutineExitedChan]: the
    worker runs, or it has ended and the goroutine stands ready. *)
Definition hasWaiter (p : Ppocr) : Prop := running p \/ exitSignal p = true.

(** A launch in which the pipes are made and the worker starts, and runs
    on through the handshake. *)
Definition launches (l : Launch) : Prop :=
  stdinPipeErr l = None /\ stdoutPipeErr l = None /\ startErr l = None
  /\ exitInInit l = None.

(** A launch in which a pipe cannot be made or the worker cannot be
    started: [initPpocr] returns before the waiter goroutine is there. *)
Definition notStarted (l : Launch) : Prop :=
  stdinPipeErr l <> None \/ stdoutPipeErr l <> None \/ startErr l <> None.

(** A launch that [initPpocr] reports as failed: the worker is not
    started, or its output ends, or fills the buffer, before the marker
    was seen. *)
Definition failsToLaunch (l : Launch) : Prop :=
  notStarted l
  \/ (~ markerSeen (output l)
      /\ (ending (output l) <> None
          \/ initBufSize <= length (flat (output l)))).

Definition sampleFs (path : string) : statResult :=
  if (path =? "/opt/ocr/PaddleOCR-json")%string then StatOk false
  else if (path =? "/opt/ocr")%string then StatOk true
  else StatErr ENOENT.

(** A supervisor as [NewPpocr] leaves it when all goes well. *)
Definition runningPpocr : Ppocr :=
  stateOf (NewPpocr sampleFs helloLaunch "/opt/ocr/PaddleOCR-json" noArgs).

(** A worker that ends without a word. *)
Definition silentLaunch : Launch :=
  {| stdinPipeErr := None; stdoutPipeErr := None; startErr := None;
     output := {| chunks := []; ending := Some EOF |};
     stderrText := "no model"; exitInInit := None;
     killedWaitErr := Some (OsError "signal: killed") |}.

(** The supervisor that [NewPpocr] returns, with its error, when the
    handshake with the worker fails. *)
Definition failedPpocr : Ppocr :=
  stateOf (NewPpocr sampleFs silentLaunch "/opt/ocr/PaddleOCR-json" noArgs).

(** A worker that cannot be started. *)
Definition brokenLaunch : Launch :=
  {| stdinPipeErr := None; stdoutPipeErr := None;
     startErr := Some (OsError "fork/exec ./PaddleOCR-json: permission denied");
     output := closedStream; stderrText := ""; exitInInit := None;
     killedWaitErr := None |}.

(** A byte the scanner passes over inside a string. *)
Definition plain (c : ascii) : bool :=
  negb (Ascii.eqb c dquote) && negb (Ascii.eqb c backslash)
  && negb (b2n c <? 32)%N.

Definition high (c : ascii) : bool := (128 <=? b2n c)%N.

(** A byte that stands for itself in a JSON string. *)
Definition simple (c : ascii) : bool := plain c && (b2n c <? 128)%N.

Definition allBytes : bytes := map (fun n => n2b (N.of_nat n)) (seq 0 256).

(** The state of the string scanner after the bytes [l], none of which
    closes the string. *)
Fixpoint scanPrefix (st : strState) (l : bytes) : option strState :=
  match l with
  | [] => Some st
  | c :: t =>
    match st with
    | SNormal =>
      if Ascii.eqb c dquote then None
      else if Ascii.eqb c backslash then scanPrefix SEsc t
      else if (b2n c <? 32)%N then None
      else scanPrefix SNormal t
    | SEsc =>
      if Ascii.eqb c dquote || Ascii.eqb c backslash || isChar c "/bfnrt"
      then scanPrefix SNormal t
      else if Ascii.eqb c "u" then scanPrefix (SHex 4) t
      else None
    | SHex k =>
      match hexVal c with
      | None => None
      | Some _ => scanPrefix (match k with
                              | 0 | 1 => SNormal
                              | S k' => SHex k'
                              end) t
      end
    end
  end.

Definition isNormal (o : option strState) : bool :=
  match o with
  | Some SNormal => true
  | _ => false
  end.

(** The text of an object with one member whose value is a string. *)
Definition oneMember (key : string) (body : bytes) : bytes :=
  unstr "{" ++ [dquote] ++ unstr key ++ [dquote] ++ unstr ":"
  ++ [dquote] ++ body ++ [dquote] ++ unstr "}".

(** A JSON text written with ' for the double quote. *)
Definition jsonText (s : string) : bytes :=
  map (fun c => if Ascii.eqb c "'" then dquote else c) (unstr s).

(** A worker that reports readiness and answers one request. *)
Definition echoLaunch : Launch :=
  {| stdinPipeErr := None; stdoutPipeErr := None; startErr := None;
     output :=
       {| chunks :=
            [unstr "OCR init completed." ++ [newline];
             jsonText "{'code':100,'data':[{'box':[[0,0],[10,0],[10,10],[0,10]],"
             ++ jsonText " 'score':0.99,'text':'hello'}]}" ++ [newline]];
          ending := None |};
     stderrText := ""; exitInInit := None;
     killedWaitErr := Some (OsError "signal: killed") |}.

Definition echoPpocr : Ppocr :=
  stateOf (NewPpocr sampleFs echoLaunch "/opt/ocr/PaddleOCR-json" noArgs).

(** The value of decimal digits read after the value [acc]. *)
Definition digitsValue (l : bytes) (acc : N) : N :=
  fold_left (fun a c => (a * 10 + digitVal c)%N) l acc.

Fixpoint uintValue (d : Decimal.uint) (acc : N) : N :=
  match d with
  | Decimal.Nil => acc
  | Decimal.D0 d => uintValue d (acc * 10 + 0)
  | Decimal.D1 d => uintValue d (acc * 10 + 1)
  | Decimal.D2 d => uintValue d (acc * 10 + 2)
  | Decimal.D3 d => uintValue d (acc * 10 + 3)
  | Decimal.D4 d => uintValue d (acc * 10 + 4)
  | Decimal.D5 d => uintValue d (acc * 10 + 5)
  | Decimal.D6 d => uintValue d (acc * 10 + 6)
  | Decimal.D7 d => uintValue d (acc * 10 + 7)
  | Decimal.D8 d => uintValue d (acc * 10 + 8)
  | Decimal.D9 d => uintValue d (acc * 10 + 9)
  end%N.

(** The member of an object that a Go map keeps for a key: the last one
    with that key. *)
Fixpoint lastMember (k : string) (members : list (string * json)) : option json :=
  match members with
  | [] => None
  | (k', v) :: t =>
    match lastMember k t with
    | Some x => Some x
    | None => if (k =? k')%string then Some v else None
    end
  end.

(** Every number of a JSON tree is within the range of [float64]. *)
Fixpoint inRange (j : json) : bool :=
  match j with
  | JNumber lit =>
    match ParseFloat64 lit with
    | Some _ => true
    | None => false
    end
  | JArray elems => forallb inRange elems
  | JObject members => forallb (fun kv => inRange (snd kv)) members
  | _ => true
  end.

(** [%v] of what is decoded for a member of the response: [<nil>] when
    the member is absent. *)
Definition valueText (member : option json) : string :=
  match member with
  | None => "<nil>"
  | Some j =>
    match toAny j with
    | Ok v => Sprint v
    | Err _ => ""
    end
  end.

(** The loops of [toAny]. *)
Definition elemsToSlice : list json -> list any -> res any :=
  fix each (l : list json) (acc : list any) : res any :=
    match l with
    | [] => Ok (ASlice (rev acc))
    | x :: t =>
      match toAny x with
      | Ok a => each t (a :: acc)
      | Err e => Err e
      end
    end.

Definition membersToMap : list (string * json) -> list (string * any) -> res any :=
  fix each (l : list (string * json)) (m : list (string * any)) : res any :=
    match l with
    | [] => Ok (AMap m)
    | (k, x) :: t =>
      match toAny x with
      | Ok a => each t (mapSet k a m)
      | Err e => Err e
      end
    end.




(** A byte at which every number ends. *)
Definition endsNumber (rest : bytes) : Prop :=
  match rest with
  | [] => True
  | c :: _ => forall st, numStep st c = None
  end.



























Definition helloItem : Data :=
  {| Rect := [[0; 0]; [10; 0]; [10; 10]; [0; 10]]%Z;
     Score := S754_finite false 16609444 (-24);
     Text := "hello" |}.

(* ================================================================== *)
(** * Properties of [CmdString]                                         *)
(* ================================================================== *)

Lemma unstr_app (a b : string) : unstr (a +++ b) = unstr a ++ unstr b.
Proof. induction a as [|c a IH]; simpl; [reflexivity|]. now rewrite IH. Qed.

Lemma str_unstr (s : string) : str (unstr s) = s.
Proof. apply string_of_list_ascii_of_string. Qed.

Lemma unstr_str (l : bytes) : unstr (str l) = l.
Proof. apply list_ascii_of_string_of_list_ascii. Qed.

Lemma isSpaceRune_RuneError : isSpaceRune RuneError = false.
Proof. reflexivity. Qed.

Lemma ascii_not_cont (a : ascii) : (b2n a <? 128)%N = true -> RuneStart a = true.
Proof.
  intros H. unfold RuneStart, isCont. apply N.ltb_lt in H.
  destruct (128 <=? b2n a)%N eqn:E; [apply N.leb_le in E; lia|reflexivity].
Qed.

Lemma decodeRune_ascii (a : ascii) (t : bytes) :
  (b2n a <? 128)%N = true -> decodeRune (a :: t) = (b2n a, 1).
Proof. intros H. unfold decodeRune. now rewrite H. Qed.

(** Behind an ASCII byte the last rune is the one of the bytes after it, or
    an error. *)
Lemma decodeLastRune_behind_ascii (r : bytes) (a : ascii) (y : bytes) :
  r <> [] -> (b2n a <? 128)%N = true ->
  decodeLastRune (r ++ a :: y) = decodeLastRune r
  \/ decodeLastRune (r ++ a :: y) = (RuneError, 1).
Proof.
  intros Hr Ha. pose proof (ascii_not_cont a Ha) as Hs.
  destruct r as [|c0 r]; [congruence|]. clear Hr.
  unfold decodeLastRune. cbn [app].
  destruct (b2n c0 <? 128)%N; [now left|].
  destruct r as [|c1 r]; cbn [app].
  { rewrite Hs. right. cbn [rev app]. rewrite decodeRune_ascii by assumption. reflexivity. }
  destruct (RuneStart c1); [now left|].
  destruct r as [|c2 r]; cbn [app].
  { rewrite Hs. right. cbn [rev app]. rewrite decodeRune_ascii by assumption. reflexivity. }
  destruct (RuneStart c2); [now left|].
  destruct r as [|c3 r]; cbn [app].
  { rewrite Hs. right. cbn [rev app]. rewrite decodeRune_ascii by assumption. reflexivity. }
  destruct (RuneStart c3); [now left|].
  destruct r as [|c4 r]; cbn [app].
  { right. cbn [rev app]. rewrite decodeRune_ascii by assumption. reflexivity. }
  now left.
Qed.

Lemma unstr_inj (a b : string) : unstr a = unstr b -> a = b.
Proof. intros H. rewrite <- (str_unstr a), <- (str_unstr b). now rewrite H. Qed.

Lemma trimLeft_id (c : ascii) (t : bytes) :
  (b2n c <? 128)%N = true -> asciiSpace c = false ->
  trimLeftSpace (c :: t) = c :: t.
Proof. intros H1 H2. cbn [trimLeftSpace]. now rewrite H1, H2. Qed.

Lemma trimRight_id (r : bytes) :
  isSpaceRune (fst (decodeLastRune r)) = false -> trimRightSpaceRev r = r.
Proof.
  intros H. destruct r as [|c0 r1]; [reflexivity|].
  cbn [trimRightSpaceRev].
  destruct (decodeLastRune (c0 :: r1)) as [x sz]. cbn [fst] in H. rewrite H.
  destruct sz as [|[|[|[|sz]]]]; try reflexivity;
    destruct r1 as [|c1 [|c2 r3]]; reflexivity.
Qed.

Lemma trimRight_space (r : bytes) :
  trimRightSpaceRev (" "%char :: r) = trimRightSpaceRev r.
Proof. reflexivity. Qed.

Lemma TrimSpace_trailing (b : string) :
  okStart b -> endsInSpace b = false -> TrimSpace (b +++ " ") = b.
Proof.
  intros (c & t & -> & Hc & Hs) He. unfold TrimSpace.
  rewrite unstr_app. cbn [unstr list_ascii_of_string app].
  fold (unstr t). rewrite trimLeft_id by assumption.
  change (c :: unstr t ++ [" "%char]) with ((c :: unstr t) ++ [" "%char]).
  rewrite rev_unit, trimRight_space.
  unfold endsInSpace in He. cbn [unstr list_ascii_of_string] in He. fold (unstr t) in He.
  rewrite trimRight_id by assumption.
  rewrite rev_involutive. apply (str_unstr (String c t)).
Qed.

Lemma okEnd_ascii (y : string) (d : ascii) :
  (b2n d <? 128)%N = true -> isSpaceRune (b2n d) = false ->
  okEnd (y +++ String d "").
Proof.
  intros Hd Hs x. unfold endsInSpace.
  rewrite !unstr_app. cbn [unstr list_ascii_of_string].
  rewrite (app_assoc (unstr x) (unstr y) [d]), rev_unit.
  unfold decodeLastRune. now rewrite Hd.
Qed.

Lemma okEnd_after_eq (y cp : string) :
  cp <> "" -> endsInSpace cp = false -> okEnd (y +++ "=" +++ cp).
Proof.
  intros Hne He x. unfold endsInSpace in *.
  rewrite !unstr_app. cbn [unstr list_ascii_of_string app]. fold (unstr cp).
  rewrite (app_assoc (unstr x) (unstr y)), rev_app_distr.
  cbn [rev]. rewrite <- app_assoc. cbn [app].
  destruct (decodeLastRune_behind_ascii (rev (unstr cp)) "="%char
              (rev (unstr x ++ unstr y))) as [E|E]; try reflexivity.
  - intros E. apply (f_equal (@rev ascii)) in E. rewrite rev_involutive in E.
    cbn in E. apply Hne. apply unstr_inj. exact E.
  - rewrite E. exact He.
  - rewrite E. reflexivity.
Qed.

Lemma digit_ascii (d : ascii) :
  isDigit d = true -> (b2n d <? 128)%N = true /\ isSpaceRune (b2n d) = false.
Proof.
  unfold isDigit. intros H. apply andb_true_iff in H as [H1 H2].
  apply N.leb_le in H1, H2. split; [apply N.ltb_lt; lia|].
  unfold isSpaceRune, unicodeSpaceRunes. cbn [existsb].
  repeat match goal with
         | |- context [(b2n d =? ?k)%N] =>
           let E := fresh in
           destruct (N.eqb_spec (b2n d) k) as [E|E]; [lia|]
         end.
  reflexivity.
Qed.

Lemma string_of_uint_last (d : Decimal.uint) :
  d <> Decimal.Nil ->
  exists y c, NilEmpty.string_of_uint d = y +++ String c "" /\ isDigit c = true.
Proof.
  induction d as [|d IH|d IH|d IH|d IH|d IH|d IH|d IH|d IH|d IH|d IH];
    intros Hn; [congruence| ..];
    (destruct (Decimal.uint_eq_dec d Decimal.Nil) as [->|Hd];
     [ eexists "", _; split; [reflexivity|reflexivity]
     | destruct (IH Hd) as (y & c & E & Hc); cbn [NilEmpty.string_of_uint];
       rewrite E; eexists (String _ y), c; split; [reflexivity|exact Hc] ]).
Qed.

Lemma formatInt_last (n : Z) :
  exists y c, formatInt n = y +++ String c "" /\ isDigit c = true.
Proof.
  unfold formatInt, NilZero.string_of_int.
  assert (H : forall d, exists y c,
             NilZero.string_of_uint d = y +++ String c "" /\ isDigit c = true).
  { intros d. unfold NilZero.string_of_uint.
    destruct (Decimal.uint_eq_dec d Decimal.Nil) as [->|Hd].
    - exists "", "0"%char. split; reflexivity.
    - destruct (string_of_uint_last d Hd) as (y & c & E & Hc).
      exists y, c. split; [|exact Hc]. destruct d; [congruence|exact E ..]. }
  destruct (Z.to_int n) as [d|d].
  - apply H.
  - destruct (H d) as (y & c & E & Hc). rewrite E.
    exists (String "-" y), c. split; [reflexivity|exact Hc].
Qed.

Lemma append_assoc' (a b c : string) : (a +++ b) +++ c = a +++ b +++ c.
Proof. apply unstr_inj. rewrite !unstr_app. now rewrite app_assoc. Qed.

Lemma append_nil_r' (a : string) : a +++ "" = a.
Proof. apply unstr_inj. rewrite unstr_app. apply app_nil_r. Qed.

Lemma spaced_cons (p : string) (ps : list string) :
  spaced (p :: ps) = (p +++ " ") +++ spaced ps.
Proof.
  unfold spaced. cbn [map String.concat].
  destruct (map (fun p0 => p0 +++ " ") ps) eqn:E.
  - cbn. now rewrite append_nil_r'.
  - reflexivity.
Qed.

Lemma spaced_app (ps qs : list string) :
  spaced (ps ++ qs) = spaced ps +++ spaced qs.
Proof.
  induction ps as [|p ps IH]; [reflexivity|].
  cbn [app]. rewrite !spaced_cons, IH. now rewrite !append_assoc'.
Qed.

Lemma spaced_concat (ps : list string) :
  ps <> [] -> spaced ps = String.concat " " ps +++ " ".
Proof.
  induction ps as [|p [|q r] IH]; intros Hne; [congruence| |].
  - rewrite spaced_cons. cbn. now rewrite append_nil_r'.
  - rewrite spaced_cons, IH by discriminate.
    cbn [String.concat]. now rewrite !append_assoc'.
Qed.

Lemma CmdString_field_spaced (s tag : string) (v : fieldValue) :
  tag <> "" ->
  CmdString_field s (tag, v) = s +++ spaced (renderField (tag, v)).
Proof.
  intros Ht. unfold CmdString_field, renderField. cbn [fst snd].
  apply String.eqb_neq in Ht. rewrite Ht.
  destruct v as [[[|]|]|[n|]|x]; cbn [IsZero renderBool];
    try (cbn; now rewrite ?append_nil_r', ?append_assoc').
  destruct (x =? "")%string; cbn; now rewrite ?append_nil_r', ?append_assoc'.
Qed.

Lemma CmdString_loop_spaced (fs : list (string * fieldValue)) (s : string) :
  Forall (fun f => fst f <> "") fs ->
  fold_left CmdString_field fs s = s +++ spaced (List.concat (map renderField fs)).
Proof.
  intros H. revert s. induction H as [|[tag v] fs Ht _ IH]; intros s.
  - cbn. now rewrite append_nil_r'.
  - cbn [fold_left map List.concat]. rewrite IH, CmdString_field_spaced by exact Ht.
    now rewrite spaced_app, !append_assoc'.
Qed.

Lemma renderedFields_fields (o : OcrArgs) :
  renderedFields o = List.concat (map renderField (structFields o)).
Proof.
  unfold renderedFields, structFields, renderField. cbn [map List.concat fst snd].
  destruct (LimitSideLen o); destruct (ConfigPath o =? "")%string;
    cbn; now rewrite ?app_nil_r.
Qed.

Lemma CmdString_loop (o : OcrArgs) :
  fold_left CmdString_field (structFields o) "" = spaced (renderedFields o).
Proof.
  rewrite CmdString_loop_spaced, renderedFields_fields; [reflexivity|].
  unfold structFields. repeat constructor; discriminate.
Qed.

Lemma isSpaceRune_ascii (c : ascii) :
  (b2n c <? 128)%N = true -> isSpaceRune (b2n c) = asciiSpace c.
Proof.
  intros H. apply N.ltb_lt in H. unfold isSpaceRune, asciiSpace.
  replace (existsb (N.eqb (b2n c)) unicodeSpaceRunes) with false;
    [now rewrite orb_false_r|].
  unfold unicodeSpaceRunes. cbn [existsb].
  repeat match goal with
         | |- context [(b2n c =? ?k)%N] =>
           let E := fresh in
           destruct (N.eqb_spec (b2n c) k) as [E|E]; [lia|]
         end.
  reflexivity.
Qed.

Lemma concat_okStart (p : string) (rest : list string) :
  okStart p -> okStart (String.concat " " (p :: rest)).
Proof.
  intros (c & t & -> & Hc & Hs). cbn [String.concat].
  destruct rest; [now exists c, t|].
  eexists c, _. split; [reflexivity|]. now split.
Qed.

Lemma concat_okEnd (ps : list string) :
  ps <> [] -> Forall okEnd ps -> okEnd (String.concat " " ps).
Proof.
  induction ps as [|p [|q r] IH]; intros Hne H; [congruence| |].
  - now inversion H.
  - inversion H as [|? ? _ H']; subst. intros x.
    change (String.concat " " (p :: q :: r))
      with (p +++ " " +++ String.concat " " (q :: r)).
    rewrite <- !append_assoc'. apply IH; [discriminate|exact H'].
Qed.

Lemma renderBool_ok (name : string) (p : option bool) :
  okStart name ->
  Forall (fun s => okStart s /\ okEnd s) (renderBool name p).
Proof.
  intros (c & t & -> & Hc & Hs).
  destruct p as [[|]|]; cbn [renderBool]; repeat constructor.
  - eexists c, _. split; [reflexivity|now split].
  - change (okEnd (String c t +++ "=" +++ String "1" "")).
    rewrite <- append_assoc'. now apply okEnd_ascii.
  - eexists c, _. split; [reflexivity|now split].
  - change (okEnd (String c t +++ "=" +++ String "0" "")).
    rewrite <- append_assoc'. now apply okEnd_ascii.
Qed.

Lemma renderedFields_ok (o : OcrArgs) :
  endsInSpace (ConfigPath o) = false ->
  Forall (fun s => okStart s /\ okEnd s) (renderedFields o).
Proof.
  intros He. unfold renderedFields.
  assert (Hs : forall c t, (b2n c <? 128)%N = true -> asciiSpace c = false ->
                           okStart (String c t)) by (intros c t ? ?; now exists c, t).
  repeat apply Forall_app_2.
  - apply renderBool_ok, Hs; reflexivity.
  - apply renderBool_ok, Hs; reflexivity.
  - destruct (LimitSideLen o) as [n|]; repeat constructor.
    + apply Hs; reflexivity.
    + destruct (formatInt_last n) as (y & c & -> & Hc).
      destruct (digit_ascii c Hc) as [H1 H2].
      exact (okEnd_ascii ("limit_side_len=" +++ y) c H1 H2).
  - apply renderBool_ok, Hs; reflexivity.
  - destruct (ConfigPath o =? "")%string eqn:E; repeat constructor.
    + apply Hs; reflexivity.
    + apply String.eqb_neq in E.
      exact (okEnd_after_eq "config_path" (ConfigPath o) E He).
Qed.

(** [strings.TrimSpace] in general: what is left does not end in white
    space. *)
Lemma wide_rune_no_space (x : N) : (65536 <= x)%N -> isSpaceRune x = false.
Proof.
  intros H. unfold isSpaceRune, unicodeSpaceRunes. cbn [existsb].
  repeat match goal with
         | |- context [(x =? ?k)%N] =>
           let E := fresh in
           destruct (N.eqb_spec x k) as [E|E]; [lia|]
         end.
  reflexivity.
Qed.

Lemma decodeRune_width (l : bytes) (x : N) (k : nat) :
  decodeRune l = (x, k) ->
  k <= 4 /\ (k = 0 \/ k = 4 -> isSpaceRune x = false).
Proof.
  unfold decodeRune. cbv zeta.
  repeat case_match; intros [= <- <-]; (split; [lia|]);
    intros [Hk|Hk]; try discriminate Hk; try reflexivity.
  all: apply wide_rune_no_space.
  all: repeat match goal with
         | H : (_ && _)%bool = true |- _ => apply andb_prop in H; destruct H
         | H : (_ <=? _)%N = true |- _ => apply N.leb_le in H
         | H : (_ =? _)%N = false |- _ => apply N.eqb_neq in H
         | H : (_ =? _)%N = true |- _ => apply N.eqb_eq in H
         end; lia.
Qed.

Lemma decodeLastRune_width (r : bytes) (x : N) (k : nat) :
  decodeLastRune r = (x, k) ->
  k <= length r /\ (k <> 1 -> k <> 2 -> k <> 3 -> isSpaceRune x = false).
Proof.
  assert (Htry : forall window : bytes,
    window <> [] -> length window <= length r ->
    (let (x0, sz) := decodeRune (rev window) in
     if Nat.eqb sz (length window) then (x0, sz) else (RuneError, 1)) = (x, k) ->
    r <> [] ->
    k <= length r /\ (k <> 1 -> k <> 2 -> k <> 3 -> isSpaceRune x = false)).
  { intros window Hw Hl H Hr.
    destruct (decodeRune (rev window)) as [x0 sz] eqn:E.
    destruct (Nat.eqb_spec sz (length window)) as [Hs|Hs]; injection H as <- <-.
    - split; [lia|]. intros H1 H2 H3.
      destruct (decodeRune_width _ _ _ E) as [H4 Hsp]. apply Hsp.
      destruct window; [congruence|]. cbn in Hs. lia.
    - split; [destruct r; [congruence|cbn; lia]|]. congruence. }
  unfold decodeLastRune. destruct r as [|c0 t0].
  { intros [= <- <-]. split; [cbn; lia|reflexivity]. }
  destruct (b2n c0 <? 128)%N.
  { intros [= <- <-]. split; [cbn; lia|congruence]. }
  destruct t0 as [|c1 t1]; [intros H; apply (Htry [c0]); try easy; cbn; lia|].
  destruct (RuneStart c1);
    [intros H; apply (Htry [c0; c1]); try easy; cbn; lia|].
  destruct t1 as [|c2 t2];
    [intros H; apply (Htry [c0; c1]); try easy; cbn; lia|].
  destruct (RuneStart c2);
    [intros H; apply (Htry [c0; c1; c2]); try easy; cbn; lia|].
  destruct t2 as [|c3 t3];
    [intros H; apply (Htry [c0; c1; c2]); try easy; cbn; lia|].
  destruct (RuneStart c3);
    [intros H; apply (Htry [c0; c1; c2; c3]); try easy; cbn; lia|].
  destruct t3 as [|c4 t4];
    [intros H; apply (Htry [c0; c1; c2; c3]); try easy; cbn; lia|].
  intros H; apply (Htry [c0; c1; c2; c3; c4]); try easy; cbn; lia.
Qed.

Lemma trimRight_end (r : bytes) :
  isSpaceRune (fst (decodeLastRune (trimRightSpaceRev r))) = false.
Proof.
  assert (H : forall n (r : bytes), length r <= n ->
            isSpaceRune (fst (decodeLastRune (trimRightSpaceRev r))) = false).
  { clear r. induction n as [|n IH]; intros r Hn.
    { destruct r; [reflexivity|cbn in Hn; lia]. }
    destruct r as [|c0 r1]; [reflexivity|]. cbn [trimRightSpaceRev].
    destruct (decodeLastRune (c0 :: r1)) as [x k] eqn:E.
    destruct (decodeLastRune_width _ _ _ E) as [Hk Hsp]. cbn [length] in Hk, Hn.
    destruct k as [|[|[|[|k]]]].
    - rewrite E. apply Hsp; lia.
    - destruct (isSpaceRune x) eqn:Ex; [apply IH; lia|now rewrite E].
    - destruct r1 as [|c1 r2]; [cbn in Hk; lia|].
      destruct (isSpaceRune x) eqn:Ex; [apply IH; cbn in Hn; lia|now rewrite E].
    - destruct r1 as [|c1 [|c2 r3]]; try (cbn in Hk; lia).
      destruct (isSpaceRune x) eqn:Ex; [apply IH; cbn in Hn; lia|now rewrite E].
    - rewrite E. apply Hsp; lia. }
  apply (H (length r)). lia.
Qed.

Lemma trimRight_suffix (r : bytes) : exists k, trimRightSpaceRev r = drop k r.
Proof.
  assert (H : forall n (r : bytes), length r <= n ->
            exists k, trimRightSpaceRev r = drop k r).
  { clear r. induction n as [|n IH]; intros r Hn.
    { destruct r; [now exists 0|cbn in Hn; lia]. }
    destruct r as [|c0 r1]; [now exists 0|]. cbn [trimRightSpaceRev].
    cbn [length] in Hn.
    destruct (decodeLastRune (c0 :: r1)) as [x [|[|[|[|k]]]]];
      try (now exists 0).
    - destruct (isSpaceRune x); [|now exists 0].
      destruct (IH r1 ltac:(lia)) as [k ->]. now exists (S k).
    - destruct r1 as [|c1 r2]; [now exists 0|].
      destruct (isSpaceRune x); [|now exists 0].
      destruct (IH r2 ltac:(cbn in Hn; lia)) as [k ->]. now exists (S (S k)).
    - destruct r1 as [|c1 [|c2 r3]]; try (now exists 0).
      destruct (isSpaceRune x); [|now exists 0].
      destruct (IH r3 ltac:(cbn in Hn; lia)) as [k ->]. now exists (S (S (S k))). }
  apply (H (length r)). lia.
Qed.

Lemma TrimSpace_end (s : string) : endsInSpace (TrimSpace s) = false.
Proof.
  unfold endsInSpace, TrimSpace. rewrite unstr_str, rev_involutive.
  apply trimRight_end.
Qed.

(** Of a string that starts with an ASCII byte that is not white space
    only the end is trimmed. *)
Lemma TrimSpace_start (s : string) :
  okStart s -> startsInSpace (TrimSpace s) = false.
Proof.
  intros (c & t & -> & Hc & Hs). unfold startsInSpace, TrimSpace.
  rewrite unstr_str. cbn [unstr list_ascii_of_string]. fold (unstr t).
  rewrite trimLeft_id by assumption.
  destruct (trimRight_suffix (rev (c :: unstr t))) as [k ->].
  rewrite skipn_rev, rev_involutive.
  destruct (length (c :: unstr t) - k) as [|m]; [reflexivity|].
  cbn [firstn]. rewrite decodeRune_ascii by exact Hc. cbn [fst].
  now rewrite isSpaceRune_ascii.
Qed.

Lemma TrimSpace_after_space (s : string) :
  okStart s -> TrimSpace (s +++ " ") = TrimSpace s.
Proof.
  intros (c & t & -> & Hc & Hs). unfold TrimSpace.
  rewrite unstr_app. cbn [unstr list_ascii_of_string app].
  fold (unstr t). rewrite !trimLeft_id by assumption.
  change (c :: unstr t ++ [" "%char]) with ((c :: unstr t) ++ [" "%char]).
  now rewrite rev_unit, trimRight_space.
Qed.

Lemma renderedFields_start (o : OcrArgs) : Forall okStart (renderedFields o).
Proof.
  assert (Hs : forall c t, (b2n c <? 128)%N = true -> asciiSpace c = false ->
                           okStart (String c t)) by (intros c t ? ?; now exists c, t).
  assert (Hb : forall name p, okStart name -> Forall okStart (renderBool name p)).
  { intros name p H. eapply Forall_impl; [apply renderBool_ok, H|].
    now intros x [Hx _]. }
  unfold renderedFields. repeat apply Forall_app_2.
  - apply Hb, Hs; reflexivity.
  - apply Hb, Hs; reflexivity.
  - destruct (LimitSideLen o); repeat constructor. apply Hs; reflexivity.
  - apply Hb, Hs; reflexivity.
  - destruct (ConfigPath o =? "")%string; repeat constructor.
    apply Hs; reflexivity.
Qed.

(** [CmdString] is the rendering of the fields, trimmed. *)
Lemma CmdString_trimmed (o : OcrArgs) :
  CmdString o = TrimSpace (CmdString_spec o)
  /\ startsInSpace (CmdString o) = false
  /\ endsInSpace (CmdString o) = false.
Proof.
  assert (E : CmdString o = TrimSpace (CmdString_spec o)).
  { unfold CmdString, CmdString_spec. rewrite CmdString_loop.
    pose proof (renderedFields_start o) as Hok.
    destruct (renderedFields o) as [|p ps] eqn:Eps; [reflexivity|].
    rewrite spaced_concat by discriminate.
    apply TrimSpace_after_space, concat_okStart. now inversion Hok. }
  split; [exact E|]. split; [|unfold CmdString; apply TrimSpace_end].
  rewrite E. unfold CmdString_spec.
  pose proof (renderedFields_start o) as Hok.
  destruct (renderedFields o) as [|p ps] eqn:Eps; [reflexivity|].
  apply TrimSpace_start, concat_okStart. now inversion Hok.
Qed.

(** The cases of [TestOcrArgs_CmdString]. *)
Example CmdString_unit_tests :
  let mk a b c d e :=
    {| Cls := a; EnableMkldnn := b; LimitSideLen := c; UseAngleCls := d;
       ConfigPath := e |} in
  map CmdString
    [ mk None None None None "";
      mk (Some false) None None None "";
      mk (Some true) None None None "";
      mk (Some true) (Some true) None None "";
      mk (Some true) (Some true) (Some 0%Z) None "";
      mk (Some true) (Some true) (Some 960%Z) None "";
      mk (Some true) (Some true) (Some 960%Z) (Some true) "";
      mk (Some true) (Some true) (Some 960%Z) (Some true) ConfigChinese ]
  = [ "";
      "cls=0";
      "cls=1";
      "cls=1 enable_mkldnn=1";
      "cls=1 enable_mkldnn=1 limit_side_len=0";
      "cls=1 enable_mkldnn=1 limit_side_len=960";
      "cls=1 enable_mkldnn=1 limit_side_len=960 use_angle_cls=1";
      "cls=1 enable_mkldnn=1 limit_side_len=960 use_angle_cls=1 config_path=models/config_chinese.txt" ].
Proof. vm_compute. reflexivity. Qed.

(** C9, as amended.  For every [OcrArgs], [CmdString] is the rendering of
    the claim (the non-default fields, each as name=value with booleans as
    1 or 0, in declaration order, joined by single spaces) with white space
    trimmed off, and it neither starts nor ends in white space; it is the
    rendering itself whenever [ConfigPath] does not end in white space. *)
Theorem CmdString_renders_fields (o : OcrArgs) :
  CmdString o = TrimSpace (CmdString_spec o)
  /\ startsInSpace (CmdString o) = false
  /\ endsInSpace (CmdString o) = false
  /\ (endsInSpace (ConfigPath o) = false -> CmdString o = CmdString_spec o).
Proof.
  destruct (CmdString_trimmed o) as (Ht & Hs & He).
  repeat split; try assumption.
  intros Hc. unfold CmdString, CmdString_spec. rewrite CmdString_loop.
  pose proof (renderedFields_ok o Hc) as Hok.
  destruct (renderedFields o) as [|p ps] eqn:Eps; [reflexivity|].
  rewrite spaced_concat by discriminate.
  apply TrimSpace_trailing.
  - apply concat_okStart. now inversion Hok.
  - apply (concat_okEnd (p :: ps)) with (x := ""); [discriminate|].
    eapply Forall_impl; [exact Hok|]. now intros s [_ Hx].
Qed.

(** The theorem at the fullest case of the unit test. *)
Lemma CmdString_renders_fields_witness :
  let o := {| Cls := Some true; EnableMkldnn := Some true;
              LimitSideLen := Some 960%Z; UseAngleCls := Some true;
              ConfigPath := ConfigChinese |} in
  endsInSpace (ConfigPath o) = false
  /\ CmdString o = CmdString_spec o.
Proof.
  intros o. split; [reflexivity|].
  apply (CmdString_renders_fields o). reflexivity.
Defined.

(** C9 as stated fails: a [ConfigPath] that ends in a space is rendered
    without it, [strings.TrimSpace] takes it for the separator. *)
Lemma CmdString_trims_config_path :
  let o := {| Cls := None; EnableMkldnn := None; LimitSideLen := None;
              UseAngleCls := None; ConfigPath := "a " |} in
  CmdString o = "config_path=a"
  /\ CmdString_spec o = "config_path=a "
  /\ CmdString o <> CmdString_spec o.
Proof.
  intros o. repeat split; try reflexivity. vm_compute. discriminate.
Qed.

(* ================================================================== *)
(** * Properties of the read loops                                      *)
(* ================================================================== *)

Ltac use_tests :=
  repeat match goal with
         | H : {| pr1 := _; pr2 := _ |} = _ |- _ => clear H
         | H : _ = handshakeLoop _ _ _ |- _ => clear H
         | H : _ = recvLoop _ _ _ |- _ => clear H
         | H : recvLoop _ _ _ = _ |- _ => clear H
         | H : handshakeLoop _ _ _ = _ |- _ => clear H
         end;
  repeat match goal with
         | H : (_ <? _) = _ |- _ => rewrite H
         | H : Read _ _ = _ |- _ => rewrite H
         end;
  repeat match goal with
         | H : _ + _ = _ |- _ => rewrite H in *
         end;
  repeat match goal with
         | H : (_ <=? _) = _ |- _ => rewrite H
         | H : _ !! _ = _ |- _ => rewrite H
         end.

Lemma handshakeLoop_eq (buf : bytes) (start : nat) (s : stream) :
  handshakeLoop buf start s =
  if length buf <? start then HsPanic
  else match Read (length buf - start) s with
       | ReadErr e => HsReadErr e (take start buf) s
       | ReadBlock => HsBlock
       | ReadOk data s' =>
         if length buf <=? start + length data then HsTooLong s'
         else if Contains (take (start + length data) (writeAt buf start data))
                          initMarker
              then HsReady (take (start + length data) (writeAt buf start data)) s'
              else handshakeLoop (writeAt buf start data) (start + length data) s'
       end.
Proof.
  funelim (handshakeLoop buf start s); use_tests; reflexivity.
Qed.

Lemma recvLoop_eq (content : bytes) (start : nat) (s : stream) :
  recvLoop content start s =
  if length content <? start then RecvPanic
  else match Read (length content - start) s with
       | ReadErr e => RecvErr e s
       | ReadBlock => RecvBlock
       | ReadOk data s' =>
         let content' := if length content <=? start + length data
                         then writeAt content start data ++ makeBytes recvBufSize
                         else writeAt content start data in
         match start + length data with
         | 0 => RecvPanic
         | S i =>
           match content' !! i with
           | None => RecvPanic
           | Some c =>
             if Ascii.eqb c newline
             then RecvOk (take (S i) content') s'
             else recvLoop content' (S i) s'
           end
         end
       end.
Proof.
  funelim (recvLoop content start s); use_tests; reflexivity.
Qed.

Lemma initBufSize_pos : 0 < initBufSize.
Proof. unfold initBufSize. lia. Qed.

Lemma Read_cons (cap : nat) (c : bytes) (rest : list bytes) (e : option error) :
  cap <> 0 ->
  Read cap {| chunks := c :: rest; ending := e |} =
  if length c <=? cap
  then ReadOk c {| chunks := rest; ending := e |}
  else ReadOk (take cap c) {| chunks := drop cap c :: rest; ending := e |}.
Proof. destruct cap; [congruence|reflexivity]. Qed.

Lemma Read_nil (cap : nat) (e : option error) :
  cap <> 0 ->
  Read cap {| chunks := []; ending := e |} =
  match e with
  | Some err => ReadErr err
  | None => ReadBlock
  end.
Proof. destruct cap; [congruence|reflexivity]. Qed.

Lemma take_writeAt (buf : bytes) (start : nat) (data : bytes) :
  start <= length buf ->
  take (start + length data) (writeAt buf start data) = take start buf ++ data.
Proof.
  intros H. unfold writeAt. rewrite app_assoc.
  apply take_app_length'. rewrite length_app, length_take. lia.
Qed.

Lemma handshakeLoop_ready (cs : list bytes) :
  forall (e : option error) (buf : bytes) (start : nat),
    length buf = initBufSize -> start < initBufSize ->
    Contains (take start buf) initMarker = false ->
    (exists seen rest,
        handshakeLoop buf start {| chunks := cs; ending := e |} = HsReady seen rest)
    <->
    (exists n, n <= length cs
               /\ start + length (concat (take n cs)) < initBufSize
               /\ Contains (take start buf ++ concat (take n cs)) initMarker = true).
Proof.
  induction cs as [|c rest IH]; intros e buf start Hlen Hstart Hacc;
    rewrite handshakeLoop_eq;
    (replace (length buf <? start) with false
      by (symmetry; apply Nat.ltb_ge; lia)).
  - rewrite Read_nil by lia. split.
    + intros (seen & r & H). destruct e; discriminate.
    + intros (n & _ & _ & H). rewrite take_nil in H. cbn [concat] in H.
      rewrite app_nil_r in H. congruence.
  - rewrite Read_cons by lia.
    destruct (length c <=? length buf - start) eqn:Ecap.
    + apply Nat.leb_le in Ecap.
      destruct (length buf <=? start + length c) eqn:Efull.
      * apply Nat.leb_le in Efull. split.
        -- intros (seen & r & H). discriminate.
        -- intros ([|n] & _ & Hn & Hc).
           ++ cbn [take concat] in Hc. rewrite app_nil_r in Hc. congruence.
           ++ cbn [take concat] in Hn. rewrite length_app in Hn. lia.
      * apply Nat.leb_gt in Efull.
        rewrite take_writeAt by lia.
        destruct (Contains (take start buf ++ c) initMarker) eqn:Ec.
        -- split; [|intros _; eauto].
           intros _. exists 1. cbn [take concat length]. rewrite app_nil_r.
           repeat split; [lia|lia|exact Ec].
        -- rewrite <- (take_writeAt buf start c) in Ec by lia.
           rewrite (IH e (writeAt buf start c) (start + length c));
             [|rewrite length_writeAt; lia|lia|exact Ec].
           rewrite take_writeAt by lia.
           split.
           ++ intros (n & Hn & Hl & Hc). exists (S n). cbn [take concat length].
              rewrite length_app, app_assoc. repeat split; [lia|lia|exact Hc].
           ++ intros ([|n] & Hn & Hl & Hc).
              ** cbn [take concat] in Hc. rewrite app_nil_r in Hc. congruence.
              ** cbn [take concat length] in Hn, Hl, Hc.
                 rewrite length_app in Hl. rewrite app_assoc in Hc.
                 exists n. repeat split; [lia|lia|exact Hc].
    + apply Nat.leb_gt in Ecap.
      rewrite length_take.
      replace (length buf <=? start + (length buf - start) `min` length c)
        with true by (symmetry; apply Nat.leb_le; lia).
      split.
      * intros (seen & r & H). discriminate.
      * intros ([|n] & _ & Hn & Hc).
        -- cbn [take concat] in Hc. rewrite app_nil_r in Hc. congruence.
        -- cbn [take concat] in Hn. rewrite length_app in Hn. lia.
Qed.

Lemma take_makeBytes_0 (n : nat) : take 0 (makeBytes n) = [].
Proof. reflexivity. Qed.

Lemma handshake_ready_iff (s : stream) :
  (exists seen rest, handshake s = HsReady seen rest) <-> markerSeen s.
Proof.
  unfold handshake, markerSeen, seenAfter. destruct s as [cs e]. cbn [chunks].
  rewrite handshakeLoop_ready.
  - rewrite take_makeBytes_0. cbn [app plus]. reflexivity.
  - unfold makeBytes. apply length_replicate.
  - apply initBufSize_pos.
  - reflexivity.
Qed.

(** The loop never panics; it reports a read error only when the stream
    ends in that error, and waits for ever only on a stream that does not
    end. *)
Lemma handshakeLoop_fails (cs : list bytes) :
  forall (e : option error) (buf : bytes) (start : nat),
    length buf = initBufSize -> start < initBufSize ->
    match handshakeLoop buf start {| chunks := cs; ending := e |} with
    | HsPanic => False
    | HsReadErr err _ _ => e = Some err
    | HsBlock => e = None
    | _ => True
    end.
Proof.
  induction cs as [|c rest IH]; intros e buf start Hlen Hstart;
    rewrite handshakeLoop_eq;
    (replace (length buf <? start) with false
      by (symmetry; apply Nat.ltb_ge; lia)).
  - rewrite Read_nil by lia. now destruct e.
  - rewrite Read_cons by lia.
    destruct (length c <=? length buf - start) eqn:Ecap.
    + apply Nat.leb_le in Ecap.
      destruct (length buf <=? start + length c) eqn:Efull; [exact I|].
      apply Nat.leb_gt in Efull.
      destruct (Contains _ initMarker); [exact I|].
      apply IH; [rewrite length_writeAt; lia|lia].
    + apply Nat.leb_gt in Ecap. rewrite length_take.
      replace (length buf <=? start + (length buf - start) `min` length c)
        with true by (symmetry; apply Nat.leb_le; lia).
      exact I.
Qed.

Lemma initPpocr_started (l : Launch) (exe : string) (a : OcrArgs) (p : Ppocr) :
  stdinPipeErr l = None -> stdoutPipeErr l = None -> startErr l = None ->
  exitInInit l = None ->
  initPpocr l exe a p =
  match handshake (output l) with
  | HsPanic => Panic "slice bounds out of range" (started l exe a p)
  | HsBlock => Block (started l exe a p)
  | HsReadErr e seen rest =>
    Ret (Some (Errorf ("OCR init failed, error: " +++ errorString e
                       +++ ", output: " +++ str seen +++ " " +++ stderrText l)))
        (setCmdStdout (Some rest) (started l exe a p))
  | HsTooLong rest =>
    Ret (Some (Errorf "OCR init failed: output too long"))
        (setCmdStdout (Some rest) (started l exe a p))
  | HsReady seen rest =>
    Ret None (setCmdStdout (Some rest) (started l exe a p))
  end.
Proof.
  intros H1 H2 H3 H4. unfold initPpocr. rewrite H1, H2, H3, H4.
  unfold bind, modify, ret, get, block, panic, started.
  destruct (handshake (output l)); reflexivity.
Qed.

(** C8.  Once the worker is started and while it is running, [initPpocr]
    succeeds if and only if, after some read, what the worker has written
    holds the marker and is less than the 4096-byte buffer; otherwise it
    fails with an init error (the stream ended, or the buffer was used
    up), or it waits for ever on a stream that neither ends nor says
    more. *)
Theorem initPpocr_handshake (l : Launch) (exe : string) (a : OcrArgs) (p : Ppocr) :
  stdinPipeErr l = None -> stdoutPipeErr l = None -> startErr l = None ->
  exitInInit l = None ->
  ((exists p', initPpocr l exe a p = Ret None p') <-> markerSeen (output l))
  /\ (~ markerSeen (output l) ->
      (exists msg p', initPpocr l exe a p = Ret (Some (Errorf msg)) p')
      \/ (ending (output l) = None
          /\ exists p', initPpocr l exe a p = Block p')).
Proof.
  intros H1 H2 H3 H4. rewrite (initPpocr_started l exe a p H1 H2 H3 H4).
  pose proof (handshake_ready_iff (output l)) as Hiff.
  pose proof (handshakeLoop_fails (chunks (output l)) (ending (output l))
                (makeBytes initBufSize) 0) as Hf.
  unfold handshake in *. destruct (output l) as [cs e]. cbn [chunks ending] in *.
  specialize (Hf (length_replicate _ _) initBufSize_pos).
  destruct (handshakeLoop (makeBytes initBufSize) 0 {| chunks := cs; ending := e |})
    as [seen rest|err seen rest|rest| |].
  - split; [|intros Hn; exfalso; apply Hn, Hiff; eauto].
    split; [intros _; apply Hiff; eauto|intros _; eauto].
  - split; [|intros _; left; eauto].
    split; [intros (p' & E); discriminate|].
    intros Hm. apply Hiff in Hm as (? & ? & E). discriminate.
  - split; [|intros _; left; eauto].
    split; [intros (p' & E); discriminate|].
    intros Hm. apply Hiff in Hm as (? & ? & E). discriminate.
  - split; [|intros _; right; eauto].
    split; [intros (p' & E); discriminate|].
    intros Hm. apply Hiff in Hm as (? & ? & E). discriminate.
  - contradiction.
Qed.

Lemma room_pos (acc : bytes) : room acc <> 0.
Proof.
  unfold room. pose proof recvBufSize_pos.
  pose proof (Nat.mod_upper_bound (length acc) recvBufSize). lia.
Qed.

Opaque recvBufSize.

Equations? recvSpec (acc : bytes) (s : stream) : recvResult
  by wf (streamSize s) lt :=
  recvSpec acc s with inspect (Read (room acc) s) := {
    | exist _ (ReadErr e) Hq1 => RecvErr e s
    | exist _ (ReadBlock) Hq2 => RecvBlock
    | exist _ (ReadOk data s') Hr =>
      if endsInNewline (acc ++ data)
      then RecvOk (acc ++ data) s'
      else recvSpec (acc ++ data) s' }.
Proof. eapply Read_progress; [apply room_pos|exact Hr]. Qed.

Transparent recvBufSize.

Lemma recvSpec_eq (acc : bytes) (s : stream) :
  recvSpec acc s =
  match Read (room acc) s with
  | ReadErr e => RecvErr e s
  | ReadBlock => RecvBlock
  | ReadOk data s' =>
    if endsInNewline (acc ++ data)
    then RecvOk (acc ++ data) s'
    else recvSpec (acc ++ data) s'
  end.
Proof.
  funelim (recvSpec acc s);
    repeat match goal with
           | H : {| pr1 := _; pr2 := _ |} = _ |- _ => clear H
           | H : _ = recvSpec _ _ |- _ => clear H
           | H : recvSpec _ _ = _ |- _ => clear H
           end;
    match goal with H : Read _ _ = _ |- _ => rewrite H end; reflexivity.
Qed.

Lemma Read_ok (cap : nat) (s : stream) (data : bytes) (s' : stream) :
  cap <> 0 -> Read cap s = ReadOk data s' ->
  data ++ flat s' = flat s /\ ending s' = ending s
  /\ length data <= cap
  /\ (Forall nonempty (chunks s) -> data <> [] /\ Forall nonempty (chunks s')).
Proof.
  intros Hc. destruct s as [[|c rest] e].
  - rewrite Read_nil by exact Hc. destruct e; discriminate.
  - rewrite Read_cons by exact Hc. unfold flat. cbn [chunks ending concat].
    destruct (length c <=? cap) eqn:E; intros [= <- <-]; cbn [chunks ending concat].
    + apply Nat.leb_le in E.
      split; [reflexivity|]. split; [reflexivity|]. split; [exact E|].
      intros Hne. inversion Hne; subst. now split.
    + apply Nat.leb_gt in E. rewrite app_assoc, take_drop.
      split; [reflexivity|]. split; [reflexivity|].
      split; [rewrite length_take; lia|]. intros Hne. split.
      * intros H. apply (f_equal length) in H. rewrite length_take in H.
        cbn in H. lia.
      * inversion Hne; subst. constructor; [|assumption].
        intros H. apply (f_equal length) in H. rewrite length_drop in H.
        cbn in H. lia.
Qed.

Lemma Read_err (cap : nat) (s : stream) (e : error) :
  cap <> 0 -> Read cap s = ReadErr e -> chunks s = [] /\ ending s = Some e.
Proof.
  intros Hc. destruct s as [[|c rest] [e'|]]; rewrite ?Read_nil, ?Read_cons by exact Hc;
    try discriminate.
  - intros [= ->]. now split.
  - destruct (length c <=? cap); discriminate.
  - destruct (length c <=? cap); discriminate.
Qed.

Lemma holds_room (content : bytes) (start : nat) (acc : bytes) :
  holds content start acc ->
  length content - start = room acc /\ start < length content.
Proof.
  intros (_ & Hl & q & Hc & Hq). unfold room. rewrite Hl.
  assert (start - recvBufSize * q = start mod recvBufSize) as <-.
  { apply (Nat.mod_unique start recvBufSize q); lia. }
  lia.
Qed.

Lemma holds_next (content : bytes) (start : nat) (acc data : bytes) :
  holds content start acc -> length data <= length content - start ->
  holds (if length content <=? start + length data
         then writeAt content start data ++ makeBytes recvBufSize
         else writeAt content start data)
        (start + length data) (acc ++ data).
Proof.
  intros (Ht & Hl & q & Hc & Hq) Hd.
  assert (Hw : length (writeAt content start data) = length content)
    by (apply length_writeAt; lia).
  assert (Htk : take (start + length data) (writeAt content start data) = acc ++ data)
    by (rewrite take_writeAt by lia; now rewrite Ht).
  destruct (length content <=? start + length data) eqn:E.
  - apply Nat.leb_le in E. split; [|split].
    + rewrite take_app_le by lia. exact Htk.
    + rewrite length_app. lia.
    + exists (q + 1). rewrite length_app, Hw. unfold makeBytes.
      rewrite length_replicate. lia.
  - apply Nat.leb_gt in E. split; [exact Htk|split].
    + rewrite length_app. lia.
    + exists q. rewrite Hw. lia.
Qed.

Lemma holds_last (content : bytes) (i : nat) (acc : bytes) :
  holds content (S i) acc -> content !! i = last acc.
Proof.
  intros (Ht & Hl & _). rewrite last_lookup, Hl. cbn [pred].
  rewrite <- Ht. symmetry. apply lookup_take_lt. lia.
Qed.

Lemma recvLoop_refines (n : nat) :
  forall (s : stream) (content : bytes) (start : nat) (acc : bytes),
    streamSize s < n -> Forall nonempty (chunks s) ->
    holds content start acc ->
    recvLoop content start s = recvSpec acc s.
Proof.
  induction n as [|n IH]; intros s content start acc Hn Hne Hh; [lia|].
  rewrite recvLoop_eq, recvSpec_eq.
  destruct (holds_room _ _ _ Hh) as [Hroom Hlt].
  replace (length content <? start) with false by (symmetry; apply Nat.ltb_ge; lia).
  rewrite Hroom.
  destruct (Read (room acc) s) as [data s'| |] eqn:R; try reflexivity.
  destruct (Read_ok _ _ _ _ (room_pos acc) R) as (_ & _ & Hd & Hne').
  destruct (Hne' Hne) as [Hdata Hs'].
  pose proof (Read_progress _ _ _ _ (room_pos acc) R) as Hprog.
  rewrite <- Hroom in Hd.
  pose proof (holds_next content start acc data Hh Hd) as Hnext.
  cbv zeta.
  destruct (start + length data) as [|i] eqn:Ei.
  { destruct data; [congruence|cbn in Ei; lia]. }
  pose proof (holds_last _ _ _ Hnext) as Hlast. unfold bytes in *.
  rewrite Hlast.
  unfold endsInNewline.
  destruct (last (acc ++ data)) as [c|] eqn:El.
  - destruct (Ascii.eqb c newline).
    + f_equal. now destruct Hnext as [-> _].
    + apply IH; [lia|exact Hs'|exact Hnext].
  - apply last_None in El. destruct acc, data; cbn in El; congruence.
Qed.

Lemma holds_fresh : holds (makeBytes recvBufSize) 0 [].
Proof.
  split; [reflexivity|]. split; [reflexivity|]. exists 0.
  unfold makeBytes. rewrite length_replicate. pose proof recvBufSize_pos. lia.
Qed.

Lemma recvSpec_result (n : nat) :
  forall (s : stream) (acc : bytes),
    streamSize s < n ->
    match recvSpec acc s with
    | RecvOk line rest =>
      exists rd, line = acc ++ rd /\ rd ++ flat rest = flat s
                 /\ endsInNewline line = true
    | RecvErr e rest => ending s = Some e /\ chunks rest = []
    | RecvBlock => ending s = None
    | RecvPanic => False
    end.
Proof.
  induction n as [|n IH]; intros s acc Hn; [lia|].
  rewrite recvSpec_eq.
  destruct (Read (room acc) s) as [data s'|e|] eqn:R.
  - destruct (Read_ok _ _ _ _ (room_pos acc) R) as (Hf & He & _ & _).
    pose proof (Read_progress _ _ _ _ (room_pos acc) R) as Hprog.
    destruct (endsInNewline (acc ++ data)) eqn:En.
    + exists data. now repeat split.
    + specialize (IH s' (acc ++ data) ltac:(lia)).
      destruct (recvSpec (acc ++ data) s') as [line rest|e rest| |].
      * destruct IH as (rd & -> & Hrd & Hnl). exists (data ++ rd).
        rewrite <- app_assoc in Hnl. rewrite <- !app_assoc.
        repeat split; [|exact Hnl]. now rewrite Hrd.
      * destruct IH as [IH1 IH2]. split; [congruence|exact IH2].
      * congruence.
      * exact IH.
  - destruct (Read_err _ _ _ (room_pos acc) R) as [Hc He]. now split.
  - destruct s as [[|c rest] [e|]]; rewrite ?Read_nil, ?Read_cons in R by apply room_pos;
      try discriminate; try reflexivity;
      destruct (length c <=? room acc); discriminate.
Qed.

(** C7.  On a pipe that delivers at least one byte at every read, the
    receive loop of [ocr] does what the loop without a buffer does: it
    adds up what the reads return, nothing lost and nothing written over
    when the buffer grows, stops exactly when the last byte read is a
    newline and returns all of it, the newline included; a read error is
    returned at once. *)
Theorem receive_accumulates (s : stream) :
  Forall nonempty (chunks s) ->
  receive s = recvSpec [] s
  /\ match receive s with
     | RecvOk line rest =>
       line ++ flat rest = flat s /\ endsInNewline line = true
     | RecvErr e rest => ending s = Some e /\ chunks rest = []
     | RecvBlock => ending s = None
     | RecvPanic => False
     end.
Proof.
  intros Hne.
  assert (E : receive s = recvSpec [] s).
  { unfold receive.
    apply (recvLoop_refines (S (streamSize s))); [lia|exact Hne|apply holds_fresh]. }
  split; [exact E|]. rewrite E.
  pose proof (recvSpec_result (S (streamSize s)) s [] ltac:(lia)) as H.
  destruct (recvSpec [] s) as [line rest|e rest| |]; try exact H.
  destruct H as (rd & -> & Hrd & Hnl). now split.
Qed.

(* ================================================================== *)
(** * What the read loops leave in the pipe                             *)
(* ================================================================== *)

Lemma recvSpec_keeps (n : nat) :
  forall (s : stream) (acc : bytes),
    streamSize s < n -> Forall nonempty (chunks s) ->
    match recvSpec acc s with
    | RecvOk _ rest | RecvErr _ rest =>
      Forall nonempty (chunks rest) /\ ending rest = ending s
    | _ => True
    end.
Proof.
  induction n as [|n IH]; intros s acc Hn Hne; [lia|].
  rewrite recvSpec_eq.
  destruct (Read (room acc) s) as [data s'|e|] eqn:R; [|now split|exact I].
  destruct (Read_ok _ _ _ _ (room_pos acc) R) as (_ & He & _ & Hk).
  destruct (Hk Hne) as [_ Hs'].
  pose proof (Read_progress _ _ _ _ (room_pos acc) R) as Hprog.
  destruct (endsInNewline (acc ++ data)); [now split|].
  specialize (IH s' (acc ++ data) ltac:(lia) Hs').
  destruct (recvSpec (acc ++ data) s'); try exact I;
    (destruct IH as [H1 H2]; split; [exact H1|congruence]).
Qed.

(** The receive loop on a pipe whose reads return at least one byte: it
    does not panic, and the pipe it leaves is such a pipe. *)
Lemma receive_sound (s : stream) :
  Forall nonempty (chunks s) ->
  match receive s with
  | RecvOk line rest =>
    line ++ flat rest = flat s /\ endsInNewline line = true
    /\ Forall nonempty (chunks rest) /\ ending rest = ending s
  | RecvErr e rest =>
    ending s = Some e /\ chunks rest = [] /\ ending rest = ending s
  | RecvBlock => ending s = None
  | RecvPanic => False
  end.
Proof.
  intros Hne. unfold receive.
  rewrite (recvLoop_refines (S (streamSize s)) s _ 0 [])
    by (lia || assumption || apply holds_fresh).
  pose proof (recvSpec_result (S (streamSize s)) s [] ltac:(lia)) as H.
  pose proof (recvSpec_keeps (S (streamSize s)) s [] ltac:(lia) Hne) as K.
  destruct (recvSpec [] s) as [line rest|e rest| |]; try exact H.
  - destruct H as (rd & -> & Hrd & Hnl). destruct K. now repeat split.
  - destruct H, K. now repeat split.
Qed.

Lemma room_nil : room [] = recvBufSize.
Proof.
  unfold room. cbn [length]. rewrite Nat.Div0.mod_0_l.
  lia.
Qed.

(** A chunk that ends in a newline and fits the buffer is a response. *)
Lemma receive_chunk (c : bytes) (cs : list bytes) (e : option error) :
  c <> [] -> length c <= recvBufSize -> endsInNewline c = true ->
  Forall nonempty cs ->
  receive {| chunks := c :: cs; ending := e |}
  = RecvOk c {| chunks := cs; ending := e |}.
Proof.
  intros Hc Hl Hn Hcs. unfold receive.
  rewrite (recvLoop_refines (S (streamSize {| chunks := c :: cs; ending := e |}))
             _ _ 0 [])
    by (lia || (now constructor) || apply holds_fresh).
  rewrite recvSpec_eq, room_nil, Read_cons by (pose proof recvBufSize_pos; lia).
  apply Nat.leb_le in Hl. rewrite Hl. cbn [app]. now rewrite Hn.
Qed.

(** The handshake loop accounts for every byte: what it has seen and what
    it leaves in the pipe are what the worker wrote, in that order. *)
Lemma handshakeLoop_account (cs : list bytes) :
  forall (e : option error) (buf : bytes) (start : nat),
    length buf = initBufSize -> start < initBufSize ->
    match handshakeLoop buf start {| chunks := cs; ending := e |} with
    | HsReady seen rest =>
      seen ++ flat rest = take start buf ++ concat cs
      /\ ending rest = e
      /\ (exists n, chunks rest = drop n cs)
      /\ length seen < initBufSize
      /\ Contains seen initMarker = true
    | HsReadErr err seen rest =>
      e = Some err /\ seen = take start buf ++ concat cs
      /\ chunks rest = [] /\ ending rest = e
    | HsTooLong rest =>
      initBufSize <= start + length (concat cs) /\ ending rest = e
      /\ (Forall nonempty cs -> Forall nonempty (chunks rest))
    | HsBlock => e = None /\ start + length (concat cs) < initBufSize
    | HsPanic => False
    end.
Proof.
  induction cs as [|c rest IH]; intros e buf start Hlen Hstart;
    rewrite handshakeLoop_eq;
    (replace (length buf <? start) with false
      by (symmetry; apply Nat.ltb_ge; lia)).
  - rewrite Read_nil by lia. cbn [concat length].
    destruct e; [now rewrite app_nil_r|split; [reflexivity|lia]].
  - rewrite Read_cons by lia. cbn [concat]. rewrite length_app.
    destruct (length c <=? length buf - start) eqn:Ecap.
    + apply Nat.leb_le in Ecap.
      destruct (length buf <=? start + length c) eqn:Efull.
      * apply Nat.leb_le in Efull. cbn [chunks ending].
        split; [lia|]. split; [reflexivity|]. intros H. now inversion H.
      * apply Nat.leb_gt in Efull. rewrite take_writeAt by lia.
        destruct (Contains (take start buf ++ c) initMarker) eqn:Ec.
        -- unfold flat. cbn [chunks ending]. rewrite <- app_assoc.
           split; [reflexivity|]. split; [reflexivity|].
           split; [now exists 1|]. split; [|exact Ec].
           rewrite length_app, length_take. lia.
        -- specialize (IH e (writeAt buf start c) (start + length c)
                         ltac:(rewrite length_writeAt; lia) ltac:(lia)).
           rewrite take_writeAt in IH by lia.
           destruct (handshakeLoop (writeAt buf start c) (start + length c)
                       {| chunks := rest; ending := e |})
             as [seen r|err seen r|r| |]; try exact IH.
           ++ destruct IH as (H1 & H2 & (n & H3) & H4 & H5).
              rewrite <- app_assoc in H1.
              split; [exact H1|]. split; [exact H2|].
              split; [now exists (S n)|]. now split.
           ++ destruct IH as (H1 & H2 & H3 & H4).
              rewrite <- app_assoc in H2. now repeat split.
           ++ destruct IH as (H1 & H2 & H3). split; [lia|]. split; [exact H2|].
              intros H. apply H3. now inversion H.
           ++ destruct IH as [H1 H2]. split; [exact H1|lia].
    + apply Nat.leb_gt in Ecap. rewrite length_take.
      replace (length buf <=? start + (length buf - start) `min` length c)
        with true by (symmetry; apply Nat.leb_le; lia).
      cbn [chunks ending]. split; [lia|]. split; [reflexivity|].
      intros H. inversion H; subst. constructor; [|assumption].
      intros Hd. apply (f_equal length) in Hd. rewrite length_drop in Hd.
      cbn in Hd. lia.
Qed.

Lemma handshake_account (s : stream) :
  match handshake s with
  | HsReady seen rest =>
    seen ++ flat rest = flat s /\ ending rest = ending s
    /\ (exists n, chunks rest = drop n (chunks s))
    /\ length seen < initBufSize /\ Contains seen initMarker = true
  | HsReadErr err seen rest =>
    ending s = Some err /\ seen = flat s /\ chunks rest = []
    /\ ending rest = ending s
  | HsTooLong rest =>
    initBufSize <= length (flat s) /\ ending rest = ending s
    /\ (Forall nonempty (chunks s) -> Forall nonempty (chunks rest))
  | HsBlock => ending s = None /\ length (flat s) < initBufSize
  | HsPanic => False
  end.
Proof.
  unfold handshake. destruct s as [cs e].
  pose proof (handshakeLoop_account cs e (makeBytes initBufSize) 0
                (length_replicate _ _) initBufSize_pos) as H.
  rewrite take_makeBytes_0 in H. exact H.
Qed.

(** The theorem at a worker whose marker comes in two reads. *)
Lemma initPpocr_handshake_witness :
  let p := newPpocrStruct "ocr/PaddleOCR-json" noArgs in
  (stdinPipeErr helloLaunch = None /\ stdoutPipeErr helloLaunch = None
   /\ startErr helloLaunch = None /\ exitInInit helloLaunch = None)
  /\ ((exists p', initPpocr helloLaunch "ocr/PaddleOCR-json" noArgs p = Ret None p')
      <-> markerSeen (output helloLaunch)).
Proof.
  intros p. split; [repeat split|].
  apply (initPpocr_handshake helloLaunch "ocr/PaddleOCR-json" noArgs p);
    reflexivity.
Defined.

(** The marker split over two reads is found; a marker that comes in a
    read that fills the buffer is not looked for. *)
Example handshake_marker_split :
  exists rest,
    handshake {| chunks := [unstr "hello "; unstr "OCR init"; unstr " completed.";
                            unstr "more"];
                 ending := None |}
    = HsReady (unstr "hello OCR init completed.") rest.
Proof. eexists. vm_compute. reflexivity. Qed.

Example handshake_full_buffer :
  match handshake {| chunks := [initMarker ++ repeat "."%char (Z.to_nat 4077)];
                     ending := None |} with
  | HsTooLong _ => true
  | _ => false
  end = true.
Proof. vm_compute. reflexivity. Qed.

(** The theorem at a response that comes in three reads, with the next
    response already in the pipe. *)
Lemma receive_accumulates_witness :
  let s := {| chunks := [unstr "{'code':"; unstr "101}" ++ [newline]; unstr "next"];
              ending := Some EOF |} in
  Forall nonempty (chunks s)
  /\ receive s = recvSpec [] s
  /\ match receive s with
     | RecvOk line rest =>
       line ++ flat rest = flat s /\ endsInNewline line = true
     | RecvErr e rest => ending s = Some e /\ chunks rest = []
     | RecvBlock => ending s = None
     | RecvPanic => False
     end.
Proof.
  intros s.
  assert (H : Forall nonempty (chunks s)) by (repeat constructor; discriminate).
  split; [exact H|]. apply (receive_accumulates s H).
Defined.

(** A line longer than the buffer: the buffer grows twice, and every byte
    is returned. *)
Example receive_grows :
  let a := repeat "a"%char (Z.to_nat 10239) in
  let b := repeat "b"%char (Z.to_nat 10241) in
  match receive {| chunks := [a; b; [newline]]; ending := None |} with
  | RecvOk line rest =>
    bytes_eqb line (a ++ b ++ [newline]) && Nat.eqb (length (chunks rest)) 0
  | _ => false
  end = true.
Proof. vm_compute. reflexivity. Qed.

(** A read that fills the buffer and ends in a newline ends the loop, the
    rest of the chunk stays in the pipe. *)
Example receive_stops_at_full_buffer :
  let a := repeat "a"%char (Z.to_nat 10239) ++ [newline] in
  match receive {| chunks := [a ++ ["z"%char; newline]]; ending := None |} with
  | RecvOk line rest =>
    bytes_eqb line a
    && match chunks rest with
       | [r] => bytes_eqb r ["z"%char; newline]
       | _ => false
       end
  | _ => false
  end = true.
Proof. vm_compute. reflexivity. Qed.

(* ================================================================== *)
(** * Properties of the supervisor                                      *)
(* ================================================================== *)

Ltac run :=
  unfold forget in *;
  unfold bind, modify, ret, get, block, panic in *;
  cbn [stateOf] in *.

Lemma withLock_free {A} (m : M A) (p : Ppocr) :
  ppLock p = false ->
  withLock m p = match m (setPpLock true p) with
                 | Ret a p' => Ret a (setPpLock false p')
                 | Block p' => Block p'
                 | Panic msg p' => Panic msg (setPpLock false p')
                 end.
Proof. intros H. unfold withLock, Lock, bind. now rewrite H. Qed.

Lemma withLock_held {A} (m : M A) (p : Ppocr) :
  ppLock p = true -> withLock m p = Block p.
Proof. intros H. unfold withLock, Lock, bind. now rewrite H. Qed.

Lemma waiterSees_internalErr (st : exitStatus) (p : Ppocr) :
  internalErr p <> None -> internalErr (waiterSees st p) <> None.
Proof.
  intros H. unfold waiterSees. destruct (waitErr st); cbn; [discriminate|exact H].
Qed.

(** [close] does not clear a recorded error, nor touch the lock or the
    shutdown channel. *)
Lemma close_keeps (p p' : Ppocr) (r : option error) :
  close p = Ret r p' ->
  restartExitChanClosed p' = restartExitChanClosed p
  /\ ppLock p' = ppLock p
  /\ (internalErr p <> None -> internalErr p' <> None).
Proof.
  unfold close. destruct (exitSignal p).
  - intros [= <- <-]. now repeat split.
  - destruct (cmd p) as [| | |[|]]; try discriminate.
    destruct (cmdStdin p) eqn:Ein; try discriminate; intros [= <- <-];
      unfold closeStdin, waiterSees; rewrite Ein; cbn;
      destruct (killWait p); cbn; (repeat split; congruence).
Qed.

(** With a waiter goroutine to signal, [close] returns: a worker that
    still runs has its input closed and is killed, otherwise the signal
    is taken and nothing else is done. *)
Lemma close_returns (p : Ppocr) :
  hasWaiter p ->
  exists p',
    close p = Ret None p'
    /\ exitSignal p' = false
    /\ (exitSignal p = false -> cmd p' = CmdDone false /\ cmdStdin p' = PipeClosed)
    /\ log p' = log p ++ (if exitSignal p then [] else [EvCloseStdin; EvKill])
    /\ ppLock p' = ppLock p
    /\ restartExitChanClosed p' = restartExitChanClosed p
    /\ exePath p' = exePath p /\ args p' = args p
    /\ timerStarted p' = timerStarted p
    /\ (internalErr p <> None -> internalErr p' <> None).
Proof.
  intros H. unfold close. destruct (exitSignal p) eqn:Es.
  - eexists. split; [reflexivity|]. cbn. rewrite app_nil_r.
    repeat split; try discriminate; auto.
  - destruct H as [(Hc & Hi & _)|H]; [|congruence]. rewrite Hc, Hi.
    eexists. split; [reflexivity|]. unfold closeStdin, waiterSees. rewrite Hi.
    cbn. destruct (killWait p); cbn; rewrite <- ?app_assoc;
      repeat split; try discriminate; auto.
Qed.

(** Without one, [close] never returns: the deferred receive waits for a
    signal that nothing will send. *)
Lemma close_blocks (p : Ppocr) :
  exitSignal p = false -> cmd p <> CmdRunning ->
  exists p',
    close p = Block p'
    /\ exitSignal p' = false /\ cmd p' = cmd p
    /\ ppLock p' = ppLock p /\ internalErr p' = internalErr p
    /\ restartExitChanClosed p' = restartExitChanClosed p
    /\ (log p' = log p \/ log p' = log p ++ [EvCloseStdin]).
Proof.
  intros Hs Hc. unfold close. rewrite Hs.
  destruct (cmd p) as [| | |[|]] eqn:Ec; try contradiction;
    eexists; (split; [reflexivity|]);
    unfold closeStdin; destruct (cmdStdin p); cbn; auto 10.
Qed.

(** What [initPpocr] leaves when the worker is not started: no goroutine
    was launched, nothing was spawned. *)
Lemma initPpocr_notStarted (l : Launch) (exe : string) (a : OcrArgs) (p : Ppocr) :
  notStarted l ->
  exists e p',
    initPpocr l exe a p = Ret (Some e) p'
    /\ cmd p' = CmdNew /\ exitSignal p' = exitSignal p
    /\ ppLock p' = ppLock p /\ log p' = log p
    /\ restartExitChanClosed p' = restartExitChanClosed p
    /\ internalErr p' = internalErr p.
Proof.
  intros H. unfold notStarted in H. unfold initPpocr. run.
  destruct (stdinPipeErr l); [eexists _, _; split; [reflexivity|now cbn]|].
  destruct (stdoutPipeErr l); [eexists _, _; split; [reflexivity|now cbn]|].
  destruct (startErr l); [eexists _, _; split; [reflexivity|now cbn]|].
  destruct H as [H|[H|H]]; contradiction.
Qed.

(** How the handshake can end. *)
Lemma handshake_cases (s : stream) :
  match handshake s with
  | HsReady _ _ => markerSeen s
  | HsReadErr err _ _ => ending s = Some err /\ ~ markerSeen s
  | HsTooLong _ => ~ markerSeen s
  | HsBlock =>
    ending s = None /\ length (flat s) < initBufSize /\ ~ markerSeen s
  | HsPanic => False
  end.
Proof.
  pose proof (handshake_ready_iff s) as Hiff.
  pose proof (handshake_account s) as Ha.
  destruct (handshake s) as [seen rest|err seen rest|rest| |].
  - apply Hiff. eauto.
  - split; [apply Ha|]. intros Hm. apply Hiff in Hm as (? & ? & E). discriminate.
  - intros Hm. apply Hiff in Hm as (? & ? & E). discriminate.
  - split; [apply Ha|]. split; [apply Ha|].
    intros Hm. apply Hiff in Hm as (? & ? & E). discriminate.
  - exact Ha.
Qed.

(** A launch that fails makes [initPpocr] return an error. *)
Lemma initPpocr_fails (l : Launch) (exe : string) (a : OcrArgs) (p : Ppocr) :
  failsToLaunch l ->
  exists e p', initPpocr l exe a p = Ret (Some e) p'.
Proof.
  intros [H|[Hm He]].
  - destruct (initPpocr_notStarted l exe a p H) as (e & p' & E & _). eauto.
  - unfold initPpocr. run.
    destruct (stdinPipeErr l); [eauto|].
    destruct (stdoutPipeErr l); [eauto|].
    destruct (startErr l); [eauto|].
    pose proof (handshake_cases (output l)) as Hh.
    destruct (exitInInit l) as [st|];
      destruct (handshake (output l)) as [seen rest|err seen rest|rest| |];
      try contradiction;
      try (destruct Hh as (Hh1 & Hh2 & _); destruct He; [congruence|lia]);
      repeat match goal with
             | |- context [match internalErr ?q with _ => _ end] =>
               destruct (internalErr q)
             end; eauto.
Qed.

(** What a restart records is what its [initPpocr] returned, and the
    lock is released. *)
Lemma restartTick_records (l : Launch) (p : Ppocr) (x : option error) (p' : Ppocr) :
  restartTick l p = Ret x p' -> internalErr p' = x /\ ppLock p' = false.
Proof.
  intros H. unfold restartTick, Lock, Unlock in H. run.
  destruct (ppLock p); [discriminate|].
  destruct (close _) as [r0 p0| |]; try discriminate.
  destruct (initPpocr l (exePath p0) (args p0) p0) as [e0 p1| |];
    try discriminate.
  injection H as <- <-. now split.
Qed.

(** A restart on a supervisor with a waiter goroutine and a free lock
    returns what its [initPpocr] returns. *)
Lemma restartTick_runs (l : Launch) (p : Ppocr) :
  ppLock p = false -> hasWaiter p ->
  exists p0,
    close (setPpLock true p) = Ret None p0
    /\ restartTick l p
       = match initPpocr l (exePath p) (args p) p0 with
         | Ret e p1 => Ret e (setPpLock false (setInternalErr e p1))
         | Block p1 => Block p1
         | Panic msg p1 => Panic msg p1
         end.
Proof.
  intros Hl Hw.
  destruct (close_returns (setPpLock true p))
    as (p0 & Ec & _ & _ & _ & _ & _ & Hx & Ha & _); [exact Hw|].
  exists p0. split; [exact Ec|].
  unfold restartTick, Lock, Unlock. run. rewrite Hl, Ec, Hx, Ha. cbn.
  now destruct (initPpocr l (exePath p) (args p) p0).
Qed.

(** The first [Close] of a supervisor with a waiter goroutine. *)
Lemma Close_returns (p : Ppocr) :
  ppLock p = false -> restartExitChanClosed p = false -> hasWaiter p ->
  exists p',
    Close p = Ret None p'
    /\ restartExitChanClosed p' = true /\ ppLock p' = false
    /\ exitSignal p' = false
    /\ (running p -> cmd p' = CmdDone false /\ cmdStdin p' = PipeClosed)
    /\ log p' = log p ++ (if exitSignal p then [] else [EvCloseStdin; EvKill])
    /\ internalErr p' <> None.
Proof.
  intros Hl Hc Hw.
  destruct (close_returns
              (setInternalErr (Some errClosed)
                 (setRestartExitChanClosed true (setPpLock true p))))
    as (p0 & Ec & Hs & Hrun & Hlog & Hk & Hr & _ & _ & _ & Hi); [exact Hw|].
  exists (setPpLock false p0). unfold Close. rewrite (withLock_free _ p Hl).
  run. cbn [restartExitChanClosed setPpLock]. rewrite Hc, Ec.
  split; [reflexivity|]. cbn in *.
  split; [exact Hr|]. split; [reflexivity|]. split; [exact Hs|].
  split; [intros (_ & _ & E); exact (Hrun E)|]. split; [exact Hlog|].
  apply Hi. discriminate.
Qed.

(** A [Close] after the shutdown channel was closed. *)
Lemma Close_again (p : Ppocr) :
  ppLock p = false -> restartExitChanClosed p = true ->
  Close p = Ret (Some errClosed) p.
Proof.
  intros Hl Hc. unfold Close. rewrite withLock_free by exact Hl. run.
  cbn [restartExitChanClosed setPpLock]. rewrite Hc. f_equal.
  destruct p; cbn in *; now subst.
Qed.

(** The first [Close] of a supervisor without a waiter goroutine. *)
Lemma Close_blocks (p : Ppocr) :
  ppLock p = false -> restartExitChanClosed p = false ->
  exitSignal p = false -> cmd p <> CmdRunning ->
  exists p',
    Close p = Block p'
    /\ ppLock p' = true /\ internalErr p' = Some errClosed
    /\ (log p' = log p \/ log p' = log p ++ [EvCloseStdin]).
Proof.
  intros Hl Hc Hs Hn.
  destruct (close_blocks
              (setInternalErr (Some errClosed)
                 (setRestartExitChanClosed true (setPpLock true p))))
    as (p0 & Ec & _ & _ & Hk & Hi & _ & Hlog); [exact Hs|exact Hn|].
  exists p0. unfold Close. rewrite (withLock_free _ p Hl).
  run. cbn [restartExitChanClosed setPpLock]. rewrite Hc, Ec.
  split; [reflexivity|]. split; [exact Hk|]. split; [exact Hi|exact Hlog].
Qed.

(** C6.  When the path does not exist or is a directory, [NewPpocr]
    returns a nil pointer and the not-found error, and nothing was done to
    any process or pipe: the log is empty, the zero struct untouched. *)
Theorem NewPpocr_missing_executable
    (stat : string -> statResult) (l : Launch) (exe : string) (a : OcrArgs) :
  stat exe = StatErr ENOENT \/ stat exe = StatOk true ->
  NewPpocr stat l exe a
  = Ret (false, Some (Errorf ("executable file " +++ exe +++ " not found")))
        (newPpocrStruct exe a)
  /\ log (stateOf (NewPpocr stat l exe a)) = []
  /\ cmd (stateOf (NewPpocr stat l exe a)) = CmdNil.
Proof.
  intros H. unfold NewPpocr, fileIsExist.
  destruct H as [-> | ->]; cbn; repeat split.
Qed.

(** The theorem at a directory. *)
Lemma NewPpocr_missing_executable_witness :
  (sampleFs "/opt/ocr" = StatErr ENOENT \/ sampleFs "/opt/ocr" = StatOk true)
  /\ NewPpocr sampleFs helloLaunch "/opt/ocr" noArgs
     = Ret (false, Some (Errorf "executable file /opt/ocr not found"))
           (newPpocrStruct "/opt/ocr" noArgs).
Proof.
  assert (H : sampleFs "/opt/ocr" = StatErr ENOENT \/ sampleFs "/opt/ocr" = StatOk true)
    by (right; reflexivity).
  split; [exact H|].
  exact (proj1 (NewPpocr_missing_executable sampleFs helloLaunch "/opt/ocr" noArgs H)).
Defined.

(** C5.  On a supervisor whose lock is free and that was not closed
    before: when a waiter goroutine is there to signal, the first [Close]
    returns without error, having closed the shutdown channel and, if the
    worker still ran, closed its input and killed it; the second [Close]
    then returns the "has been closed" error and leaves the supervisor as
    it was, no event logged.  When no waiter goroutine is there (the
    worker was reaped before, or never started), the first [Close] never
    returns and keeps the lock, and a second [Close] waits for the lock
    for ever. *)
Theorem Close_twice (p : Ppocr) :
  ppLock p = false -> restartExitChanClosed p = false ->
  (hasWaiter p ->
   exists p',
     Close p = Ret None p'
     /\ restartExitChanClosed p' = true /\ ppLock p' = false
     /\ exitSignal p' = false
     /\ (running p -> cmd p' = CmdDone false /\ cmdStdin p' = PipeClosed)
     /\ log p' = log p ++ (if exitSignal p then [] else [EvCloseStdin; EvKill])
     /\ Close p' = Ret (Some errClosed) p')
  /\ (exitSignal p = false -> cmd p <> CmdRunning ->
      exists p',
        Close p = Block p'
        /\ ppLock p' = true
        /\ (log p' = log p \/ log p' = log p ++ [EvCloseStdin])
        /\ Close p' = Block p').
Proof.
  intros Hl Hc. split.
  - intros Hw.
    destruct (Close_returns p Hl Hc Hw) as (p' & E & Hr & Hk & Hs & Hrun & Hlog & _).
    exists p'. repeat split; try assumption; try (now apply Hrun).
    now apply Close_again.
  - intros Hs Hn.
    destruct (Close_blocks p Hl Hc Hs Hn) as (p' & E & Hk & _ & Hlog).
    exists p'. repeat split; try assumption.
    unfold Close. now apply withLock_held.
Qed.

(** The theorem at a running supervisor, and at the supervisor that
    [NewPpocr] returns when the handshake failed. *)
Lemma Close_twice_witness :
  (exists p',
      Close runningPpocr = Ret None p'
      /\ log p' = log runningPpocr ++ [EvCloseStdin; EvKill]
      /\ Close p' = Ret (Some errClosed) p')
  /\ (exists p', Close failedPpocr = Block p' /\ Close p' = Block p').
Proof.
  split.
  - destruct (proj1 (Close_twice runningPpocr eq_refl eq_refl))
      as (p' & H1 & _ & _ & _ & _ & H2 & H3).
    + left. repeat split.
    + exists p'. repeat split; assumption.
  - destruct (proj2 (Close_twice failedPpocr eq_refl eq_refl))
      as (p' & H1 & _ & _ & H2).
    + reflexivity.
    + discriminate.
    + exists p'. split; assumption.
Defined.

(** C4.  On a supervisor with a waiter goroutine and a free lock, [Close]
    returns and leaves an error recorded, and a restart whose launch
    fails returns the error of its [initPpocr] and records it.  While an
    error is recorded, [Ocr] returns it and leaves the supervisor, its
    pipes and its log as they were, and so does [OcrFile] when the lock
    is free; with the lock held, [OcrFile] never returns.  The only step
    after which no error is recorded any more is a restart whose
    [initPpocr] succeeded.  And the lock does get held for ever: after a
    restart that could not start the worker the error is recorded, but no
    waiter goroutine is left, so that the next restart never returns,
    and from then on [OcrFile] and [Close] wait for the lock. *)
Theorem sticky_error :
  (forall p,
      ppLock p = false -> restartExitChanClosed p = false -> hasWaiter p ->
      exists p', Close p = Ret None p' /\ internalErr p' <> None
                 /\ ppLock p' = false)
  /\ (forall l p,
         ppLock p = false -> hasWaiter p -> failsToLaunch l ->
         exists e p', restartTick l p = Ret (Some e) p'
                      /\ internalErr p' = Some e /\ ppLock p' = false)
  /\ (forall p e path image,
         internalErr p = Some e ->
         Ocr image p = Ret (None, Some e) p
         /\ (ppLock p = false -> OcrFile path p = Ret (None, Some e) p)
         /\ (ppLock p = true -> OcrFile path p = Block p))
  /\ (forall o p p',
         internalErr p <> None -> runOp o p = Ret tt p' ->
         internalErr p' = None ->
         exists l, o = OpRestart l /\ restartTick l p = Ret None p')
  /\ (forall l1 l2 p path image,
         ppLock p = false -> hasWaiter p -> notStarted l1 ->
         exists e p1 p2,
           restartTick l1 p = Ret (Some e) p1
           /\ restartTick l2 p1 = Block p2
           /\ internalErr p2 = Some e /\ ppLock p2 = true
           /\ OcrFile path p2 = Block p2
           /\ Close p2 = Block p2
           /\ Ocr image p2 = Ret (None, Some e) p2).
Proof.
  assert (Hclose : forall p r p',
             restartExitChanClosed p = false -> Close p = Ret r p' ->
             internalErr p' <> None).
  { intros p r p' Hc H. unfold Close in H.
    destruct (ppLock p) eqn:El; [now rewrite withLock_held in H|].
    rewrite withLock_free in H by exact El. run.
    cbn [restartExitChanClosed setPpLock] in H. rewrite Hc in H.
    destruct (close _) as [r0 p0| |] eqn:Ec; try discriminate.
    injection H as <- <-. apply close_keeps in Ec.
    destruct Ec as (_ & _ & Hk). cbn. apply Hk. discriminate. }
  assert (Hfile : forall p e path,
             internalErr p = Some e -> ppLock p = false ->
             OcrFile path p = Ret (None, Some e) p).
  { intros p e path H Hl. unfold OcrFile. rewrite withLock_free by exact Hl.
    run. cbn [internalErr setPpLock]. rewrite H. f_equal.
    destruct p; cbn in *; now subst. }
  split; [|split; [|split; [|split]]].
  - intros p Hl Hc Hw.
    destruct (Close_returns p Hl Hc Hw) as (p' & E & _ & Hk & _ & _ & _ & Hi).
    exists p'. now repeat split.
  - intros l p Hl Hw Hf.
    destruct (restartTick_runs l p Hl Hw) as (p0 & _ & E).
    destruct (initPpocr_fails l (exePath p) (args p) p0 Hf) as (e & p1 & Ei).
    rewrite Ei in E. exists e. eexists. split; [exact E|]. now split.
  - intros p e path image H. split; [|split].
    + unfold Ocr. run. now rewrite H.
    + now apply Hfile.
    + intros Hl. unfold OcrFile. now apply withLock_held.
  - intros o p p' Hp H Hn. destruct o as [|path|image|l|st]; cbn [runOp] in H.
    + exfalso. run. destruct (Close p) as [r p0| |] eqn:E; try discriminate.
      injection H as <-. destruct (restartExitChanClosed p) eqn:Ec.
      * destruct (ppLock p) eqn:El;
          [unfold Close in E; now rewrite withLock_held in E|].
        rewrite (Close_again p El Ec) in E. injection E as _ <-. contradiction.
      * exact (Hclose _ _ _ Ec E Hn).
    + exfalso. destruct (internalErr p) as [e|] eqn:E; [|contradiction].
      run. destruct (ppLock p) eqn:El.
      * unfold OcrFile in H. now rewrite withLock_held in H.
      * rewrite (Hfile p e path E El) in H. injection H as <-. congruence.
    + exfalso. destruct (internalErr p) as [e|] eqn:E; [|contradiction].
      unfold Ocr in H. run. rewrite E in H. injection H as <-. congruence.
    + exists l. split; [reflexivity|]. run.
      destruct (restartTick l p) as [x p0| |] eqn:E; try discriminate.
      injection H as <-. apply restartTick_records in E as Hx.
      destruct Hx as [Hx _]. rewrite Hn in Hx. now subst x.
    + exfalso. unfold workerExit in H. destruct (cmd p); injection H as <-;
        try contradiction.
      revert Hn. apply waiterSees_internalErr. exact Hp.
  - intros l1 l2 p path image Hl Hw Hs.
    destruct (restartTick_runs l1 p Hl Hw) as (p0 & Ec & E).
    assert (Hsig0 : exitSignal p0 = false).
    { destruct (close_returns (setPpLock true p) Hw) as (q & Eq & Hq & _).
      rewrite Ec in Eq. now injection Eq as <-. }
    destruct (initPpocr_notStarted l1 (exePath p) (args p) p0 Hs)
      as (e & p1 & Ei & Hcmd & Hex & _).
    rewrite Ei in E. exists e. eexists.
    destruct (close_blocks (setPpLock true (setPpLock false (setInternalErr (Some e) p1))))
      as (p2 & Eb & _ & _ & Hk & Hie & _).
    { cbn. congruence. }
    { cbn. congruence. }
    exists p2. split; [exact E|].
    assert (Hb : restartTick l2 (setPpLock false (setInternalErr (Some e) p1)) = Block p2).
    { unfold restartTick, Lock. run. cbn [ppLock setPpLock]. now rewrite Eb. }
    split; [exact Hb|]. cbn in Hk, Hie.
    split; [exact Hie|]. split; [exact Hk|].
    split; [unfold OcrFile; now apply withLock_held|].
    split; [unfold Close; now apply withLock_held|].
    unfold Ocr. run. now rewrite Hie.
Qed.

(** The theorem at a running supervisor: a [Close]; a restart with a
    worker that ends without a word; a restart with a worker that cannot
    be started, followed by another restart. *)
Lemma sticky_error_witness :
  (exists p', Close runningPpocr = Ret None p' /\ internalErr p' <> None)
  /\ (exists e p', restartTick silentLaunch runningPpocr = Ret (Some e) p'
                   /\ internalErr p' = Some e)
  /\ (exists e p1 p2,
         restartTick brokenLaunch runningPpocr = Ret (Some e) p1
         /\ restartTick helloLaunch p1 = Block p2
         /\ internalErr p2 = Some e
         /\ OcrFile "x.png" p2 = Block p2).
Proof.
  assert (Hw : hasWaiter runningPpocr) by (left; repeat split).
  assert (Hs : failsToLaunch silentLaunch).
  { right. split; [|left; discriminate].
    intros (n & _ & _ & H). cbn in H. rewrite firstn_nil in H. discriminate. }
  assert (Hb : notStarted brokenLaunch) by (right; right; discriminate).
  destruct sticky_error as (H1 & H2 & _ & _ & H5).
  split; [|split].
  - destruct (H1 runningPpocr eq_refl eq_refl Hw) as (p' & E & Hi & _).
    exists p'. now split.
  - destruct (H2 silentLaunch runningPpocr eq_refl Hw Hs) as (e & p' & E & Hi & _).
    exists e, p'. now split.
  - destruct (H5 brokenLaunch helloLaunch runningPpocr "x.png" [] eq_refl Hw Hb)
      as (e & p1 & p2 & E1 & E2 & Hi & _ & Hf & _).
    exists e, p1, p2. now repeat split.
Defined.

(** After [Close] a request is refused, and nothing is written. *)
Example request_after_Close :
  let p := stateOf (Close runningPpocr) in
  OcrFile "x.png" p = Ret (None, Some (OsError "signal: killed")) p
  /\ Ocr (unstr "img") p = Ret (None, Some (OsError "signal: killed")) p.
Proof. split; vm_compute; reflexivity. Qed.

(* ================================================================== *)
(** * Properties of the request encoding                                *)
(* ================================================================== *)

(** A boolean property of bytes holds of all of them when it holds of the
    256 there are. *)
Lemma each_byte (f : ascii -> bool) :
  forallb f allBytes = true -> forall c, f c = true.
Proof.
  intros H c. rewrite forallb_forall in H. apply H.
  apply in_map_iff. exists (N.to_nat (b2n c)). split.
  - rewrite N2Nat.id. apply ascii_N_embedding.
  - apply in_seq. pose proof (N_ascii_bounded c). unfold b2n. lia.
Qed.

Ltac bytewise f c :=
  let Hb := fresh "Hb" in
  assert (Hb := each_byte f);
  specialize (Hb ltac:(vm_compute; reflexivity) c); cbn beta in Hb.

Lemma high_plain (c : ascii) : high c = true -> plain c = true.
Proof.
  intros H. bytewise (fun c => implb (high c) (plain c)) c.
  now rewrite H in Hb.
Qed.

Lemma htmlSafe_plain (c : ascii) : htmlSafe c = true -> plain c = true.
Proof.
  intros H. bytewise (fun c => implb (htmlSafe c) (plain c)) c.
  now rewrite H in Hb.
Qed.

Lemma isCont_high (c : ascii) : isCont c = true -> high c = true.
Proof.
  intros H. bytewise (fun c => implb (isCont c) (high c)) c.
  now rewrite H in Hb.
Qed.

Lemma escapeByte_scans (c : ascii) :
  scanPrefix SNormal (escapeByte c) = Some SNormal.
Proof.
  bytewise (fun c => isNormal (scanPrefix SNormal (escapeByte c))) c.
  destruct (scanPrefix SNormal (escapeByte c)) as [[]|]; try discriminate.
  reflexivity.
Qed.

Lemma scanPrefix_plain (c : ascii) (t : bytes) :
  plain c = true -> scanPrefix SNormal (c :: t) = scanPrefix SNormal t.
Proof.
  unfold plain. intros H. cbn [scanPrefix].
  destruct (Ascii.eqb c dquote); [discriminate|].
  destruct (Ascii.eqb c backslash); [discriminate|].
  destruct (b2n c <? 32)%N; [discriminate|reflexivity].
Qed.

Lemma scanPrefix_app (a b : bytes) : forall st,
  scanPrefix st (a ++ b)
  = match scanPrefix st a with
    | Some st' => scanPrefix st' b
    | None => None
    end.
Proof.
  induction a as [|c a IH]; intros st; [reflexivity|].
  cbn [app scanPrefix]. destruct st; [| |destruct (hexVal c)];
    repeat match goal with
    | |- context [if ?b then _ else _] => destruct b
    end; auto.
Qed.

(** The scanner of the decoder follows [scanPrefix], and finds the closing
    quote behind the bytes passed over. *)
Lemma scanString_app (a t : bytes) : forall st st',
  scanPrefix st a = Some st' ->
  scanString st (a ++ t) = option_map (Nat.add (length a)) (scanString st' t).
Proof.
  induction a as [|c a IH]; intros st st'.
  - intros [= ->]. cbn. now destruct (scanString st' t).
  - cbn [app scanPrefix scanString length].
    assert (E : forall o : option nat,
      option_map S (option_map (Nat.add (length a)) o)
      = option_map (Nat.add (S (length a))) o) by (now intros [|]).
    destruct st; [| |destruct (hexVal c)];
      repeat match goal with
      | |- context [if ?b then _ else _] => destruct b
      end; try discriminate;
      intros H; rewrite (IH _ _ H); apply E.
Qed.

Lemma scanString_body (a rest : bytes) :
  scanPrefix SNormal a = Some SNormal ->
  scanString SNormal (a ++ dquote :: rest) = Some (length a).
Proof.
  intros H. rewrite (scanString_app _ _ _ _ H).
  change (scanString SNormal (dquote :: rest)) with (Some 0).
  cbn. f_equal. lia.
Qed.

(** What the scanner passes over holds no control character, so no
    newline. *)
Lemma scanPrefix_no_control (l : bytes) : forall st st',
  scanPrefix st l = Some st' -> forallb (fun c => negb (b2n c <? 32)%N) l = true.
Proof.
  induction l as [|c l IH]; intros st st'; [reflexivity|].
  cbn [scanPrefix forallb]. destruct st.
  - destruct (Ascii.eqb c dquote); [discriminate|].
    destruct (Ascii.eqb c backslash) eqn:Eb.
    + apply Ascii.eqb_eq in Eb. subst c. intros H. now rewrite (IH _ _ H).
    + destruct (b2n c <? 32)%N; [discriminate|]. intros H. now rewrite (IH _ _ H).
  - bytewise (fun c => implb (Ascii.eqb c dquote || Ascii.eqb c backslash
                             || isChar c "/bfnrt" || Ascii.eqb c "u")
                            (negb (b2n c <? 32)%N)) c.
    destruct (Ascii.eqb c dquote || Ascii.eqb c backslash || isChar c "/bfnrt").
    + cbn in Hb. rewrite Hb. intros H. now rewrite (IH _ _ H).
    + destruct (Ascii.eqb c "u"); [|discriminate].
      cbn in Hb. rewrite Hb. intros H. now rewrite (IH _ _ H).
  - bytewise (fun c => implb (match hexVal c with Some _ => true | None => false end)
                            (negb (b2n c <? 32)%N)) c.
    destruct (hexVal c); [|discriminate].
    cbn in Hb. rewrite Hb. intros H. now rewrite (IH _ _ H).
Qed.

Lemma no_control_no_newline (l : bytes) :
  forallb (fun c => negb (b2n c <? 32)%N) l = true -> ~ In newline l.
Proof.
  intros H Hin. rewrite forallb_forall in H. specialize (H _ Hin).
  vm_compute in H. discriminate.
Qed.

(** The bytes behind the first one of a well-formed rune are all high. *)
Lemma decodeRune_high (c : ascii) (t : bytes) (r : N) (sz : nat) :
  decodeRune (c :: t) = (r, sz) -> forallb high (take (sz - 1) t) = true.
Proof.
  unfold decodeRune. cbv zeta.
  repeat case_match; intros [= <- <-]; try reflexivity; subst;
    cbn [Nat.sub firstn forallb];
    repeat match goal with
    | H : (_ && _)%bool = true |- _ => apply andb_prop in H; destruct H
    end;
    repeat (apply andb_true_intro; split); try reflexivity;
    try (apply isCont_high; assumption);
    match goal with
    | H : (_ <=? b2n ?a)%N = true |- high ?a = true =>
      apply N.leb_le in H; apply N.leb_le; lia
    end.
Qed.

(** The body [appendString] writes for any bytes is one the scanner of the
    decoder accepts. *)
Lemma encodeStringBody_scans (l : bytes) : forall copy skip,
  forallb high (take copy l) = true ->
  scanPrefix SNormal (encodeStringBody copy skip l) = Some SNormal.
Proof.
  induction l as [|c t IH]; intros copy skip Hc; [reflexivity|].
  destruct copy as [|k].
  - destruct skip as [|k]; cbn [encodeStringBody].
    2:{ apply IH. reflexivity. }
    destruct (b2n c <? 128)%N eqn:E128.
    + rewrite scanPrefix_app. destruct (htmlSafe c) eqn:Es.
      * rewrite scanPrefix_plain by now apply htmlSafe_plain.
        cbn [scanPrefix]. now apply IH.
      * rewrite escapeByte_scans. now apply IH.
    + destruct (decodeRune (c :: t)) as [r sz] eqn:Ed.
      destruct ((r =? RuneError)%N && Nat.eqb sz 1).
      { change (backslash :: unstr "ufffd" ++ encodeStringBody 0 0 t)
          with ((backslash :: unstr "ufffd") ++ encodeStringBody 0 0 t).
        rewrite scanPrefix_app.
        change (scanPrefix SNormal (backslash :: unstr "ufffd")) with (Some SNormal).
        now apply IH. }
      destruct ((r =? 8232)%N || (r =? 8233)%N) eqn:Er.
      { change (backslash :: unstr "u202" ++ [hexDigit (r mod 16)]
                ++ encodeStringBody 0 (sz - 1) t)
          with ((backslash :: unstr "u202" ++ [hexDigit (r mod 16)])
                ++ encodeStringBody 0 (sz - 1) t).
        rewrite scanPrefix_app.
        apply orb_prop in Er. destruct Er as [Er|Er]; apply N.eqb_eq in Er;
          subst r;
          match goal with
          | |- context [scanPrefix SNormal ?x] =>
            change (scanPrefix SNormal x) with (Some SNormal)
          end; now apply IH. }
      rewrite scanPrefix_plain.
      * apply IH. eapply decodeRune_high, Ed.
      * apply high_plain, N.leb_le. now apply N.ltb_ge in E128.
  - cbn [take forallb] in Hc. apply andb_prop in Hc. destruct Hc as [Hh Hc].
    cbn [encodeStringBody]. rewrite scanPrefix_plain by now apply high_plain.
    now apply IH.
Qed.

(** [base64] writes letters of its alphabet and the padding only. *)
Lemma b64Char_simple (n : N) : simple (b64Char n) = true.
Proof.
  unfold b64Char.
  destruct (nth_in_or_default (N.to_nat n) b64Alphabet "A"%char) as [Hin | ->];
    [|reflexivity].
  assert (H : forallb simple b64Alphabet = true) by (vm_compute; reflexivity).
  rewrite forallb_forall in H. apply H, Hin.
Qed.

Lemma base64_simple (l : bytes) : forallb simple (base64 l) = true.
Proof.
  assert (H : forall n (l : bytes), length l <= n -> forallb simple (base64 l) = true).
  { clear l. induction n as [|n IH]; intros l Hl.
    - destruct l; [reflexivity|cbn in Hl; lia].
    - destruct l as [|a [|b [|c t]]]; cbn [base64 forallb app];
        rewrite ?b64Char_simple; try reflexivity.
      cbn [andb]. apply IH. cbn in Hl. lia. }
  apply (H (length l)). lia.
Qed.

Lemma simple_scans (l : bytes) :
  forallb simple l = true -> scanPrefix SNormal l = Some SNormal.
Proof.
  induction l as [|c l IH]; [reflexivity|].
  cbn [forallb]. intros H. apply andb_prop in H. destruct H as [Hc Hl].
  apply andb_prop in Hc. destruct Hc as [Hc _].
  rewrite scanPrefix_plain by exact Hc. now apply IH.
Qed.

Lemma simple_unquote (l : bytes) :
  forallb simple l = true -> unquoteBody 0 l = l.
Proof.
  induction l as [|c l IH]; [reflexivity|].
  cbn [forallb]. intros H. apply andb_prop in H. destruct H as [Hc Hl].
  apply andb_prop in Hc. destruct Hc as [Hp Hc]. unfold plain in Hp.
  cbn [unquoteBody].
  destruct (Ascii.eqb c backslash); [now rewrite andb_false_r in Hp|].
  rewrite Hc. f_equal. now apply IH.
Qed.

(** An ASCII string comes back from its JSON form as it was. *)
Lemma unquote_encode_byte (c : ascii) (rest : bytes) :
  (b2n c <? 128)%N = true ->
  unquoteBody 0 ((if htmlSafe c then [c] else escapeByte c) ++ rest)
  = c :: unquoteBody 0 rest.
Proof.
  destruct c as [[] [] [] [] [] [] [] []]; intros H; try discriminate H;
    reflexivity.
Qed.

Lemma unquote_encode_ascii (l : bytes) :
  forallb (fun c => b2n c <? 128)%N l = true ->
  unquoteBody 0 (encodeStringBody 0 0 l) = l.
Proof.
  induction l as [|c l IH]; [reflexivity|].
  cbn [forallb]. intros H. apply andb_prop in H. destruct H as [Hc Hl].
  cbn [encodeStringBody]. rewrite Hc, unquote_encode_byte by exact Hc.
  f_equal. now apply IH.
Qed.

(** The tokenizer on a string: it passes over the body and the closing
    quote. *)
Lemma tokenize_skip (a rest : bytes) (c : ascii) :
  tokenize (S (length a)) (a ++ c :: rest) = tokenize 0 rest.
Proof.
  induction a as [|x a IH]; [reflexivity|exact IH].
Qed.

Lemma tokenize_string (body rest : bytes) :
  scanPrefix SNormal body = Some SNormal ->
  tokenize 0 (dquote :: body ++ dquote :: rest)
  = option_map (cons (TString body)) (tokenize 0 rest).
Proof.
  intros H.
  change (tokenize 0 (dquote :: body ++ dquote :: rest))
    with (match scanString SNormal (body ++ dquote :: rest) with
          | Some n => option_map (cons (TString (take n (body ++ dquote :: rest))))
                        (tokenize (S n) (body ++ dquote :: rest))
          | None => None
          end).
  rewrite (scanString_body _ _ H), tokenize_skip.
  now rewrite firstn_app, firstn_all, Nat.sub_diag, firstn_O, app_nil_r.
Qed.

Lemma marshal_path (path : string) :
  path <> "" ->
  marshalImageData {| Path := path; ContentB64 := [] |}
  = oneMember "image_path" (encodeStringBody 0 0 (unstr path)).
Proof.
  intros H. unfold marshalImageData, imageDataMembers, oneMember.
  cbn [Path ContentB64]. destruct (String.eqb_spec path ""); [contradiction|].
  cbn [app joinBytes map concat]. rewrite app_nil_r. unfold encodeString.
  change (encodeStringBody 0 0 (unstr "image_path")) with (unstr "image_path").
  rewrite <- !app_assoc. reflexivity.
Qed.

Lemma marshal_image (image : bytes) :
  image <> [] ->
  marshalImageData {| Path := ""; ContentB64 := image |}
  = oneMember "image_base64" (base64 image).
Proof.
  intros H. unfold marshalImageData, imageDataMembers, oneMember.
  cbn [Path ContentB64]. destruct image as [|c image]; [contradiction|].
  cbn [String.eqb app joinBytes map concat]. rewrite app_nil_r. unfold encodeString.
  change (encodeStringBody 0 0 (unstr "image_base64")) with (unstr "image_base64").
  repeat (rewrite <- app_assoc || rewrite <- app_comm_cons). reflexivity.
Qed.

Lemma marshal_empty :
  marshalImageData {| Path := ""; ContentB64 := [] |} = unstr "{}".
Proof. reflexivity. Qed.

Lemma parse_oneMember (key : string) (body : bytes) :
  scanPrefix SNormal (unstr key) = Some SNormal ->
  scanPrefix SNormal body = Some SNormal ->
  parseJSON (oneMember key body)
  = Some (JObject [(unquote (unstr key), JString (unquote body))]).
Proof.
  intros Hk Hb. unfold parseJSON, oneMember.
  change (tokenize 0 (unstr "{" ++ [dquote] ++ unstr key ++ [dquote] ++ unstr ":"
                      ++ [dquote] ++ body ++ [dquote] ++ unstr "}"))
    with (option_map (cons TLBrace)
            (tokenize 0 (dquote :: unstr key ++ dquote :: unstr ":"
                         ++ [dquote] ++ body ++ [dquote] ++ unstr "}"))).
  rewrite (tokenize_string _ _ Hk).
  change (tokenize 0 (unstr ":" ++ [dquote] ++ body ++ [dquote] ++ unstr "}"))
    with (option_map (cons TColon)
            (tokenize 0 (dquote :: body ++ dquote :: unstr "}"))).
  rewrite (tokenize_string _ _ Hb).
  reflexivity.
Qed.

Lemma oneMember_one_line (key : string) (body : bytes) :
  scanPrefix SNormal (unstr key) = Some SNormal ->
  scanPrefix SNormal body = Some SNormal ->
  ~ In newline (oneMember key body).
Proof.
  intros Hk Hb. apply no_control_no_newline. unfold oneMember.
  rewrite !forallb_app.
  rewrite (scanPrefix_no_control _ _ _ Hk), (scanPrefix_no_control _ _ _ Hb).
  reflexivity.
Qed.

(** [ocr] writes the request and one newline, or nothing at all. *)
Lemma ocr_writes (dataJson : bytes) (p : Ppocr) :
  (log (stateOf (ocr dataJson p)) = log p
   \/ log (stateOf (ocr dataJson p)) = log p ++ [EvWrite dataJson; EvWrite [newline]])
  /\ (cmdStdin p = PipeOpen -> cmd p = CmdRunning ->
      log (stateOf (ocr dataJson p)) = log p ++ [EvWrite dataJson; EvWrite [newline]]).
Proof.
  unfold ocr, writeStdin, bind, ret.
  destruct (cmdStdin p) eqn:Ein; cbn; try (split; [now left|discriminate]).
  destruct (cmd p) eqn:Ec; cbn; try (split; [now left|discriminate]).
  rewrite Ein, Ec. cbn.
  assert (E : forall x y : event, (log p ++ [x]) ++ [y] = log p ++ [x; y])
    by (intros; now rewrite <- app_assoc).
  destruct (cmdStdout p) as [s|]; cbn; [|split; [right|intros]; apply E].
  destruct (receive s); cbn; (split; [right|intros]; apply E).
Qed.

Lemma withLock_log {A} (m : M A) (p : Ppocr) :
  log (stateOf (withLock m p))
  = if ppLock p then log p else log (stateOf (m (setPpLock true p))).
Proof.
  destruct (ppLock p) eqn:E.
  - now rewrite withLock_held.
  - rewrite withLock_free by exact E. now destruct (m (setPpLock true p)).
Qed.

Lemma OcrFile_log (imagePath : string) (p : Ppocr) :
  let dataJson := marshalImageData {| Path := imagePath; ContentB64 := [] |} in
  (log (stateOf (OcrFile imagePath p)) = log p
   \/ log (stateOf (OcrFile imagePath p))
      = log p ++ [EvWrite dataJson; EvWrite [newline]])
  /\ (ppLock p = false -> internalErr p = None ->
      cmdStdin p = PipeOpen -> cmd p = CmdRunning ->
      log (stateOf (OcrFile imagePath p))
      = log p ++ [EvWrite dataJson; EvWrite [newline]]).
Proof.
  intros dataJson. unfold OcrFile. fold dataJson. rewrite withLock_log.
  destruct (ppLock p); [split; [now left|discriminate]|].
  unfold bind, get, ret. cbn [internalErr setPpLock].
  destruct (internalErr p); cbn [stateOf].
  - split; [now left|discriminate].
  - destruct (ocr_writes dataJson (setPpLock true p)) as [H1 H2].
    split; [exact H1|]. intros _ _. exact H2.
Qed.

Lemma Ocr_log (image : bytes) (p : Ppocr) :
  let dataJson := marshalImageData {| Path := ""; ContentB64 := image |} in
  (log (stateOf (Ocr image p)) = log p
   \/ log (stateOf (Ocr image p))
      = log p ++ [EvWrite dataJson; EvWrite [newline]])
  /\ (ppLock p = false -> internalErr p = None ->
      cmdStdin p = PipeOpen -> cmd p = CmdRunning ->
      log (stateOf (Ocr image p))
      = log p ++ [EvWrite dataJson; EvWrite [newline]]).
Proof.
  intros dataJson. unfold Ocr, bind, get, ret. fold dataJson.
  destruct (internalErr p); cbn [stateOf].
  - split; [now left|discriminate].
  - rewrite withLock_log.
    destruct (ppLock p); [split; [now left|discriminate]|].
    destruct (ocr_writes dataJson (setPpLock true p)) as [H1 H2].
    split; [exact H1|]. intros _ _. exact H2.
Qed.

(** C10, amended.  A request is written as the JSON of its [imageData]
    followed by one newline byte, in two writes, and nothing else is
    written; a request that is refused, or that waits for the lock,
    writes nothing; with the lock free, no error recorded and the worker
    running, both writes are made.  For a path that is
    not empty the JSON of [OcrFile] is one object whose only member is
    [image_path], a string (the path itself when it is ASCII); for an image
    that is not empty the JSON of [Ocr] is one object whose only member is
    [image_base64], the base64 text of the image.  Neither JSON text holds
    a newline. *)
Theorem request_bytes (imagePath : string) (image : bytes) (p : Ppocr) :
  imagePath <> "" -> image <> [] ->
  let fileJson := marshalImageData {| Path := imagePath; ContentB64 := [] |} in
  let imageJson := marshalImageData {| Path := ""; ContentB64 := image |} in
  ((log (stateOf (OcrFile imagePath p)) = log p
    \/ log (stateOf (OcrFile imagePath p))
       = log p ++ [EvWrite fileJson; EvWrite [newline]])
   /\ (log (stateOf (Ocr image p)) = log p
       \/ log (stateOf (Ocr image p))
          = log p ++ [EvWrite imageJson; EvWrite [newline]]))
  /\ (ppLock p = false -> internalErr p = None ->
      cmdStdin p = PipeOpen -> cmd p = CmdRunning ->
      log (stateOf (OcrFile imagePath p))
      = log p ++ [EvWrite fileJson; EvWrite [newline]]
      /\ log (stateOf (Ocr image p))
         = log p ++ [EvWrite imageJson; EvWrite [newline]])
  /\ (exists v, parseJSON fileJson = Some (JObject [("image_path", JString v)])
        /\ (forallb (fun c => b2n c <? 128)%N (unstr imagePath) = true
            -> v = imagePath))
  /\ parseJSON imageJson
     = Some (JObject [("image_base64", JString (str (base64 image)))])
  /\ ~ In newline fileJson /\ ~ In newline imageJson.
Proof.
  intros Hpath Himage fileJson imageJson.
  destruct (OcrFile_log imagePath p) as [F1 F2].
  destruct (Ocr_log image p) as [I1 I2].
  assert (Hf : scanPrefix SNormal (encodeStringBody 0 0 (unstr imagePath))
               = Some SNormal) by now apply encodeStringBody_scans.
  assert (Hi : scanPrefix SNormal (base64 image) = Some SNormal)
    by apply simple_scans, base64_simple.
  subst fileJson imageJson.
  rewrite (marshal_path _ Hpath), (marshal_image _ Himage) in *.
  repeat split; try assumption.
  - now apply F2.
  - now apply I2.
  - exists (unquote (encodeStringBody 0 0 (unstr imagePath))). split.
    + now rewrite parse_oneMember.
    + intros Ha. unfold unquote. rewrite unquote_encode_ascii by exact Ha.
      apply str_unstr.
  - rewrite parse_oneMember by (reflexivity || assumption).
    unfold unquote at 2. now rewrite simple_unquote by apply base64_simple.
  - now apply oneMember_one_line.
  - now apply oneMember_one_line.
Qed.

(** The theorem at a worker that answers, for the file [x.png] and an
    image of three bytes. *)
Lemma request_bytes_witness :
  ("x.png" <> "" /\ unstr "png" <> [])
  /\ log (stateOf (OcrFile "x.png" echoPpocr))
     = log echoPpocr ++ [EvWrite (jsonText "{'image_path':'x.png'}");
                         EvWrite [newline]]
  /\ log (stateOf (Ocr (unstr "png") echoPpocr))
     = log echoPpocr ++ [EvWrite (jsonText "{'image_base64':'cG5n'}");
                         EvWrite [newline]].
Proof.
  assert (H1 : "x.png" <> "") by discriminate.
  assert (H2 : unstr "png" <> []) by discriminate.
  split; [split; assumption|].
  destruct (request_bytes "x.png" (unstr "png") echoPpocr H1 H2)
    as (_ & H & _).
  apply H; vm_compute; reflexivity.
Defined.

(** C10 as stated fails: for the empty path, and for the empty image, the
    object written has neither member. *)
Lemma request_without_member :
  log (stateOf (OcrFile "" echoPpocr))
  = log echoPpocr ++ [EvWrite (unstr "{}"); EvWrite [newline]]
  /\ log (stateOf (Ocr [] echoPpocr))
     = log echoPpocr ++ [EvWrite (unstr "{}"); EvWrite [newline]]
  /\ parseJSON (unstr "{}") = Some (JObject []).
Proof. repeat split; vm_compute; reflexivity. Qed.

(** The worker's answer to the request comes back as the line read. *)
Example OcrFile_echo :
  exists p',
    OcrFile "x.png" echoPpocr
    = Ret (Some (jsonText "{'code':100,'data':[{'box':[[0,0],[10,0],[10,10],[0,10]],"
                 ++ jsonText " 'score':0.99,'text':'hello'}]}" ++ [newline]), None) p'.
Proof. eexists. vm_compute. reflexivity. Qed.

(* ================================================================== *)
(** * Integers as [float64]                                             *)
(* ================================================================== *)

Lemma iter_xO_value (m d : positive) :
  Zpos (Pos.iter xO m d) = (Zpos m * 2 ^ Zpos d)%Z.
Proof.
  induction d as [|d IH] using Pos.peano_ind.
  - cbn. lia.
  - rewrite Pos.iter_succ, Pos2Z.inj_xO, IH, Pos2Z.inj_succ, Z.pow_succ_r by lia.
    lia.
Qed.

Lemma iter_xO_digits (m d : positive) :
  digits2_pos (Pos.iter xO m d) = (digits2_pos m + d)%positive.
Proof.
  induction d as [|d IH] using Pos.peano_ind.
  - cbn. lia.
  - rewrite Pos.iter_succ. cbn [digits2_pos]. rewrite IH. lia.
Qed.

Lemma digits2_pos_low (m : positive) :
  (2 ^ (Zpos (digits2_pos m) - 1) <= Zpos m)%Z.
Proof.
  induction m as [m IH|m IH|]; cbn [digits2_pos]; [| |cbn; lia];
    rewrite Pos2Z.inj_succ;
    replace (Z.succ (Zpos (digits2_pos m)) - 1)%Z
      with (Z.succ (Zpos (digits2_pos m) - 1))%Z by lia;
    rewrite Z.pow_succ_r by lia; lia.
Qed.

Lemma digits2_pos_small (m : positive) :
  (Zpos m < 2 ^ 53)%Z -> (Zpos (digits2_pos m) <= 53)%Z.
Proof.
  intros H. destruct (Z_le_gt_dec (Zpos (digits2_pos m)) 53) as [|Hgt]; [assumption|].
  pose proof (digits2_pos_low m) as Hl.
  assert (2 ^ 53 <= 2 ^ (Zpos (digits2_pos m) - 1))%Z
    by (apply Z.pow_le_mono_r; lia).
  lia.
Qed.

(** A positive integer below [2^53] as a [float64]: its bits, moved up to
    fill the 53 of the mantissa. *)
Lemma binary_round_small (s : bool) (m : positive) :
  (Zpos m < 2 ^ 53)%Z ->
  binary_round 53 1024 s m 0
  = match (Zpos (digits2_pos m) - 53)%Z with
    | Zneg d => S754_finite s (Pos.iter xO m d) (Zneg d)
    | _ => S754_finite s m 0
    end.
Proof.
  intros H. apply digits2_pos_small in H.
  assert (Hf : forall e, fexp 53 1024 e = Z.max (e - 53) (-1074)) by reflexivity.
  unfold binary_round, shl_align. rewrite Hf.
  replace (Z.max (Zpos (digits2_pos m) + 0 - 53) (-1074))
    with (Zpos (digits2_pos m) - 53)%Z by lia.
  rewrite Z.sub_0_r.
  destruct (Zpos (digits2_pos m) - 53)%Z as [|d|d] eqn:Ed; [|lia|].
  - assert (E0 : (fexp 53 1024 (Zpos (digits2_pos m) + 0) - 0 = 0)%Z)
      by (rewrite Hf; lia).
    unfold binary_round_aux, shr_fexp, Zdigits2. rewrite E0.
    cbn [shr shr_record_of_loc shr_m loc_of_shr_record round_nearest_even].
    rewrite E0. reflexivity.
  - assert (E0 : (fexp 53 1024 (Zpos (digits2_pos (Pos.iter xO m d)) + Zneg d)
                  - Zneg d = 0)%Z)
      by (rewrite Hf, iter_xO_digits; lia).
    unfold binary_round_aux, shr_fexp, Zdigits2. rewrite E0.
    cbn [shr shr_record_of_loc shr_m loc_of_shr_record round_nearest_even].
    rewrite E0. cbn [shr shr_m].
    destruct (Z.leb_spec (Zneg d) (1024 - 53)); [reflexivity|lia].
Qed.

(** An integer below [2^53] in size comes back from [float64] as it was. *)
Lemma floatToInt_f64 (z : Z) : (Z.abs z < 2 ^ 53)%Z -> floatToInt (f64 z) = z.
Proof.
  intros H. unfold f64, binary_normalize.
  destruct z as [|m|m]; [reflexivity| |];
    rewrite binary_round_small by lia;
    pose proof (digits2_pos_small m ltac:(lia)) as Hs;
    (destruct (Zpos (digits2_pos m) - 53)%Z as [|d|d] eqn:Ed; [|lia|]);
    unfold floatToInt.
  - rewrite Z.shiftl_0_r.
    destruct ((- 2 ^ 63 <=? Zpos m) && (Zpos m <? 2 ^ 63))%Z eqn:E; [reflexivity|].
    apply andb_false_iff in E. destruct E as [E|E];
      [apply Z.leb_gt in E|apply Z.ltb_ge in E]; lia.
  - rewrite Z.shiftr_div_pow2, iter_xO_value, Z.div_mul by lia.
    destruct ((- 2 ^ 63 <=? Zpos m) && (Zpos m <? 2 ^ 63))%Z eqn:E; [reflexivity|].
    apply andb_false_iff in E. destruct E as [E|E];
      [apply Z.leb_gt in E|apply Z.ltb_ge in E]; lia.
  - rewrite Z.shiftl_0_r.
    destruct ((- 2 ^ 63 <=? - Zpos m) && (- Zpos m <? 2 ^ 63))%Z eqn:E; [reflexivity|].
    apply andb_false_iff in E. destruct E as [E|E];
      [apply Z.leb_gt in E|apply Z.ltb_ge in E]; lia.
  - rewrite Z.shiftr_div_pow2, iter_xO_value, Z.div_mul by lia.
    destruct ((- 2 ^ 63 <=? - Zpos m) && (- Zpos m <? 2 ^ 63))%Z eqn:E; [reflexivity|].
    apply andb_false_iff in E. destruct E as [E|E];
      [apply Z.leb_gt in E|apply Z.ltb_ge in E]; lia.
Qed.

(* ================================================================== *)
(** * Decimal digits                                                    *)
(* ================================================================== *)

Lemma readDecimal_digits (l : bytes) :
  forallb isDigit l = true ->
  forall neg mant,
    readDecimal l 0 neg mant 0 false 0
    = {| dneg := neg; dmant := digitsValue l mant; dexp := 0 |}.
Proof.
  induction l as [|c l IH]; intros H neg mant; [reflexivity|].
  cbn [forallb] in H. apply andb_prop in H. destruct H as [Hc Hl].
  cbn [readDecimal]. rewrite Hc. now apply IH.
Qed.

Lemma uint_digits (d : Decimal.uint) :
  forallb isDigit (unstr (NilEmpty.string_of_uint d)) = true.
Proof. induction d; [reflexivity|exact IHd ..]. Qed.

Lemma uint_value (d : Decimal.uint) : forall acc,
  digitsValue (unstr (NilEmpty.string_of_uint d)) acc = uintValue d acc.
Proof. induction d; intros acc; [reflexivity|apply IHd ..]. Qed.

Lemma uintValue_acc (d : Decimal.uint) : forall acc : positive,
  uintValue d (Npos acc) = Npos (Pos.of_uint_acc d acc).
Proof.
  induction d; intros acc; cbn [uintValue Pos.of_uint_acc]; [reflexivity|..];
    match goal with
    | |- uintValue _ ?x = Npos (Pos.of_uint_acc _ ?y) =>
      replace x with (Npos y) by lia
    end; apply IHd.
Qed.

Lemma uintValue_0 (d : Decimal.uint) : uintValue d 0 = Pos.of_uint d.
Proof.
  induction d; cbn [uintValue Pos.of_uint]; [reflexivity|exact IHd|..];
    match goal with
    | |- uintValue _ ?x = Npos (Pos.of_uint_acc _ ?y) =>
      replace x with (Npos y) by lia
    end; apply uintValue_acc.
Qed.

(** The digits of a positive number: they are digits, the first is not
    zero, and their value is the number. *)
Lemma pos_digits (p : positive) :
  let ds := unstr (NilEmpty.string_of_uint (Pos.to_uint p)) in
  forallb isDigit ds = true /\ digitsValue ds 0 = Npos p
  /\ exists c t, ds = c :: t /\ c <> "0"%char.
Proof.
  cbv zeta. split; [apply uint_digits|]. split.
  - rewrite uint_value, uintValue_0. apply DecimalPos.Unsigned.of_to.
  - pose proof (DecimalPos.Unsigned.to_of (Pos.to_uint p)) as H.
    pose proof (DecimalPos.Unsigned.of_to p) as Ho.
    rewrite Ho in H. cbn [N.to_uint] in H.
    destruct (Pos.to_uint p) as [|u|u|u|u|u|u|u|u|u|u] eqn:E;
      try (eexists _, _; split; [reflexivity|discriminate]).
    + discriminate H.
    + exfalso. rewrite DecimalFacts.unorm_D0 in H. unfold Decimal.unorm in H.
      destruct (Decimal.nzhead u) eqn:En;
        try (exact (DecimalFacts.nzhead_nonzero u _ En));
        try discriminate H.
      injection H as H. subst u. discriminate Ho.
Qed.

Lemma formatInt_pos (p : positive) :
  formatInt (Zpos p) = NilEmpty.string_of_uint (Pos.to_uint p).
Proof.
  unfold formatInt. cbn [Z.to_int NilZero.string_of_int].
  unfold NilZero.string_of_uint.
  pose proof (DecimalPos.Unsigned.to_uint_nonnil p).
  now destruct (Pos.to_uint p).
Qed.

Lemma formatInt_neg (p : positive) :
  formatInt (Zneg p) = String "-" (NilEmpty.string_of_uint (Pos.to_uint p)).
Proof.
  unfold formatInt. cbn [Z.to_int NilZero.string_of_int].
  unfold NilZero.string_of_uint.
  pose proof (DecimalPos.Unsigned.to_uint_nonnil p).
  now destruct (Pos.to_uint p).
Qed.

(** The decimal text of an integer reads as that integer. *)
Lemma parseDecimal_formatInt (z : Z) :
  parseDecimal (unstr (formatInt z))
  = {| dneg := (z <? 0)%Z; dmant := Z.abs_N z; dexp := 0 |}.
Proof.
  destruct z as [|p|p].
  - reflexivity.
  - rewrite formatInt_pos. destruct (pos_digits p) as (Hd & Hv & _).
    unfold parseDecimal. rewrite readDecimal_digits by exact Hd. now rewrite Hv.
  - rewrite formatInt_neg. destruct (pos_digits p) as (Hd & Hv & _).
    unfold parseDecimal. cbn [unstr list_ascii_of_string readDecimal].
    change (isDigit "-") with false. cbv iota.
    change (Ascii.eqb "-" ".") with false. cbv iota.
    change (isChar "-" "eE") with false. cbv iota.
    change (Ascii.eqb "-" "-") with true. cbv iota.
    change (list_ascii_of_string ?s) with (unstr s).
    rewrite readDecimal_digits by exact Hd. now rewrite Hv.
Qed.

Lemma f64_finite (z : Z) : (Z.abs z < 2 ^ 53)%Z -> isFinite (f64 z) = true.
Proof.
  intros H. unfold f64, binary_normalize.
  destruct z as [|m|m]; [reflexivity| |];
    rewrite binary_round_small by lia;
    now destruct (Zpos (digits2_pos m) - 53)%Z.
Qed.

Lemma roundDecimal_int (z : Z) :
  roundDecimal 53 1024 {| dneg := (z <? 0)%Z; dmant := Z.abs_N z; dexp := 0 |}
  = f64 z.
Proof. now destruct z. Qed.

Lemma ParseFloat64_formatInt (z : Z) :
  (Z.abs z < 2 ^ 53)%Z -> ParseFloat64 (unstr (formatInt z)) = Some (f64 z).
Proof.
  intros H. unfold ParseFloat64.
  rewrite parseDecimal_formatInt, roundDecimal_int. cbv zeta.
  now rewrite f64_finite.
Qed.

Lemma ParseInt64_formatInt (z : Z) :
  (- 2 ^ 63 <= z < 2 ^ 63)%Z -> ParseInt64 (unstr (formatInt z)) = Some z.
Proof.
  intros H. unfold ParseInt64. rewrite parseDecimal_formatInt. cbn [dneg dmant].
  assert (Hb : forallb isDigit
                 match unstr (formatInt z) with
                 | c :: t => if Ascii.eqb c "-" then t else unstr (formatInt z)
                 | [] => []
                 end
               && negb (Nat.eqb (length
                 match unstr (formatInt z) with
                 | c :: t => if Ascii.eqb c "-" then t else unstr (formatInt z)
                 | [] => []
                 end) 0) = true).
  { destruct z as [|p|p]; [reflexivity| |].
    - rewrite formatInt_pos. destruct (pos_digits p) as (Hd & _ & c & t & E & Hc).
      rewrite E in *. cbn [forallb] in Hd. apply andb_prop in Hd as [Hd1 Hd2].
      destruct (Ascii.eqb_spec c "-"); [now subst c|].
      cbn [forallb length]. now rewrite Hd1, Hd2.
    - rewrite formatInt_neg. destruct (pos_digits p) as (Hd & _ & c & t & E & Hc).
      cbn [unstr list_ascii_of_string]. change (Ascii.eqb "-" "-") with true.
      cbv iota. change (list_ascii_of_string ?s) with (unstr s).
      rewrite Hd, E. reflexivity. }
  rewrite Hb.
  replace (if (z <? 0)%Z then (- Z.of_N (Z.abs_N z))%Z else Z.of_N (Z.abs_N z))
    with z by (destruct z; cbn; lia).
  destruct ((- 2 ^ 63 <=? z) && (z <? 2 ^ 63))%Z eqn:E; [reflexivity|].
  apply andb_false_iff in E. destruct E as [E|E];
    [apply Z.leb_gt in E|apply Z.ltb_ge in E]; lia.
Qed.

(** Floats that compare equal are cut to the same integer. *)
Lemma feq_floatToInt (a b : spec_float) :
  feq a b = true -> floatToInt a = floatToInt b.
Proof.
  unfold feq, SFeqb, SFcompare.
  destruct a as [sa|sa| |sa ma ea], b as [sb|sb| |sb mb eb]; try discriminate;
    try reflexivity; try (destruct sa; discriminate); try (destruct sb; discriminate).
  destruct sa, sb; try discriminate;
    destruct (Z.compare_spec ea eb); try discriminate; subst;
    rewrite ?Pos.compare_cont_spec;
    destruct (Pos.compare_spec ma mb); try discriminate; now subst.
Qed.

Lemma feq_f64 (z : Z) :
  (Z.abs z < 2 ^ 53)%Z ->
  feq (f64 z) (f64 100) = (z =? 100)%Z.
Proof.
  intros H. destruct (Z.eqb_spec z 100) as [->|Hn]; [reflexivity|].
  destruct (feq (f64 z) (f64 100)) eqn:E; [|reflexivity].
  apply feq_floatToInt in E. rewrite !floatToInt_f64 in E by lia. contradiction.
Qed.

(* ================================================================== *)
(** * What [json.Unmarshal] keeps of a JSON tree                        *)
(* ================================================================== *)

Lemma toAny_array (elems : list json) :
  toAny (JArray elems) = elemsToSlice elems [].
Proof. reflexivity. Qed.

Lemma toAny_object (members : list (string * json)) :
  toAny (JObject members) = membersToMap members [].
Proof. reflexivity. Qed.

Lemma elemsToSlice_cons (x : json) (t : list json) (acc : list any) :
  elemsToSlice (x :: t) acc
  = match toAny x with
    | Ok a => elemsToSlice t (a :: acc)
    | Err e => Err e
    end.
Proof. reflexivity. Qed.

Lemma membersToMap_cons (k : string) (x : json) (t : list (string * json))
    (m : list (string * any)) :
  membersToMap ((k, x) :: t) m
  = match toAny x with
    | Ok a => membersToMap t (mapSet k a m)
    | Err e => Err e
    end.
Proof. reflexivity. Qed.

Lemma json_nested_ind (P : json -> Prop) :
  P JNull -> (forall b, P (JBool b)) -> (forall lit, P (JNumber lit)) ->
  (forall s, P (JString s)) ->
  (forall elems, Forall P elems -> P (JArray elems)) ->
  (forall members, Forall (fun kv => P (snd kv)) members -> P (JObject members)) ->
  forall j, P j.
Proof.
  intros H1 H2 H3 H4 H5 H6. fix IH 1. intros [|b|lit|s|elems|members].
  - exact H1.
  - apply H2.
  - apply H3.
  - apply H4.
  - apply H5. induction elems as [|x elems IHe]; constructor; [apply IH|exact IHe].
  - apply H6. induction members as [|[k x] members IHm]; constructor;
      [apply IH|exact IHm].
Qed.

Lemma elemsToSlice_Ok (elems : list json) :
  Forall (fun j => exists v, toAny j = Ok v) elems ->
  forall acc, exists l, elemsToSlice elems acc = Ok (ASlice (rev acc ++ l))
                        /\ Forall2 (fun j v => toAny j = Ok v) elems l.
Proof.
  induction 1 as [|x elems [v Hv] _ IH]; intros acc.
  - exists []. cbn. rewrite app_nil_r. split; [reflexivity|constructor].
  - rewrite elemsToSlice_cons, Hv. destruct (IH (v :: acc)) as (l & E & Hl).
    exists (v :: l). split; [|now constructor].
    rewrite E. cbn [rev]. now rewrite <- app_assoc.
Qed.

Lemma membersToMap_Ok (members : list (string * json)) :
  Forall (fun kv => exists v, toAny (snd kv) = Ok v) members ->
  forall m0, exists m, membersToMap members m0 = Ok (AMap m).
Proof.
  induction 1 as [|[k x] members [v Hv] _ IH]; intros m0.
  - now exists m0.
  - rewrite membersToMap_cons. cbn [snd] in Hv. rewrite Hv. apply IH.
Qed.

(** A tree whose numbers are in range is decoded without error. *)
Lemma toAny_inRange (j : json) : inRange j = true -> exists v, toAny j = Ok v.
Proof.
  induction j as [|b|lit|s|elems IH|members IH] using json_nested_ind;
    intros H; try (eexists; reflexivity).
  - cbn in *. destruct (ParseFloat64 lit); [eexists; reflexivity|discriminate].
  - rewrite toAny_array.
    destruct (elemsToSlice_Ok elems) with (acc := @nil any) as (l & E & _);
      [|eauto].
    cbn [inRange] in H. rewrite forallb_forall in H.
    rewrite List.Forall_forall in *. intros x Hx. apply IH; auto.
  - rewrite toAny_object.
    destruct (membersToMap_Ok members) with (m0 := @nil (string * any)) as (m & E);
      [|eauto].
    cbn [inRange] in H. rewrite forallb_forall in H.
    rewrite List.Forall_forall in *. intros x Hx. apply IH; auto.
Qed.

Lemma mapGet_mapSet (k k' : string) (v : any) (m : list (string * any)) :
  mapGet k (mapSet k' v m) = if (k =? k')%string then v else mapGet k m.
Proof.
  induction m as [|[k0 v0] m IH]; cbn [mapSet mapGet].
  - reflexivity.
  - destruct (String.eqb_spec k' k0) as [->|Hn]; cbn [mapGet].
    + now destruct (k =? k0)%string.
    + rewrite IH. destruct (String.eqb_spec k k0) as [->|]; [|reflexivity].
      destruct (String.eqb_spec k0 k'); [congruence|reflexivity].
Qed.

(** What the map holds for a key is the value of the last member with
    that key. *)
Lemma membersToMap_lookup (members : list (string * json)) :
  forall m0 m, membersToMap members m0 = Ok (AMap m) ->
  forall k,
    match lastMember k members with
    | Some j => toAny j = Ok (mapGet k m)
    | None => mapGet k m = mapGet k m0
    end.
Proof.
  induction members as [|[k' x] members IH]; intros m0 m H k.
  - cbn in *. now injection H as <-.
  - rewrite membersToMap_cons in H.
    destruct (toAny x) as [a|] eqn:Ex; [|discriminate].
    specialize (IH _ _ H k). cbn [lastMember].
    destruct (lastMember k members); [exact IH|].
    rewrite IH, mapGet_mapSet.
    destruct (String.eqb_spec k k') as [->|]; [exact Ex|reflexivity].
Qed.

(** [json.Unmarshal] of a line that is an object with numbers in range:
    the map it fills. *)
Lemma UnmarshalMap_object (rawData : bytes) (members : list (string * json)) :
  parseJSON rawData = Some (JObject members) ->
  inRange (JObject members) = true ->
  exists resp,
    UnmarshalMap rawData = Ok resp
    /\ forall k,
         match lastMember k members with
         | Some j => toAny j = Ok (mapGet k resp)
         | None => mapGet k resp = ANil
         end.
Proof.
  intros Hp Hr. apply toAny_inRange in Hr. destruct Hr as [v Hv].
  pose proof Hv as Hm. rewrite toAny_object in Hm.
  assert (exists m, v = AMap m) as [m ->].
  { destruct (membersToMap_Ok members) with (m0 := @nil (string * any)) as (m & E).
    - clear -Hm. revert Hm. generalize (@nil (string * any)).
      induction members as [|[k x] members IH]; intros m0 H; constructor.
      + rewrite membersToMap_cons in H. cbn [snd].
        destruct (toAny x); [eauto|discriminate].
      + rewrite membersToMap_cons in H. destruct (toAny x); [eauto|discriminate].
    - rewrite E in Hm. injection Hm as <-. eauto. }
  exists m. unfold UnmarshalMap. rewrite Hp, Hv. split; [reflexivity|].
  intros k. pose proof (membersToMap_lookup members [] m Hm k) as H.
  now destruct (lastMember k members).
Qed.

(* ================================================================== *)
(** * Integers through [strconv]: written and read again                *)
(* ================================================================== *)
























(* ================================================================== *)
(** * Strings of UTF-8 through [encoding/json]                          *)
(* ================================================================== *)

Ltac Zify.zify_post_hook ::= Z.to_euclidean_division_equations.




Ltac Zify.zify_post_hook ::= idtac.






(* ================================================================== *)
(** * What [json.Marshal] writes is read back                           *)
(* ================================================================== *)













(* ================================================================== *)
(** * An element of the array, encoded again and read as an item        *)
(* ================================================================== *)














(* ================================================================== *)
(** * The items of a response                                           *)
(* ================================================================== *)












(* ================================================================== *)
(** * The map of an element, and the fields stored from it              *)
(* ================================================================== *)
















(* ================================================================== *)
(** * Properties of [ParseResult]                                       *)
(* ================================================================== *)










(** The score of the example is the [float32] nearest to 0.99: it is
    [16609444 / 2^24], within half a unit of the last place of 99/100. *)
Example helloItem_score :
  ParseFloat32 (unstr "0.99") = Some (Score helloItem)
  /\ (2 * Z.abs (16609444 * 100 - 99 * 2 ^ 24) <= 100)%Z.
Proof. split; [vm_compute; reflexivity|vm_compute; discriminate]. Qed.


(** How elements decode: [null] and the empty object as the zero item,
    keys without regard to case. *)
Example ParseResult_lenient :
  ParseResult (jsonText "{'code':100,'data':[null, {'TEXT':'a','Score':1}, {}]}")
  = Return {| Code := 100; Msg := "parse success";
              Items := [ {| Rect := []; Score := S754_zero false; Text := "" |};
                         {| Rect := []; Score := S754_finite false 8388608 (-23);
                            Text := "a" |};
                         {| Rect := []; Score := S754_zero false; Text := "" |} ] |}
      None.
Proof. vm_compute. reflexivity. Qed.

(** C2, amended.  When the line is a JSON object whose numbers are within
    [float64] and whose [code] is a number other than 100, [ParseResult]
    returns no error, no items, the [data] formatted by [%v] as message
    (the string itself when it is a string, [<nil>] when there is none),
    and as code the number cut to an integer: when [code] is written as
    an integer below [2^53] in size, that integer. *)
Theorem ParseResult_other_code (rawData : bytes)
    (members : list (string * json)) (lit : bytes) :
  parseJSON rawData = Some (JObject members) ->
  inRange (JObject members) = true ->
  lastMember "code" members = Some (JNumber lit) ->
  (forall code,
      ParseFloat64 lit = Some code -> feq code (f64 100) = false ->
      ParseResult rawData
      = Return {| Code := floatToInt code;
                  Msg := valueText (lastMember "data" members);
                  Items := [] |} None)
  /\ (forall z : Z,
         (Z.abs z < 2 ^ 53)%Z -> z <> 100%Z -> lit = unstr (formatInt z) ->
         ParseResult rawData
         = Return {| Code := z;
                     Msg := valueText (lastMember "data" members);
                     Items := [] |} None)
  /\ (forall s, lastMember "data" members = Some (JString s) ->
         valueText (lastMember "data" members) = s)
  /\ (lastMember "data" members = None ->
      valueText (lastMember "data" members) = "<nil>").
Proof.
  intros Hp Hr Hc.
  destruct (UnmarshalMap_object rawData members Hp Hr) as (resp & Hu & Hk).
  assert (H1 : forall code,
             ParseFloat64 lit = Some code -> feq code (f64 100) = false ->
             ParseResult rawData
             = Return {| Code := floatToInt code;
                         Msg := valueText (lastMember "data" members);
                         Items := [] |} None).
  { intros code Hl H100. unfold ParseResult. rewrite Hu.
    pose proof (Hk "code") as Hcode. rewrite Hc in Hcode. cbn [toAny] in Hcode.
    rewrite Hl in Hcode. injection Hcode as <-. rewrite H100. cbn [negb].
    do 3 f_equal. pose proof (Hk "data") as Hd. unfold valueText.
    destruct (lastMember "data" members); [now rewrite Hd|now rewrite Hd]. }
  split; [exact H1|]. split; [|split].
  - intros z Hz Hn ->.
    rewrite (H1 (f64 z)), floatToInt_f64 by
      (try apply ParseFloat64_formatInt; try rewrite feq_f64;
       try (apply Z.eqb_neq); assumption).
    reflexivity.
  - now intros s ->.
  - now intros ->.
Qed.

(** The theorem at the line of the example, code 101 and the worker's
    message, and at a line whose numbers are negative. *)
Lemma ParseResult_other_code_witness :
  ParseResult (jsonText "{'code':101,'data':'no text found'}")
  = Return {| Code := 101; Msg := "no text found"; Items := [] |} None
  /\ ParseResult (jsonText "{'code':-1,'data':-5}")
     = Return {| Code := -1; Msg := "-5"; Items := [] |} None.
Proof.
  split.
  - apply (proj1 (proj2 (ParseResult_other_code
             (jsonText "{'code':101,'data':'no text found'}")
             [("code", JNumber (unstr "101"));
              ("data", JString "no text found")]
             (unstr "101") eq_refl eq_refl eq_refl)) 101%Z);
      [vm_compute; reflexivity|discriminate|reflexivity].
  - apply (proj1 (proj2 (ParseResult_other_code
             (jsonText "{'code':-1,'data':-5}")
             [("code", JNumber (unstr "-1")); ("data", JNumber (unstr "-5"))]
             (unstr "-1") eq_refl eq_refl eq_refl)) (-1)%Z);
      [vm_compute; reflexivity|discriminate|reflexivity].
Defined.

(** C2 as stated fails: a code that is not an integer is not carried (the
    result of 100.5 has the code of success), and a number too large for
    [float64] is an error. *)
Lemma ParseResult_code_not_carried :
  ParseResult (jsonText "{'code':100.5,'data':'x'}")
  = Return {| Code := 100; Msg := "x"; Items := [] |} None
  /\ ParseResult (jsonText "{'code':1e999,'data':'x'}")
     = Return zeroResult
         (Some (JsonTypeError
            "json: cannot unmarshal number 1e999 into Go value of type float64")).
Proof. split; vm_compute; reflexivity. Qed.

(** C3.  [ParseResult] panics exactly when the line decodes as an object
    whose [code] is there, not [null], and not a number; in every other
    case it returns.  A [code] that is absent or [null] is reported as an
    error. *)
Theorem ParseResult_panics (rawData : bytes) :
  ((exists msg, ParseResult rawData = Panicked msg)
   <-> exists resp, UnmarshalMap rawData = Ok resp
         /\ match mapGet "code" resp with
            | ANil | AFloat _ => False
            | _ => True
            end)
  /\ (forall resp, UnmarshalMap rawData = Ok resp -> mapGet "code" resp = ANil ->
        ParseResult rawData = Return zeroResult (Some (Errorf "no code in response")))
  /\ ParseResult (jsonText "{'code':'100'}")
     = Panicked "interface conversion: interface {} is string, not float64".
Proof.
  split; [|split].
  - unfold ParseResult. destruct (UnmarshalMap rawData) as [resp|e].
    + split.
      * intros [msg H]. exists resp. split; [reflexivity|].
        destruct (mapGet "code" resp); try exact I; try discriminate.
        destruct (negb (feq f (f64 100))); [discriminate|].
        destruct (mapGet "data" resp); try discriminate.
        destruct (decodeItems l []); discriminate.
      * intros [resp' [[= <-] H]].
        destruct (mapGet "code" resp); try contradiction; eexists; reflexivity.
    + split; [intros [msg H]; discriminate|intros [resp [H _]]; discriminate].
  - intros resp Hu Hc. unfold ParseResult. now rewrite Hu, Hc.
  - vm_compute. reflexivity.
Qed.

(* ================================================================== *)
(** * Further properties of the supervisor                              *)
(* ================================================================== *)

(** X1.  When the executable is there but a pipe cannot be made or the
    process cannot be started, [NewPpocr] does not return: [initPpocr]
    fails before the waiter goroutine is started, and the [close] that
    follows waits for that goroutine's signal.  Nothing was spawned. *)
Theorem NewPpocr_start_failure_blocks
    (stat : string -> statResult) (l : Launch) (exe : string) (a : OcrArgs) :
  fileIsExist stat exe = true ->
  stdinPipeErr l <> None \/ stdoutPipeErr l <> None \/ startErr l <> None ->
  exists p', NewPpocr stat l exe a = Block p'
             /\ (log p' = [] \/ log p' = [EvCloseStdin]).
Proof.
  intros Hf H. unfold NewPpocr. rewrite Hf. cbn [negb].
  unfold initPpocr, close, closeStdin. run. cbn.
  destruct (stdinPipeErr l); cbn; [eexists; split; [reflexivity|now left]|].
  destruct (stdoutPipeErr l); cbn; [eexists; split; [reflexivity|now left]|].
  destruct (startErr l); cbn; [eexists; split; [reflexivity|now right]|].
  destruct H as [H|[H|H]]; contradiction.
Qed.

Lemma NewPpocr_start_failure_blocks_witness :
  exists p',
    NewPpocr sampleFs brokenLaunch "/opt/ocr/PaddleOCR-json" noArgs = Block p'
    /\ (log p' = [] \/ log p' = [EvCloseStdin]).
Proof.
  apply NewPpocr_start_failure_blocks; [reflexivity|].
  right. right. discriminate.
Defined.

(** X3.  With a worker that answers the line of the example,
    [OcrFileAndParse] of [x.png] returns code 100 and the one item of the
    line, and no error. *)
Theorem OcrFileAndParse_echo :
  exists p',
    OcrFileAndParse "x.png" echoPpocr
    = Ret (Return {| Code := 100; Msg := "parse success"; Items := [helloItem] |}
                  None) p'.
Proof. eexists. vm_compute. reflexivity. Qed.
